(** * JSON-Patch with extended operations: a shallow embedding of
  [src/module/core.mjs] and [src/src/helpers.ts].

  The JavaScript values the library works on are embedded as a store of
  mutable cells (arrays and plain objects) addressed by locations, so that
  the difference between a reference and a copy is visible.  Every function
  of the source is a state transformer on that store which either returns,
  or throws one of the two kinds of exception the source distinguishes
  ([JsonPatchError] with its name, and the host's [TypeError]). *)

From Stdlib Require Import ZArith Lia Bool Ascii String List.
From stdpp Require Import base option list strings pretty gmap.

Local Open Scope string_scope.
Local Open Scope list_scope.
Local Open Scope Z_scope.

(** ** Strings the way the source uses them *)

Module Str.

Definition chars (s : string) : list ascii := list_ascii_of_string s.
Definition of_chars (l : list ascii) : string := string_of_list_ascii l.

(** [str.charCodeAt(i)] for each position, in order. *)
Definition codes (s : string) : list nat := map nat_of_ascii (chars s).

(** [s.split('/')]: always at least one piece. *)
Fixpoint split_chars (sep : ascii) (l : list ascii) : list (list ascii) :=
  match l with
  | [] => [[]]
  | c :: r =>
      if Ascii.eqb c sep then [] :: split_chars sep r
      else match split_chars sep r with
           | [] => [[c]]
           | p :: ps => (c :: p) :: ps
           end
  end.

Definition split (sep : ascii) (s : string) : list string :=
  map of_chars (split_chars sep (chars s)).

(** [pieces.join('/')]. *)
Fixpoint join (sep : string) (l : list string) : string :=
  match l with
  | [] => ""
  | [a] => a
  | a :: r => String.append a (String.append sep (join sep r))
  end.

(** [s.indexOf(c) != -1] for a one-character needle. *)
Definition has_char (c : ascii) (s : string) : bool :=
  existsb (Ascii.eqb c) (chars s).

(** [s.indexOf(p) === 0]. *)
Fixpoint starts_with (p s : string) : bool :=
  match p, s with
  | EmptyString, _ => true
  | String a p', String b s' => Ascii.eqb a b && starts_with p' s'
  | String _ _, EmptyString => false
  end.

(** [s.replace(/~d/g, r)] for a two-character pattern [~d]: a single
    left-to-right pass over non-overlapping matches. *)
Fixpoint replace_tilde (d r : ascii) (l : list ascii) : list ascii :=
  match l with
  | [] => []
  | c :: rest =>
      match rest with
      | c' :: rest' =>
          if Ascii.eqb c "~"%char && Ascii.eqb c' d
          then r :: replace_tilde d r rest'
          else c :: replace_tilde d r rest
      | [] => [c]
      end
  end.

End Str.

(** ** helpers.ts: the primitives on strings *)

(** [isInteger]: the loop leaves at the first character whose code is
  outside 48..57, and answers [true] when it runs off the end. *)
Fixpoint isInteger_codes (l : list nat) : bool :=
  match l with
  | [] => true
  | c :: r => if ((48 <=? c)%nat && (c <=? 57)%nat) then isInteger_codes r else false
  end.

Definition isInteger (str : string) : bool := isInteger_codes (Str.codes str).

Definition unescapePathComponent (path : string) : string :=
  Str.of_chars
    (Str.replace_tilde "0" "~" (Str.replace_tilde "1" "/" (Str.chars path))).

(** [isValidExtendedOpId], at the type [string] its TypeScript signature
  gives it ([typeof xid === 'string'] holds). *)
Definition isValidExtendedOpId (xid : string) : bool :=
  (3 <=? String.length xid)%nat && Str.starts_with "x-" xid.

(** The names of [JsonPatchErrorName]. *)
Inductive JsonPatchErrorName :=
| SEQUENCE_NOT_AN_ARRAY
| OPERATION_NOT_AN_OBJECT
| OPERATION_OP_INVALID
| OPERATION_X_ARGS_NOT_ARRAY
| OPERATION_X_OP_INVALID
| OPERATION_X_CONFIG_INVALID
| OPERATION_X_ID_INVALID
| OPERATION_X_AMBIGUOUS_REMOVAL
| OPERATION_X_OPERATOR_EXCEPTION
| OPERATION_PATH_INVALID
| OPERATION_FROM_REQUIRED
| OPERATION_VALUE_REQUIRED
| OPERATION_VALUE_CANNOT_CONTAIN_UNDEFINED
| OPERATION_PATH_CANNOT_ADD
| OPERATION_PATH_UNRESOLVABLE
| OPERATION_FROM_UNRESOLVABLE
| OPERATION_PATH_ILLEGAL_ARRAY_INDEX
| OPERATION_VALUE_OUT_OF_BOUNDS
| TEST_OPERATION_FAILED.

(** What a [throw] carries: a [PatchError] (exported as [JsonPatchError])
  with its [name], the host's [TypeError], or whatever a user-supplied
  handler raises. *)
Inductive exn :=
| JsonPatchError (name : JsonPatchErrorName)
| TypeError (msg : string)
| RangeError (msg : string)
| UserError (msg : string).

Definition PROTO_ERROR_MSG : string :=
  "JSON-Patch: modifying `__proto__` or `constructor/prototype` prop is banned for security reasons, if this was on purpose, please set `banPrototypeModifications` flag false and pass it to this function. More info in fast-json-patch README".

(** Outcome of running a piece of the source: a normal return, a throw, or
    [Stuck] when the run leaves the embedding (a location that is not in the
    store, or a chain of references longer than the store, that is, a cyclic
    structure). *)
Inductive res (A : Type) :=
| Ok (a : A)
| Throw (e : exn)
| Stuck.
Arguments Ok {A} a.
Arguments Throw {A} e.
Arguments Stuck {A}.

(** ** The store *)

Abbreviation loc := nat (only parsing).

(** A JavaScript value: a primitive or a reference to a cell.  Numbers are
    the integers of the JSON texts the library is used on, plus [NaN]. *)
Inductive val :=
| VUndef
| VNull
| VBool (b : bool)
| VNum (n : Z)
| VNaN
| VStr (s : string)
| VRef (l : loc).

(** A cell is an array (its elements, a hole reading as [undefined], and the
    named properties the source may put on it through [arr[key] = v]) or a
    plain object with its own properties in insertion order. *)
Inductive cell :=
| CArr (elems : list val) (props : list (string * val))
| CObj (props : list (string * val)).

Abbreviation heap := (list cell) (only parsing).

Definition val_eqb (a b : val) : bool :=
  match a, b with
  | VUndef, VUndef | VNull, VNull => true
  | VBool x, VBool y => Bool.eqb x y
  | VNum x, VNum y => Z.eqb x y
  | VStr x, VStr y => String.eqb x y
  | VRef x, VRef y => Nat.eqb x y
  | _, _ => false
  end.

(** [a === b]: [NaN] is not identical to itself, references are compared by
    location. *)
Definition strict_eq (a b : val) : bool := val_eqb a b.

(** [!v]: the falsy values. *)
Definition falsy (v : val) : bool :=
  match v with
  | VUndef | VNull | VNaN => true
  | VBool b => negb b
  | VNum n => Z.eqb n 0
  | VStr s => String.eqb s ""
  | VRef _ => false
  end.

Definition is_array (h : heap) (v : val) : bool :=
  match v with
  | VRef l => match h !! l with Some (CArr _ _) => true | _ => false end
  | _ => false
  end.

(** [typeof v == 'object']: [null], arrays and plain objects. *)
Definition typeof_object (v : val) : bool :=
  match v with VNull | VRef _ => true | _ => false end.

(** Own properties as an association list. *)
Fixpoint plookup (k : string) (ps : list (string * val)) : option val :=
  match ps with
  | [] => None
  | (k', v) :: r => if String.eqb k k' then Some v else plookup k r
  end.

Fixpoint pset (k : string) (v : val) (ps : list (string * val)) : list (string * val) :=
  match ps with
  | [] => [(k, v)]
  | (k', v') :: r => if String.eqb k k' then (k, v) :: r else (k', v') :: pset k v r
  end.

Fixpoint pdel (k : string) (ps : list (string * val)) : list (string * val) :=
  match ps with
  | [] => []
  | (k', v') :: r => if String.eqb k k' then r else (k', v') :: pdel k r
  end.

Definition alloc (c : cell) (h : heap) : val * heap := (VRef (length h), h ++ [c]).

(** ** Numbers and property keys *)

(** The value of a string of decimal digits. *)
Definition digits_value (l : list nat) : Z :=
  fold_left (fun acc c => 10 * acc + (Z.of_nat c - 48)) l 0.

(** The double nearest to a non-negative integer (ties to even, 53 bits of
    mantissa); [None] is [Infinity]. *)
Definition round_double (n : Z) : option Z :=
  if n <? 2 ^ 53 then Some n
  else
    let e := Z.log2 n - 52 in
    let q := Z.shiftr n e in
    let r := Z.land n (Z.ones e) in
    let half := 2 ^ (e - 1) in
    let q' := if (half <? r) || ((r =? half) && Z.odd q) then q + 1 else q in
    let m := Z.shiftl q' e in
    if m <? 2 ^ 1024 then Some m else None.

(** [ToInt32]: wrap-around to 32 bits, read as signed. *)
Definition ToInt32 (n : Z) : Z := (n + 2 ^ 31) mod 2 ^ 32 - 2 ^ 31.

Definition int32_of_digits (l : list nat) : Z :=
  match round_double (digits_value l) with
  | Some m => ToInt32 m
  | None => 0
  end.

(** [StrWhiteSpaceChar] among the codes below 256: tab, line feed,
    vertical tab, form feed, carriage return, space, no-break space. *)
Definition is_space (c : nat) : bool :=
  ((c =? 9) || (c =? 10) || (c =? 11) || (c =? 12) || (c =? 13) || (c =? 32)
   || (c =? 160))%nat.

Fixpoint skip_spaces (l : list nat) : list nat :=
  match l with
  | c :: r => if is_space c then skip_spaces r else l
  | [] => []
  end.

Definition trim (l : list nat) : list nat := rev (skip_spaces (rev (skip_spaces l))).

(** The decimal digits a list of codes starts with, and what follows. *)
Fixpoint leading_digits (l : list nat) : list nat * list nat :=
  match l with
  | c :: r =>
      if ((48 <=? c) && (c <=? 57))%nat
      then let '(ds, rest) := leading_digits r in (c :: ds, rest)
      else ([], l)
  | [] => ([], [])
  end.

(** [ExponentPart], optional: the exponent, [None] when what is there is
    no exponent part. *)
Definition exponent_part (l : list nat) : option Z :=
  match l with
  | [] => Some 0
  | e :: r =>
      if ((e =? 101) || (e =? 69))%nat then
        let '(sign, ds) :=
          match r with
          | c :: r' => if (c =? 43)%nat then (1, r')
                       else if (c =? 45)%nat then (-1, r') else (1, r)
          | [] => (1, r)
          end in
        match ds with
        | [] => None
        | _ => if isInteger_codes ds then Some (sign * digits_value ds) else None
        end
      else None
  end.

(** The value of a [StrUnsignedDecimalLiteral] as [mantissa * 10 ^ exponent];
    [Infinity]; or no number. *)
Inductive literal :=
| Decimal (mantissa exponent : Z)
| Infinite
| NoNumber.

Definition unsigned_decimal (l : list nat) : literal :=
  if bool_decide (l = Str.codes "Infinity") then Infinite
  else
    let '(ip, r1) := leading_digits l in
    let '(fp, r2) :=
      match r1 with
      | c :: r => if (c =? 46)%nat then leading_digits r else ([], r1)
      | [] => ([], [])
      end in
    match ip ++ fp with
    | [] => NoNumber
    | ds =>
        match exponent_part r2 with
        | Some e => Decimal (digits_value ds) (e - Z.of_nat (length fp))
        | None => NoNumber
        end
    end.

(** The digit a code stands for in a radix up to 16. *)
Definition radix_digit (radix : Z) (c : nat) : option Z :=
  let d := if ((48 <=? c) && (c <=? 57))%nat then Z.of_nat c - 48
           else if ((97 <=? c) && (c <=? 102))%nat then Z.of_nat c - 87
           else if ((65 <=? c) && (c <=? 70))%nat then Z.of_nat c - 55
           else 16 in
  if d <? radix then Some d else None.

Fixpoint radix_value (radix : Z) (acc : Z) (l : list nat) : option Z :=
  match l with
  | [] => Some acc
  | c :: r =>
      match radix_digit radix c with
      | Some d => radix_value radix (radix * acc + d) r
      | None => None
      end
  end.

(** [NonDecimalIntegerLiteral]: [0x], [0o] or [0b] and digits. *)
Definition non_decimal (l : list nat) : option Z :=
  match l with
  | z :: x :: (_ :: _) as ds =>
      if (z =? 48)%nat then
        if ((x =? 120) || (x =? 88))%nat then radix_value 16 0 ds
        else if ((x =? 111) || (x =? 79))%nat then radix_value 8 0 ds
        else if ((x =? 98) || (x =? 66))%nat then radix_value 2 0 ds
        else None
      else None
  | _ => None
  end.

(** The integer part of the double nearest to [m * 10 ^ e], for [m] not
    negative; [None] is [Infinity]. *)
Definition truncated_double (m e : Z) : option Z :=
  if m =? 0 then Some 0
  else if 309 <=? e then None (* [10 ^ 309] is beyond the largest double *)
  else if 0 <=? e then round_double (m * 10 ^ e)
  else if Z.log2 m + 2 <? - e then Some 0 (* below [1 / 10] *)
  else
    let D := 10 ^ (- e) in
    let q := m / D in
    let rem := m mod D in
    if q <? 2 ^ 52 then
      (* doubles are less than one apart: the integer part is [q], unless the
         value is within half a step of [q + 1] *)
      let E := if q =? 0 then -1 else Z.log2 q in
      Some (if (D - rem) * 2 ^ (53 - E) <=? D then q + 1 else q)
    else if q <? 2 ^ 53 then
      Some (if (D <? 2 * rem) || ((2 * rem =? D) && Z.odd q) then q + 1 else q)
    else
      let s := Z.log2 q - 52 in
      let qq := Z.shiftr q s in
      let r := Z.land q (Z.ones s) in
      let half := 2 ^ (s - 1) in
      let up := (half <? r) || ((r =? half) && ((0 <? rem) || Z.odd qq)) in
      let t := Z.shiftl (if up then qq + 1 else qq) s in
      if t <? 2 ^ 1024 then Some t else None.

Definition int32_of_literal (negative : bool) (lit : literal) : Z :=
  match lit with
  | Decimal m e =>
      match truncated_double m e with
      | Some t => ToInt32 (if negative then - t else t)
      | None => 0
      end
  | Infinite | NoNumber => 0
  end.

(** [~~s] on a string, [ToInt32(ToNumber(s))]: the string is trimmed and
    read as a [StringNumericLiteral]; what is no such literal is [NaN], and
    [NaN] and the infinities become [0]. *)
Definition int32_of_string (s : string) : Z :=
  let cs := Str.codes s in
  if isInteger_codes cs then int32_of_digits cs
  else
    match trim cs with
    | [] => 0
    | (c :: r) as t =>
        if (c =? 43)%nat then int32_of_literal false (unsigned_decimal r)
        else if (c =? 45)%nat then int32_of_literal true (unsigned_decimal r)
        else match non_decimal t with
             | Some n => match round_double n with Some m => ToInt32 m | None => 0 end
             | None => int32_of_literal false (unsigned_decimal t)
             end
    end.

(** What the traversal holds in [key]: [keys[t]] past the end of the array
    ([undefined]), a path component, or the number an index was turned
    into. *)
Inductive key :=
| KUndef
| KStr (s : string)
| KNum (n : Z).

(** [~~key]. *)
Definition int32_of_key (k : key) : Z :=
  match k with
  | KUndef => 0
  | KStr s => int32_of_string s
  | KNum n => ToInt32 n
  end.

(** [String(key)], the name under which [obj[key]] looks. *)
Definition key_name (k : key) : string :=
  match k with
  | KUndef => "undefined"
  | KStr s => s
  | KNum n => pretty n
  end.

(** A property name is an array index when it is the canonical spelling of
    an integer below [2^32 - 1]. *)
Definition index_value (name : string) : option Z :=
  let cs := Str.codes name in
  match cs with
  | [] => None
  | c :: r =>
      if isInteger_codes cs && (negb (c =? 48)%nat || match r with [] => true | _ => false end)
      then let n := digits_value cs in
           if n <? 2 ^ 32 - 1 then Some n else None
      else None
  end.

Definition array_index (name : string) : option nat :=
  match index_value name with
  | Some n => Some (Z.to_nat n)
  | None => None
  end.

Definition key_index (k : key) : option nat := array_index (key_name k).

(** ** Reading and writing properties *)

Definition pad_to (n : nat) (es : list val) : list val :=
  es ++ replicate (n - length es) VUndef.

(** [obj[key]] as a read.  Only own properties are embedded: a name that is
    not there reads as [undefined]. *)
Definition get_prop (h : heap) (o : val) (k : key) : res val :=
  match o with
  | VUndef | VNull => Throw (TypeError "Cannot read properties of undefined or null")
  | VBool _ | VNum _ | VNaN => Ok VUndef
  | VStr s =>
      match key_index k with
      | Some i =>
          match Str.chars s !! i with
          | Some c => Ok (VStr (String c EmptyString))
          | None => Ok VUndef
          end
      | None =>
          if String.eqb (key_name k) "length"
          then Ok (VNum (Z.of_nat (String.length s))) else Ok VUndef
      end
  | VRef l =>
      match h !! l with
      | None => Stuck
      | Some (CObj ps) => Ok (default VUndef (plookup (key_name k) ps))
      | Some (CArr es ps) =>
          match key_index k with
          | Some i => Ok (default VUndef (es !! i))
          | None =>
              if String.eqb (key_name k) "length"
              then Ok (VNum (Z.of_nat (length es)))
              else Ok (default VUndef (plookup (key_name k) ps))
          end
      end
  end.

(** [obj[key] = v].  The module is strict code: writing a property of a
    primitive throws. *)
Definition set_prop (h : heap) (o : val) (k : key) (v : val) : res heap :=
  match o with
  | VRef l =>
      match h !! l with
      | None => Stuck
      | Some (CObj ps) => Ok (<[l := CObj (pset (key_name k) v ps)]> h)
      | Some (CArr es ps) =>
          match key_index k with
          | Some i =>
              Ok (<[l := CArr (if (i <? length es)%nat then <[i := v]> es
                               else pad_to i es ++ [v]) ps]> h)
          | None =>
              if String.eqb (key_name k) "length" then
                match v with
                | VNum n =>
                    if (0 <=? n) && (n <? 2 ^ 32)
                    then Ok (<[l := CArr (pad_to (Z.to_nat n) (take (Z.to_nat n) es)) ps]> h)
                    else Throw (RangeError "Invalid array length")
                | VNaN | VUndef => Throw (RangeError "Invalid array length")
                | _ => Stuck
                end
              else Ok (<[l := CArr es (pset (key_name k) v ps)]> h)
          end
      end
  | _ => Throw (TypeError "Cannot create property on a primitive value")
  end.

(** [delete obj[key]], as [objOps.remove] uses it after it has read
    [obj[key]]: on a string the characters and [length] cannot be deleted. *)
Definition delete_prop (h : heap) (o : val) (k : key) : res heap :=
  match o with
  | VRef l =>
      match h !! l with
      | None => Stuck
      | Some (CObj ps) => Ok (<[l := CObj (pdel (key_name k) ps)]> h)
      | Some (CArr es ps) =>
          match key_index k with
          | Some i => Ok (<[l := CArr (if (i <? length es)%nat then <[i := VUndef]> es else es) ps]> h)
          | None =>
              if String.eqb (key_name k) "length"
              then Throw (TypeError "Cannot delete property 'length'")
              else Ok (<[l := CArr es (pdel (key_name k) ps)]> h)
          end
      end
  | VStr s =>
      match key_index k with
      | Some i =>
          if (i <? String.length s)%nat
          then Throw (TypeError "Cannot delete property of a string") else Ok h
      | None =>
          if String.eqb (key_name k) "length"
          then Throw (TypeError "Cannot delete property 'length'") else Ok h
      end
  | VUndef | VNull => Throw (TypeError "Cannot convert undefined or null to object")
  | _ => Ok h
  end.

(** [arr.splice(start, del, ...ins)] on the elements: the new elements and
    the removed ones. *)
Definition splice (es : list val) (start : Z) (del : nat) (ins : list val)
  : list val * list val :=
  let len := Z.of_nat (length es) in
  let i := Z.to_nat (if start <? 0 then Z.max (len + start) 0 else Z.min start len) in
  (take i es ++ ins ++ drop (i + del) es, take del (drop i es)).

Definition splice_at (h : heap) (o : val) (start : Z) (del : nat) (ins : list val)
  : res (list val * heap) :=
  match o with
  | VRef l =>
      match h !! l with
      | Some (CArr es ps) =>
          let '(es', removed) := splice es start del ins in
          Ok (removed, <[l := CArr es' ps]> h)
      | _ => Stuck
      end
  | _ => Stuck
  end.

(** ** The state-and-exception monad of the embedding *)

Definition M (A : Type) : Type := heap -> res A * heap.

Definition ret {A} (a : A) : M A := fun h => (Ok a, h).
Definition throw {A} (e : exn) : M A := fun h => (Throw e, h).
Definition stuck {A} : M A := fun h => (Stuck, h).

Definition bind {A B} (m : M A) (f : A -> M B) : M B :=
  fun h =>
    match m h with
    | (Ok a, h') => f a h'
    | (Throw e, h') => (Throw e, h')
    | (Stuck, h') => (Stuck, h')
    end.

Notation "'let*' x ':=' m 'in' k" := (bind m (fun x => k))
  (at level 10, x name, m at level 100, k at level 200).
Notation "'run' m 'then' k" := (bind m (fun _ => k))
  (at level 10, m at level 100, k at level 200).

Definition get_heap : M heap := fun h => (Ok h, h).

(** A read that may throw. *)
Definition read {A} (f : heap -> res A) : M A :=
  fun h => (f h, h).

(** A write that either happens or throws with the store as it was. *)
Definition write (f : heap -> res heap) : M unit :=
  fun h =>
    match f h with
    | Ok h' => (Ok tt, h')
    | Throw e => (Throw e, h)
    | Stuck => (Stuck, h)
    end.

Definition new_cell (c : cell) : M val := fun h => let '(v, h') := alloc c h in (Ok v, h').

Fixpoint mapM {A B} (f : A -> M B) (l : list A) : M (list B) :=
  match l with
  | [] => ret []
  | x :: r => let* y := f x in let* ys := mapM f r in ret (y :: ys)
  end.

(** ** helpers.ts: [_deepClone] *)

(** [JSON.parse(JSON.stringify(v))]: a fresh cell for every array and
    object met; in an array [undefined] and [NaN] become [null] and named
    properties are left behind, in an object a property that is
    [undefined] is left out.  The bound is the number of cells of the
    store: a longer chain of references is a cycle, on which
    [JSON.stringify] throws. *)
Fixpoint json_roundtrip (n : nat) (v : val) : M val :=
  match v with
  | VRef l =>
      match n with
      | O => throw (TypeError "Converting circular structure to JSON")
      | S n' =>
          let* h := get_heap in
          match h !! l with
          | None => stuck
          | Some (CArr es _) =>
              let* es' := mapM (json_roundtrip n') es in
              new_cell (CArr es' [])
          | Some (CObj ps) =>
              let* ps' := mapM (fun kv => let* v' := json_roundtrip n' (snd kv) in
                                          ret (fst kv, v'))
                               (filter (fun kv => negb (val_eqb (snd kv) VUndef)) ps) in
              new_cell (CObj ps')
          end
      end
  | VUndef | VNaN => ret VNull
  | _ => ret v
  end.

(** [_deepClone]: by [typeof obj]. *)
Definition _deepClone (obj : val) : M val :=
  match obj with
  | VNull | VRef _ => let* h := get_heap in json_roundtrip (length h) obj
  | VUndef => ret VNull
  | _ => ret obj
  end.

(** ** core.mjs: [_areEquals] *)

Fixpoint all_res {A} (f : A -> res bool) (l : list A) : res bool :=
  match l with
  | [] => Ok true
  | x :: r =>
      match f x with
      | Ok true => all_res f r
      | other => other
      end
  end.

(** [b.hasOwnProperty(k)] on a plain object: the method is found on the
    prototype unless [b] has an own property of that name, and then what is
    called is that property's value, which is data. *)
Definition call_hasOwnProperty (pb : list (string * val)) (k : string) : res bool :=
  match plookup "hasOwnProperty" pb with
  | Some _ => Throw (TypeError "b.hasOwnProperty is not a function")
  | None => Ok (bool_decide (is_Some (plookup k pb)))
  end.

(** Both loops of the source run from the last index down to the first. *)
Fixpoint areEquals_fuel (n : nat) (h : heap) (a b : val) : res bool :=
  if strict_eq a b then Ok true
  else if negb (falsy a) && negb (falsy b) && typeof_object a && typeof_object b then
    match a, b with
    | VRef la, VRef lb =>
        match h !! la, h !! lb, n with
        | Some ca, Some cb, S n' =>
            match ca, cb with
            | CArr ea _, CArr eb _ =>
                if negb (length ea =? length eb)%nat then Ok false
                else all_res (fun i => areEquals_fuel n' h (default VUndef (ea !! i))
                                                         (default VUndef (eb !! i)))
                             (rev (seq 0 (length ea)))
            | CArr _ _, CObj _ | CObj _, CArr _ _ => Ok false
            | CObj pa, CObj pb =>
                let keys := map fst pa in
                if negb (length keys =? length (map fst pb))%nat then Ok false
                else
                  match all_res (call_hasOwnProperty pb) (rev keys) with
                  | Ok true =>
                      all_res (fun k => areEquals_fuel n' h (default VUndef (plookup k pa))
                                                            (default VUndef (plookup k pb)))
                              (rev keys)
                  | other => other
                  end
            end
        | _, _, _ => Stuck
        end
    | _, _ => Stuck
    end
  else Ok (negb (strict_eq a a) && negb (strict_eq b b)).

Definition _areEquals (h : heap) (a b : val) : res bool :=
  areEquals_fuel (length h) h a b.

(** ** helpers.ts: [hasUndefined] *)

Fixpoint any_res {A} (f : A -> res bool) (l : list A) : res bool :=
  match l with
  | [] => Ok false
  | x :: r =>
      match f x with
      | Ok false => any_res f r
      | other => other
      end
  end.

Fixpoint hasUndefined_fuel (n : nat) (h : heap) (obj : val) : res bool :=
  if strict_eq obj VUndef then Ok true
  else if negb (falsy obj) then
    match obj with
    | VRef l =>
        match h !! l, n with
        | Some (CArr es _), S n' => any_res (hasUndefined_fuel n' h) es
        | Some (CObj ps), S n' => any_res (hasUndefined_fuel n' h) (map snd ps)
        | _, _ => Stuck
        end
    | _ => Ok false
    end
  else Ok false.

Definition hasUndefined (h : heap) (obj : val) : res bool :=
  hasUndefined_fuel (length h) h obj.

(** ** Operations, results and the registry of extended operations *)

(** The names every plain object inherits from [Object.prototype].  The
    store holds own properties only, so that reading an absent member is
    reading [undefined] for the other names. *)
Definition inherited_name (s : string) : bool :=
  existsb (String.eqb s)
    ["constructor"; "__proto__"; "hasOwnProperty"; "isPrototypeOf";
     "propertyIsEnumerable"; "toLocaleString"; "toString"; "valueOf";
     "__defineGetter__"; "__defineSetter__"; "__lookupGetter__"; "__lookupSetter__"].

(** [operation.op].  [Op_other] is any other name: one that neither table
    of operators has as its own. *)
Inductive opname :=
| Op_add
| Op_remove
| Op_replace
| Op_move
| Op_copy
| Op_test
| Op_get
| Op_x
| Op_other (name : string).

Definition opname_eqb (a b : opname) : bool :=
  match a, b with
  | Op_add, Op_add | Op_remove, Op_remove | Op_replace, Op_replace
  | Op_move, Op_move | Op_copy, Op_copy | Op_test, Op_test
  | Op_get, Op_get | Op_x, Op_x => true
  | Op_other x, Op_other y => String.eqb x y
  | _, _ => false
  end.

(** An operation object.  An absent [path], [from] or [xid] is [None], an
    absent [value] or [args] is [VUndef], an absent [resolve] is [false]. *)
Record Operation := mkOp {
  op : opname;
  path : option string;
  from : option string;
  value : val;
  xid : option string;
  args : val;
  resolve : bool
}.

Definition std_op (o : opname) (p : string) : Operation :=
  mkOp o (Some p) None VUndef None VUndef false.

(** What an operator returns.  [got] is what [_get] stores into
    [operation.value], the operation objects themselves not being in the
    store. *)
Record Result := mkResult {
  newDocument : val;
  removed : val;
  test : option bool;
  index : option key;
  got : val
}.

Definition result_doc (d : val) : Result := mkResult d VUndef None None VUndef.

(** A user handler is called with [this = operation] and the arguments
    [(obj, key, workingDocument)]; it returns [undefined] ([None]) or a
    result object. *)
Definition Handler := Operation -> val -> key -> val -> M (option Result).

(** A validator function: [(operation, index, document, existingPathFragment)]. *)
Definition ValidatorFn := Operation -> nat -> val -> option string -> M unit.

Record XConfig := mkXConfig {
  arr : Handler;
  obj : Handler;
  validator_fn : ValidatorFn
}.

(** [xOpRegistry], a [Map] from identifiers to configurations. *)
Abbreviation Registry := (gmap string XConfig) (only parsing).

(** [useExtendedOperation], at a configuration whose three members are
    functions. *)
Definition useExtendedOperation (reg : Registry) (xid : string) (config : XConfig)
  : res Registry :=
  if negb (isValidExtendedOpId xid) then Throw (JsonPatchError OPERATION_X_ID_INVALID)
  else Ok (<[xid := config]> reg).

Definition hasExtendedOperation (reg : Registry) (xid : string) : res bool :=
  if negb (isValidExtendedOpId xid) then Throw (JsonPatchError OPERATION_X_ID_INVALID)
  else Ok (bool_decide (is_Some (reg !! xid))).

Definition unregisterAllExtendedOperations (reg : Registry) : Registry := ∅.

(** [xOpRegistry.get(operation.xid)]. *)
Definition registry_get (reg : Registry) (xid : option string) : option XConfig :=
  match xid with
  | Some x => reg !! x
  | None => None
  end.

(** The [validateOperation] argument: [false], [true], or a function. *)
Inductive Validation :=
| NoValidation
| DefaultValidation
| CustomValidation (f : ValidatorFn).

Definition validating (v : Validation) : bool :=
  match v with NoValidation => false | _ => true end.

(** ** helpers.ts: [_graftTree] *)

Inductive ModType := graft | prune.

Record PathComponents := mkPC {
  modType : ModType;
  comps : list key
}.

Definition is_graft (m : ModType) : bool :=
  match m with graft => true | prune => false end.

(** The [for] loop of [_graftTree] from component [i] on, with the write
    that follows it.  [cs] are the components from [i] on; [i] is
    [comps.length - 2] exactly when one component is left after this
    one. *)
Fixpoint graft_walk (m : ModType) (cs : list key) (graftTgt graft_ : val) : M unit :=
  match cs with
  | [] => ret tt
  | graftKey :: rest =>
      let* g := read (fun h => get_prop h graft_ graftKey) in
      let* at_graft_point :=
        (if is_graft m
         then let* tv := read (fun h => get_prop h graftTgt graftKey) in
              ret (strict_eq tv VUndef)
         else ret false) in
      if (at_graft_point : bool) then
        if strict_eq g VUndef then ret tt
        else write (fun h => set_prop h graftTgt graftKey g)
      else if (length rest =? 1)%nat then
        write (fun h => set_prop h graftTgt graftKey g)
      else
        let* tv := read (fun h => get_prop h graftTgt graftKey) in
        match rest with
        | [] => write (fun h => set_prop h tv graftKey g)
        | _ => graft_walk m rest tv g
        end
  end.

Definition _graftTree (sourceObj targetObj : val) (pathComponents : PathComponents)
  : M unit :=
  match comps pathComponents with
  | [] => ret tt
  | [graftKey] =>
      match modType pathComponents with
      | graft =>
          let* g := read (fun h => get_prop h sourceObj graftKey) in
          write (fun h => set_prop h targetObj graftKey g)
      | prune =>
          let* h := get_heap in
          if is_array h targetObj then
            let* _r := (fun h => match splice_at h targetObj (int32_of_key graftKey) 1 [] with
                                 | Ok (r, h') => (Ok r, h')
                                 | Throw e => (Throw e, h)
                                 | Stuck => (Stuck, h)
                                 end) in
            ret tt
          else write (fun h => delete_prop h targetObj graftKey)
      end
  | cs => graft_walk (modType pathComponents) cs targetObj sourceObj
  end.

(** ** core.mjs: the two tables of operators *)

Section Operators.

(** The calls [applyOperation(document, operation)] that [move] and [copy]
    make, with every other argument at its default. *)
Variable applyOperation_default : val -> Operation -> M Result.

(** [getValueByPointer]; [pointer == ''] is false for an absent pointer. *)
Definition getValueByPointer_with (document : val) (pointer : option string) : M val :=
  match pointer with
  | Some "" => ret document
  | _ =>
      let* r := applyOperation_default document
                  (mkOp Op_get pointer None VUndef None VUndef false) in
      ret (got r)
  end.

Definition objOps_add (this : Operation) (o : val) (k : key) (document : val) : M Result :=
  run write (fun h => set_prop h o k (value this)) then
  ret (result_doc document).

Definition objOps_remove (this : Operation) (o : val) (k : key) (document : val) : M Result :=
  let* old := read (fun h => get_prop h o k) in
  run write (fun h => delete_prop h o k) then
  ret (mkResult document old None None VUndef).

Definition objOps_replace (this : Operation) (o : val) (k : key) (document : val) : M Result :=
  let* old := read (fun h => get_prop h o k) in
  run write (fun h => set_prop h o k (value this)) then
  ret (mkResult document old None None VUndef).

Definition objOps_move (this : Operation) (o : val) (k : key) (document : val) : M Result :=
  let* overwritten := getValueByPointer_with document (path this) in
  let* overwritten :=
    (if negb (falsy overwritten) then _deepClone overwritten else ret overwritten) in
  let* r := applyOperation_default document
              (mkOp Op_remove (from this) None VUndef None VUndef false) in
  let originalValue := removed r in
  run applyOperation_default document
        (mkOp Op_add (path this) None originalValue None VUndef false) then
  ret (mkResult document overwritten None None VUndef).

Definition objOps_copy (this : Operation) (o : val) (k : key) (document : val) : M Result :=
  let* valueToCopy := getValueByPointer_with document (from this) in
  let* c := _deepClone valueToCopy in
  run applyOperation_default document
        (mkOp Op_add (path this) None c None VUndef false) then
  ret (result_doc document).

Definition objOps_test (this : Operation) (o : val) (k : key) (document : val) : M Result :=
  let* v := read (fun h => get_prop h o k) in
  let* t := read (fun h => _areEquals h v (value this)) in
  ret (mkResult document VUndef (Some t) None VUndef).

Definition objOps__get (this : Operation) (o : val) (k : key) (document : val) : M Result :=
  let* v := read (fun h => get_prop h o k) in
  ret (mkResult document VUndef None None v).

(** What a table inherits from [Object.prototype] under a name that is not
    one of its operators: a function whose result is no result object (or
    the prototype itself, under [__proto__]).  What the dispatcher makes
    of the call is not embedded. *)
Definition inherited_operator : Operation -> val -> key -> val -> M Result :=
  fun _ _ _ _ => stuck.

Definition other_operator (name : string)
  : option (Operation -> val -> key -> val -> M Result) :=
  if inherited_name name then Some inherited_operator else None.

(** [objOps[operation.op]]: [None] for a name the table does not have. *)
Definition objOps (o : opname) : option (Operation -> val -> key -> val -> M Result) :=
  match o with
  | Op_add => Some objOps_add
  | Op_remove => Some objOps_remove
  | Op_replace => Some objOps_replace
  | Op_move => Some objOps_move
  | Op_copy => Some objOps_copy
  | Op_test => Some objOps_test
  | Op_get => Some objOps__get
  | Op_x => None
  | Op_other name => other_operator name
  end.

Definition arrOps_add (this : Operation) (a : val) (i : key) (document : val) : M Result :=
  run (if isInteger (key_name i) then
         let* _r := (fun h => match splice_at h a (int32_of_key i) 0 [value this] with
                              | Ok (r, h') => (Ok r, h')
                              | Throw e => (Throw e, h)
                              | Stuck => (Stuck, h)
                              end) in
         ret tt
       else write (fun h => set_prop h a i (value this))) then
  ret (mkResult document VUndef None (Some i) VUndef).

Definition arrOps_remove (this : Operation) (a : val) (i : key) (document : val) : M Result :=
  let* removedList := (fun h => match splice_at h a (int32_of_key i) 1 [] with
                                | Ok (r, h') => (Ok r, h')
                                | Throw e => (Throw e, h)
                                | Stuck => (Stuck, h)
                                end) in
  ret (mkResult document (default VUndef (removedList !! 0%nat)) None None VUndef).

Definition arrOps_replace (this : Operation) (a : val) (i : key) (document : val) : M Result :=
  let* old := read (fun h => get_prop h a i) in
  run write (fun h => set_prop h a i (value this)) then
  ret (mkResult document old None None VUndef).

Definition arrOps (o : opname) : option (Operation -> val -> key -> val -> M Result) :=
  match o with
  | Op_add => Some arrOps_add
  | Op_remove => Some arrOps_remove
  | Op_replace => Some arrOps_replace
  | Op_move => Some objOps_move
  | Op_copy => Some objOps_copy
  | Op_test => Some objOps_test
  | Op_get => Some objOps__get
  | Op_x => None
  | Op_other name => other_operator name
  end.

End Operators.

(** [objOps[operation.op]] as a truth value. *)
Definition in_objOps (o : opname) : bool :=
  match o with
  | Op_x => false
  | Op_other name => inherited_name name
  | _ => true
  end.

(** ** core.mjs: [validator] *)

Section Validator.

Variable reg : Registry.

(** [validate([{op: "_get", path: from}], document)] as [validator] calls
    it: the name of the error it returns, if it returns one. *)
Variable validate_get : option string -> val -> M (option JsonPatchErrorName).

Definition path_starts_badly (p : string) : bool :=
  negb (Str.starts_with "/" p) && (0 <? String.length p)%nat.

Definition needs_value (o : opname) : bool :=
  match o with Op_add | Op_replace | Op_test => true | _ => false end.

Definition split_length (p : string) : nat := length (Str.split "/" p).

Definition validator (operation : Operation) (index : nat) (document : val)
    (existingPathFragment : option string) : M unit :=
  match op operation with
  | Op_x =>
      if negb (match xid operation with Some x => isValidExtendedOpId x | None => false end)
      then throw (JsonPatchError OPERATION_X_ID_INVALID)
      else match registry_get reg (xid operation) with
      | None => throw (JsonPatchError OPERATION_X_OP_INVALID)
      | Some xConfig =>
          match path operation with
          | None => throw (JsonPatchError OPERATION_PATH_INVALID)
          | Some p =>
              if path_starts_badly p then throw (JsonPatchError OPERATION_PATH_INVALID)
              else if String.eqb p "/" then throw (JsonPatchError OPERATION_PATH_UNRESOLVABLE)
              else
                let* h := get_heap in
                if negb (strict_eq (args operation) VUndef) && negb (is_array h (args operation))
                then throw (JsonPatchError OPERATION_X_ARGS_NOT_ARRAY)
                else validator_fn xConfig operation index document existingPathFragment
          end
      end
  | o =>
      match in_objOps o, path operation with
      | false, _ => throw (JsonPatchError OPERATION_OP_INVALID)
      | true, None => throw (JsonPatchError OPERATION_PATH_INVALID)
      | true, Some p =>
          if path_starts_badly p then throw (JsonPatchError OPERATION_PATH_INVALID)
          else if (opname_eqb o Op_move || opname_eqb o Op_copy)
                  && negb (bool_decide (is_Some (from operation)))
          then throw (JsonPatchError OPERATION_FROM_REQUIRED)
          else if needs_value o && strict_eq (value operation) VUndef
          then throw (JsonPatchError OPERATION_VALUE_REQUIRED)
          else
            let* undef := (if needs_value o
                           then read (fun h => hasUndefined h (value operation))
                           else ret false) in
            if (undef : bool)
            then throw (JsonPatchError OPERATION_VALUE_CANNOT_CONTAIN_UNDEFINED)
            else if negb (falsy document) then
              match o with
              | Op_add =>
                  match existingPathFragment with
                  | None => throw (TypeError "Cannot read properties of undefined (reading 'split')")
                  | Some e =>
                      let pathLen := split_length p in
                      let existingPathLen := split_length e in
                      if negb (pathLen =? existingPathLen + 1)%nat
                         && negb (pathLen =? existingPathLen)%nat
                      then throw (JsonPatchError OPERATION_PATH_CANNOT_ADD)
                      else ret tt
                  end
              | Op_replace | Op_remove | Op_get =>
                  if negb (bool_decide (Some p = existingPathFragment))
                  then throw (JsonPatchError OPERATION_PATH_UNRESOLVABLE)
                  else ret tt
              | Op_move | Op_copy =>
                  let* error := validate_get (from operation) document in
                  match error with
                  | Some OPERATION_PATH_UNRESOLVABLE =>
                      throw (JsonPatchError OPERATION_FROM_UNRESOLVABLE)
                  | _ => ret tt
                  end
              | _ => ret tt
              end
            else ret tt
      end
  end.

End Validator.

(** ** core.mjs: [applyOperation] *)

Section Dispatch.

Variable reg : Registry.
Variable applyOperation_default : val -> Operation -> M Result.
Variable validate_get : option string -> val -> M (option JsonPatchErrorName).

(** [validateFunction]. *)
Definition validateFunction (validateOperation : Validation) : ValidatorFn :=
  match validateOperation with
  | CustomValidation f => f
  | _ => validator reg validate_get
  end.

(** [keys[t]]: [undefined] past the end; it is unescaped when it is a
    non-empty string that has a tilde. *)
Definition key_at (keys : list string) (t : nat) : key :=
  match keys !! t with
  | None => KUndef
  | Some s => if negb (String.eqb s "") && Str.has_char "~" s
              then KStr (unescapePathComponent s) else KStr s
  end.

Definition key_is (k : key) (s : string) : bool :=
  match k with KStr s' => String.eqb s' s | _ => false end.

(** The guard against prototype pollution, on component [t]. *)
Definition banned (keys : list string) (t : nat) (k : key) : bool :=
  key_is k "__proto__"
  || (key_is k "prototype" && (0 <? t)%nat
      && bool_decide (keys !! (t - 1)%nat = Some "constructor")).

(** [keys.slice(0, t).join('/')] and [keys.slice(1, t)]. *)
Definition keys_prefix (keys : list string) (t : nat) : string :=
  Str.join "/" (take t keys).
Definition keys_slice1 (keys : list string) (t : nat) : list string :=
  take (t - 1) (drop 1 keys).

(** [obj.length] of an array. *)
Definition array_length (h : heap) (o : val) : Z :=
  match o with
  | VRef l => match h !! l with Some (CArr es _) => Z.of_nat (length es) | _ => 0 end
  | _ => 0
  end.

(** The part of both extended branches after the handler has returned a
    result: graft or prune it into [document] when mutating. *)
Definition graft_back (mutateDocument : bool) (document : val) (result : Result)
    (keys : list string) (t : nat) (graftPath : option string) : M Result :=
  if mutateDocument then
    let pc :=
      if negb (strict_eq (removed result) VUndef)
      then mkPC prune (map KStr (keys_slice1 keys t))
      else mkPC graft
             (map KStr (match graftPath with
                        | None => keys_slice1 keys t
                        | Some g => drop 1 (Str.split "/" g)
                        end)) in
    run _graftTree (newDocument result) document pc then
    ret (result_doc document)
  else ret result.

Definition or_else {A} (o : option A) (a : A) : option A :=
  match o with Some _ => o | None => Some a end.

Section Walk.

Variable operation : Operation.
Variable validateOperation : Validation.
Variable mutateDocument banPrototypeModifications : bool.
(** [document] after the clone of [mutate = false]; [workingDocument];
    [xConfig]; [keys.length]. *)
Variable document workingDocument : val.
Variable xConfig : option XConfig.
Variable len : nat.

Definition is_x : bool := opname_eqb (op operation) Op_x.

Definition illegal_index : exn := JsonPatchError OPERATION_PATH_ILLEGAL_ARRAY_INDEX.
Definition out_of_bounds : exn := JsonPatchError OPERATION_VALUE_OUT_OF_BOUNDS.

(** The conversion of [key] in an array, with the updates of [keys] and
    [graftPath] that go with the two sentinels.  [t] is already
    incremented. *)
Definition array_key (h : heap) (o : val) (keys : list string) (t : nat) (k : key)
    (graftPath : option string) : res (key * list string * option string) :=
  if is_x && negb (resolve operation) && key_is k ""
  then Throw illegal_index
  else if key_is k "-" then
    let k' := array_length h o in
    if is_x then
      let keys' := <[(t - 1)%nat := pretty k']> keys in
      Ok (KNum k', keys', or_else graftPath (keys_prefix keys' t))
    else Ok (KNum k', keys, graftPath)
  else if is_x && key_is k "--" then
    let k' := array_length h o - 1 in
    let keys' := <[(t - 1)%nat := pretty k']> keys in
    Ok (KNum k', keys', or_else graftPath (keys_prefix keys' t))
  else
    match k with
    | KUndef => Throw (TypeError "Cannot read properties of undefined (reading 'length')")
    | KNum _ => Stuck (* [keys[t]] is a string or absent *)
    | KStr s =>
        if validating validateOperation && negb (isInteger s) then Throw illegal_index
        else if isInteger s then
          let n := int32_of_digits (Str.codes s) in
          if is_x && negb (resolve operation) && (array_length h o <=? n)
          then Throw out_of_bounds
          else Ok (KNum n, keys, graftPath)
        else Ok (k, keys, graftPath)
    end.

(** [key.length === 0] in the extended branch for objects. *)
Definition key_length_is_zero (k : key) : res bool :=
  match k with
  | KStr s => Ok (String.eqb s "")
  | KNum _ => Ok false
  | KUndef => Throw (TypeError "Cannot read properties of undefined (reading 'length')")
  end.

(** [key > obj.length]. *)
Definition key_gt_length (h : heap) (o : val) (k : key) : bool :=
  match k with KNum n => array_length h o <? n | _ => false end.

Definition test_failed (r : Result) : M Result :=
  match test r with
  | Some false => throw (JsonPatchError TEST_OPERATION_FAILED)
  | _ => ret r
  end.

Definition call_operator (table : opname -> option (Operation -> val -> key -> val -> M Result))
    (o : val) (k : key) : M Result :=
  match table (op operation) with
  | None => throw (TypeError "Cannot read properties of undefined (reading 'call')")
  | Some f => let* returnValue := f operation o k document in test_failed returnValue
  end.

(** The block under [if (validateOperation)] at the head of the loop. *)
Definition existing_path_check (keys : list string) (t : nat) (o : val) (k : key)
    (existingPathFragment : option string) : M (option string) :=
  if validating validateOperation then
    match existingPathFragment with
    | Some _ => ret existingPathFragment
    | None =>
        let* v := read (fun h => get_prop h o k) in
        let e := if strict_eq v VUndef then Some (keys_prefix keys t)
                 else if (t =? len - 1)%nat then path operation
                 else None in
        match e with
        | Some frag =>
            run validateFunction validateOperation operation 0%nat document (Some frag) then ret e
        | None => ret e
        end
    end
  else ret existingPathFragment.

(** The extended branch at the last component, for an array and for an
    object. *)
Definition extended_arr (xc : XConfig) (o : val) (k : key) (keys : list string)
    (t : nat) (graftPath : option string) : M Result :=
  if key_is k "" && negb (resolve operation)
  then ret (result_doc (value operation))
  else
    let* result := arr xc operation o k workingDocument in
    match result with
    | None => ret (result_doc document)
    | Some result =>
        if negb (strict_eq (removed result) VUndef) && resolve operation
        then throw (JsonPatchError OPERATION_X_AMBIGUOUS_REMOVAL)
        else graft_back mutateDocument document result keys t graftPath
    end.

Definition extended_obj (xc : XConfig) (o : val) (k : key) (keys : list string)
    (t : nat) (graftPath : option string) : M Result :=
  let* empty := read (fun _ => key_length_is_zero k) in
  if (empty : bool) && negb (resolve operation)
  then ret (result_doc (value operation))
  else
    let* result := obj xc operation o k workingDocument in
    match result with
    | None => ret (result_doc document)
    | Some result => graft_back mutateDocument document result keys t graftPath
    end.

(** [new Array(n)]. *)
Definition new_Array (n : Z) : M val :=
  if (0 <=? n) && (n <? 2 ^ 32)
  then new_cell (CArr (replicate (Z.to_nat n) VUndef) [])
  else throw (RangeError "Invalid array length").

(** The block under "extended operation forced path resolution". *)
Definition forced_resolution (o : val) (k : key) (keys : list string) (t : nat)
    (graftPath : option string) : M (option string) :=
  match xConfig with
  | Some _ =>
      if is_x then
        let* v := read (fun h => get_prop h o k) in
        if strict_eq v VUndef then
          let graftPath' := or_else graftPath (keys_prefix keys t) in
          if resolve operation then
            let* h := get_heap in
            let next := default "undefined" (keys !! t) in
            let* fresh :=
              (if is_array h document && isInteger next
               then new_Array (int32_of_digits (Str.codes next) + 1)
               else new_cell (CObj [])) in
            run write (fun h => set_prop h o k fresh) then ret graftPath'
          else ret graftPath'
        else ret graftPath
      else ret graftPath
  | None => ret graftPath
  end.

(** [!obj || typeof obj !== "object"]. *)
Definition not_an_object (v : val) : bool := falsy v || negb (typeof_object v).

(** The [while (true)] loop.  [n] bounds the number of turns; the loop
    leaves at the turn where [t >= len], and [len] turns are enough. *)
Fixpoint walk (n : nat) (keys : list string) (t : nat) (o : val)
    (existingPathFragment graftPath : option string) : M Result :=
  match n with
  | O => stuck
  | S n' =>
      let k := key_at keys t in
      if banPrototypeModifications && banned keys t k
      then throw (TypeError PROTO_ERROR_MSG)
      else
        let* existingPathFragment := existing_path_check keys t o k existingPathFragment in
        let t := S t in
        let next k keys graftPath :=
          (let* graftPath := forced_resolution o k keys t graftPath in
           let* o' := read (fun h => get_prop h o k) in
           if validating validateOperation && (t <? len)%nat && not_an_object o'
           then throw (JsonPatchError OPERATION_PATH_UNRESOLVABLE)
           else walk n' keys t o' existingPathFragment graftPath) in
        let* h := get_heap in
        if is_array h o then
          let* kkg := read (fun h => array_key h o keys t k graftPath) in
          let '(k, keys, graftPath) := kkg in
          if (len <=? t)%nat then
            match (if is_x then xConfig else None) with
            | Some xc => extended_arr xc o k keys t graftPath
            | None =>
                if validating validateOperation && opname_eqb (op operation) Op_add
                   && key_gt_length h o k
                then throw out_of_bounds
                else call_operator (arrOps applyOperation_default) o k
            end
          else next k keys graftPath
        else
          if (len <=? t)%nat then
            match (if is_x then xConfig else None) with
            | Some xc => extended_obj xc o k keys t graftPath
            | None => call_operator (objOps applyOperation_default) o k
            end
          else next k keys graftPath
  end.

End Walk.

(** The root operations, [operation.path === ""]. *)
Definition apply_root (document : val) (operation : Operation)
    (validateOperation : Validation) (mutateDocument : bool) : M Result :=
  match op operation with
  | Op_add => ret (result_doc (value operation))
  | Op_replace => ret (mkResult (value operation) document None None VUndef)
  | Op_move =>
      let* v := getValueByPointer_with applyOperation_default document (from operation) in
      ret (mkResult v document None None VUndef)
  | Op_copy =>
      let* v := getValueByPointer_with applyOperation_default document (from operation) in
      ret (result_doc v)
  | Op_test =>
      let* t := read (fun h => _areEquals h document (value operation)) in
      if negb t then throw (JsonPatchError TEST_OPERATION_FAILED)
      else ret (mkResult document VUndef (Some t) None VUndef)
  | Op_remove => ret (mkResult VNull document None None VUndef)
  | Op_get => ret (mkResult document VUndef None None document)
  | Op_x =>
      match registry_get reg (xid operation) with
      | None => throw (JsonPatchError OPERATION_X_OP_INVALID)
      | Some xConfig =>
          let* workingDocument :=
            (if negb mutateDocument then _deepClone document else ret document) in
          if resolve operation then
            let* result := obj xConfig operation workingDocument (KStr "") workingDocument in
            match result with
            | None => ret (result_doc document)
            | Some result => ret result
            end
          else ret (result_doc (value operation))
      end
  | Op_other _ =>
      if validating validateOperation then throw (JsonPatchError OPERATION_OP_INVALID)
      else ret (result_doc document)
  end.

(** The validation at the head of [applyOperation]. *)
Definition validate_first (document : val) (operation : Operation)
    (validateOperation : Validation) : M unit :=
  match validateOperation with
  | NoValidation => ret tt
  | CustomValidation f => f operation 0%nat document (path operation)
  | DefaultValidation => validator reg validate_get operation 0%nat VUndef None
  end.

Definition applyOperation_with (document : val) (operation : Operation)
    (validateOperation : Validation) (mutateDocument banPrototypeModifications : bool)
    (index : nat) : M Result :=
  run validate_first document operation validateOperation then
  if bool_decide (path operation = Some "") then
    apply_root document operation validateOperation mutateDocument
  else
    let* document := (if negb mutateDocument then _deepClone document else ret document) in
    let keys := Str.split "/" (default "" (path operation)) in
    let len := length keys in
    if is_x operation then
      match registry_get reg (xid operation) with
      | None => throw (JsonPatchError OPERATION_X_OP_INVALID)
      | Some xConfig =>
          let* workingDocument := _deepClone document in
          walk operation validateOperation mutateDocument banPrototypeModifications
               document workingDocument (Some xConfig) len
               len keys 1 workingDocument None None
      end
    else
      walk operation validateOperation mutateDocument banPrototypeModifications
           document document None len
           len keys 1 document None None.

End Dispatch.

(** ** core.mjs: [applyPatch] and [validate] *)

Definition ApplyFn :=
  val -> Operation -> Validation -> bool -> bool -> nat -> M Result.

Section Sequences.

Variable apply : ApplyFn.

Fixpoint applyPatch_loop (document : val) (patch : list Operation)
    (validateOperation : Validation) (banPrototypeModifications : bool) (i : nat)
  : M (list Result * val) :=
  match patch with
  | [] => ret ([], document)
  | o :: rest =>
      let* r := apply document o validateOperation true banPrototypeModifications i in
      let* rs := applyPatch_loop (newDocument r) rest validateOperation
                   banPrototypeModifications (S i) in
      ret (r :: fst rs, snd rs)
  end.

(** The results and [results.newDocument]. *)
Definition applyPatch_with (document : val) (patch : list Operation)
    (validateOperation : Validation) (mutateDocument banPrototypeModifications : bool)
  : M (list Result * val) :=
  let* document := (if negb mutateDocument then _deepClone document else ret document) in
  applyPatch_loop document patch validateOperation banPrototypeModifications 0.

(** [_deepClone] of an operation object: its [value] and [args] go through
    the JSON text, a member that is [undefined] staying absent. *)
Definition clone_member (v : val) : M val :=
  match v with
  | VUndef => ret VUndef
  | _ => let* h := get_heap in json_roundtrip (length h) v
  end.

Definition clone_operation (o : Operation) : M Operation :=
  let* v := clone_member (value o) in
  let* a := clone_member (args o) in
  ret (mkOp (op o) (path o) (from o) v (xid o) a (resolve o)).

(** The [catch] of [validate]. *)
Definition catch_JsonPatchError {A} (m : M A) : M (option JsonPatchErrorName) :=
  fun h =>
    match m h with
    | (Ok _, h') => (Ok None, h')
    | (Throw (JsonPatchError name), h') => (Ok (Some name), h')
    | (Throw e, h') => (Throw e, h')
    | (Stuck, h') => (Stuck, h')
    end.

Fixpoint validate_each (f : ValidatorFn) (sequence : list Operation) (i : nat)
    (document : val) : M unit :=
  match sequence with
  | [] => ret tt
  | o :: rest => run f o i document None then validate_each f rest (S i) document
  end.

(** The body of the [try]. *)
Definition validate_body (default_validator : ValidatorFn)
    (sequence : list Operation) (document : val)
    (externalValidator : option ValidatorFn) : M unit :=
  if negb (falsy document) then
    let* d := _deepClone document in
    let* s := mapM clone_operation sequence in
    run applyPatch_with d s
          (match externalValidator with
           | Some f => CustomValidation f
           | None => DefaultValidation
           end) true true
    then ret tt
  else
    validate_each (default default_validator externalValidator) sequence 0 document.

Definition validate_with (default_validator : ValidatorFn)
    (sequence : list Operation) (document : val)
    (externalValidator : option ValidatorFn) : M (option JsonPatchErrorName) :=
  catch_JsonPatchError
    (validate_body default_validator sequence document externalValidator).

End Sequences.

(** ** Tying the calls together

    [move] and [copy] call [applyOperation] only with [_get], [remove]
    and [add] and without validation, and [validator] calls [validate]
    only on a single [_get]; none of these calls back.  The inner
    dispatcher is therefore the body with no callee, and the exported one
    is the body over the inner one. *)

Section Exported.

Variable reg : Registry.

Definition applyOperation_inner : ApplyFn :=
  applyOperation_with reg (fun _ _ => stuck) (fun _ _ => stuck).

Definition inner_default (document : val) (operation : Operation) : M Result :=
  applyOperation_inner document operation NoValidation true true 0%nat.

Definition inner_validate_get (pointer : option string) (document : val)
  : M (option JsonPatchErrorName) :=
  validate_with applyOperation_inner (validator reg (fun _ _ => stuck))
    [mkOp Op_get pointer None VUndef None VUndef false] document None.

Definition applyOperation : ApplyFn :=
  applyOperation_with reg inner_default inner_validate_get.

Definition getValueByPointer (document : val) (pointer : option string) : M val :=
  getValueByPointer_with inner_default document pointer.

Definition validator_default : ValidatorFn := validator reg inner_validate_get.

Definition applyPatch := applyPatch_with applyOperation.

Definition validate := validate_with applyOperation validator_default.

(** [applyReducer]. *)
Definition applyReducer (document : val) (operation : Operation) (index : nat) : M val :=
  let* operationResult := applyOperation document operation NoValidation true true 0%nat in
  match test operationResult with
  | Some false => throw (JsonPatchError TEST_OPERATION_FAILED)
  | _ => ret (newDocument operationResult)
  end.

End Exported.

(** ** helpers.ts: [escapePathComponent] and [getPath] *)

(** [s.replace(/c/g, r)] for a one-character pattern. *)
Fixpoint replace_char (c : ascii) (r : list ascii) (l : list ascii) : list ascii :=
  match l with
  | [] => []
  | x :: rest => (if Ascii.eqb x c then r else [x]) ++ replace_char c r rest
  end.

Definition escapePathComponent (path : string) : string :=
  if negb (Str.has_char "/" path) && negb (Str.has_char "~" path) then path
  else Str.of_chars
         (replace_char "/" ["~"; "1"]%char
            (replace_char "~" ["~"; "0"]%char (Str.chars path))).

(** The order in which the names of an object are enumerated: those that
    are array indices first, in ascending order, then the others in the
    order in which they were created. *)
Definition is_index_name (s : string) : bool :=
  match index_value s with Some _ => true | None => false end.

Fixpoint insert_index (k : string) (l : list string) : list string :=
  match l with
  | [] => [k]
  | k' :: r =>
      if default 0 (index_value k) <=? default 0 (index_value k')
      then k :: l else k' :: insert_index k r
  end.

Definition enumeration_order (names : list string) : list string :=
  foldr insert_index [] (List.filter is_index_name names)
  ++ List.filter (fun s => negb (is_index_name s)) names.

(** The keys [for (key in root)] visits and [hasOwnProperty] lets through:
    the indices and then the named properties of a list, the names of a
    map, the indices of a string; none for the other primitives. *)
Definition own_keys (h : list cell) (root : val) : res (list string) :=
  match root with
  | VRef l =>
      match h !! l with
      | None => Stuck
      | Some (CObj ps) => Ok (enumeration_order (map fst ps))
      | Some (CArr es ps) =>
          Ok (map (fun i => pretty (Z.of_nat i)) (seq 0 (length es)) ++ map fst ps)
      end
  | VStr s => Ok (map (fun i => pretty (Z.of_nat i)) (seq 0 (String.length s)))
  | _ => Ok []
  end.

(** The loop of [_getPathRecursive] over the keys that are left, [rec]
    being the recursive call. *)
Fixpoint search_keys (rec : val -> res string) (h : list cell) (obj root : val)
    (ks : list string) : res string :=
  match ks with
  | [] => Ok ""
  | k :: rest =>
      match get_prop h root (KStr k) with
      | Ok v =>
          if strict_eq v obj then Ok (String.append (escapePathComponent k) "/")
          else if typeof_object v then
            match rec v with
            | Ok found =>
                if negb (String.eqb found "")
                then Ok (String.append (escapePathComponent k) (String.append "/" found))
                else search_keys rec h obj root rest
            | Throw e => Throw e
            | Stuck => Stuck
            end
          else search_keys rec h obj root rest
      | Throw e => Throw e
      | Stuck => Stuck
      end
  end.

(** [_getPathRecursive].  The bound is on the depth of the recursion; the
    depth exceeds the number of cells only on a cyclic structure, on which
    the recursion of the source does not end. *)
Fixpoint _getPathRecursive (n : nat) (h : list cell) (obj root : val) : res string :=
  match n with
  | O => Throw (RangeError "Maximum call stack size exceeded")
  | S n' =>
      match own_keys h root with
      | Ok ks => search_keys (_getPathRecursive n' h obj) h obj root ks
      | Throw e => Throw e
      | Stuck => Stuck
      end
  end.

(** What [getPath] comes to: the path, or
    [throw new Error("Object not found in root")]. *)
Inductive path_outcome :=
| PathFound (p : string)
| ObjectNotFound.

(** [getPath], at the type [Object] of [obj]: [obj] is not [undefined], so
    that a hole of a list, which [for in] passes over, matches no more than
    an element that is [undefined] does. *)
Definition getPath (h : list cell) (root obj : val) : res path_outcome :=
  if strict_eq root obj then Ok (PathFound "/")
  else
    match obj with
    | VUndef => Stuck
    | _ =>
        match _getPathRecursive (S (length h)) h obj root with
        | Ok p =>
            if String.eqb p "" then Ok ObjectNotFound
            else Ok (PathFound (String.append "/" p))
        | Throw e => Throw e
        | Stuck => Stuck
        end
    end.

(** * The vocabulary of the properties *)

(** The predicates the statements below are written in, and the handlers,
    registries and operations they are instantiated at. *)

(** A well-formed identifier, in the words of the specification: at least
    three characters, the first two being [x-]. *)
Definition well_formed_xid (xid : string) : Prop :=
  (3 <= String.length xid)%nat /\ exists rest, xid = String "x" (String "-" rest).

Definition is_digit (c : nat) : Prop := (48 <= c <= 57)%nat.

(** A string of decimal digits only. *)
Definition all_digits (s : string) : Prop := Forall is_digit (Str.codes s).

Definition is_JsonPatchError (e : exn) : bool :=
  match e with JsonPatchError _ => true | _ => false end.

(** A handler that deletes [obj[key]] and reports what was there. *)
Definition removing_handler : Handler :=
  fun this o k workingDocument =>
    let* old := read (fun h => get_prop h o k) in
    run write (fun h => delete_prop h o k) then
    ret (Some (mkResult workingDocument old None None VUndef)).

(** A handler that writes [this.value] at [obj[key]] and then declines. *)
Definition scribbling_handler : Handler :=
  fun this o k workingDocument =>
    run write (fun h => set_prop h o k (value this)) then ret None.

(** A handler that answers with a constant document. *)
Definition constant_handler (v : val) : Handler :=
  fun this o k workingDocument => ret (Some (result_doc v)).

Definition accepting_validator : ValidatorFn := fun _ _ _ _ => ret tt.

Definition x_op (id p : string) (v : val) (r : bool) : Operation :=
  mkOp Op_x (Some p) None v (Some id) VUndef r.

Definition sample_registry : Registry :=
  <["x-rm" := mkXConfig removing_handler removing_handler accepting_validator]>
  (<["x-scribble" := mkXConfig scribbling_handler scribbling_handler accepting_validator]>
  (<["x-one" := mkXConfig (constant_handler (VNum 1)) (constant_handler (VNum 1))
                  accepting_validator]> ∅)).

(** [frame b h h']: the store has only grown, and every cell below [b] is
    as it was. *)
Definition frame (b : nat) (h h' : heap) : Prop :=
  (length h <= length h')%nat /\ forall l, (l < b)%nat -> h' !! l = h !! l.

(** A value that is not a reference into the cells below [b]. *)
Definition val_above (b : nat) (v : val) : Prop :=
  match v with VRef l => (b <= l)%nat | _ => True end.

Definition cell_vals (c : cell) : list val :=
  match c with
  | CArr es ps => es ++ map snd ps
  | CObj ps => map snd ps
  end.

(** The cells from [b] on refer to cells from [b] on only. *)
Definition above (b : nat) (h : heap) : Prop :=
  forall l c, (b <= l)%nat -> h !! l = Some c -> Forall (val_above b) (cell_vals c).

(** Lists of values that stay above [b]. *)
Definition vals_above (b : nat) (l : list val) : Prop := forall x, In x l -> val_above b x.

(** ** A triple for the monad

    [safe_if C b m Q]: run from a store whose cells from [b] on are closed
    under reference, [m] leaves every cell below [b] as it was; and when [C]
    holds, the cells from [b] on are still closed afterwards and a returned
    value satisfies [Q]. *)
Definition safe_if (C : Prop) (b : nat) {A} (m : M A) (Q : A -> Prop) : Prop :=
  forall h, above b h -> (b <= length h)%nat ->
    frame b h (snd (m h))
    /\ (C -> above b (snd (m h)) /\ forall a, fst (m h) = Ok a -> Q a).

(** A validator function does not touch the store. *)
Definition pure_validator (f : ValidatorFn) : Prop :=
  forall o i d e h, snd (f o i d e h) = h.

(** A handler writes only into what it is handed: when [obj] and
    [workingDocument] lie in a part of the store that is closed under
    reference, every cell outside that part is left as it was. *)
Definition local_handler (f : Handler) : Prop :=
  forall b this o k wd h,
    above b h -> (b <= length h)%nat -> val_above b o -> val_above b wd ->
    frame b h (snd (f this o k wd h)).

(** A handler that always returns [undefined]. *)
Definition declines (f : Handler) : Prop :=
  forall this o k wd h r, fst (f this o k wd h) <> Ok (Some r).

Definition registry_pure_validators (reg : gmap string XConfig) : Prop :=
  forall id xc, reg !! id = Some xc -> pure_validator (validator_fn xc).

Definition registry_local (reg : gmap string XConfig) : Prop :=
  forall id xc, reg !! id = Some xc -> local_handler (arr xc) /\ local_handler (obj xc).

(** A handler that answers [undefined] whenever it is called with
    [operation] as [this]. *)
Definition declines_on (operation : Operation) (f : Handler) : Prop :=
  forall o k wd h r, fst (f operation o k wd h) <> Ok (Some r).

(** The handlers of the configuration that [operation.xid] names decline
    that operation. *)
Definition handler_declines (reg : gmap string XConfig) (operation : Operation) : Prop :=
  forall xc, registry_get reg (xid operation) = Some xc ->
    declines_on operation (arr xc) /\ declines_on operation (obj xc).

Definition validation_pure (v : Validation) : Prop :=
  match v with CustomValidation f => pure_validator f | _ => True end.

(** The members of a result that may carry references. *)
Definition result_above (b : nat) (r : Result) : Prop :=
  val_above b (newDocument r) /\ val_above b (removed r) /\ val_above b (got r).

(** The condition under which the store stays closed: a standard
    operation whose [value] is itself above [b]. *)
Definition stays_closed (b : nat) (operation : Operation) : Prop :=
  is_x operation = false /\ val_above b (value operation).

Definition quiet {A} (m : M A) : Prop := forall h, snd (m h) = h.

Definition reads_only (o : opname) : Prop := o = Op_get \/ o = Op_test.

Definition returns {A} (m : M A) (P : A -> Prop) : Prop :=
  forall h a h', m h = (Ok a, h') -> P a.

(** The two results there can be when the handler declines: the document,
    or [operation.value] when [resolve] is not set and the last of [keys]
    is empty, the handler not being consulted then. *)
Definition declined (operation : Operation) (keys : list string) (document : val)
    (r : Result) : Prop :=
  r = result_doc document
  \/ (resolve operation = false /\ last keys = Some "" /\ r = result_doc (value operation)).

Definition declining_registry : gmap string XConfig :=
  <["x-scribble" := mkXConfig scribbling_handler scribbling_handler accepting_validator]> ∅.

Definition is_TypeError (e : exn) : Prop := exists msg, e = TypeError msg.

Definition throws_only (P : exn -> Prop) {A} (m : M A) : Prop :=
  forall h e h', m h = (Throw e, h') -> P e.

(** A path has a banned component when the guard of the source answers
    [true] at one of the components the traversal visits (those after the
    first slash): the component is [__proto__], or it is [prototype] and the
    component before it is [constructor]. *)
Definition has_banned_component (p : string) : Prop :=
  exists t0, (1 <= t0)%nat
             /\ banned (Str.split "/" p) t0 (key_at (Str.split "/" p) t0) = true.

(** ** Deep equality, in the words of the specification

    Two values that both fail self-equality are equal; lists are equal when
    they have the same length and are equal position by position; maps are
    equal when they have the same keys and are equal key by key, whatever
    the order of the keys.  The left value lives in [h1], the right one in
    [h2]; [n] bounds the nesting. *)
Definition fails_self_equality (v : val) : Prop := strict_eq v v = false.

Fixpoint deep_equal_upto (n : nat) (h1 h2 : list cell) (a b : val) : Prop :=
  match a, b with
  | VRef la, VRef lb =>
      match n with
      | O => False
      | S n' =>
          match h1 !! la, h2 !! lb with
          | Some (CArr ea _), Some (CArr eb _) =>
              Forall2 (deep_equal_upto n' h1 h2) ea eb
          | Some (CObj pa), Some (CObj pb) =>
              (forall k, is_Some (plookup k pa) <-> is_Some (plookup k pb))
              /\ (forall k x y, plookup k pa = Some x -> plookup k pb = Some y ->
                                deep_equal_upto n' h1 h2 x y)
          | _, _ => False
          end
      end
  | VRef _, _ | _, VRef _ => False
  | _, _ => a = b \/ (fails_self_equality a /\ fails_self_equality b)
  end.

Definition deep_equal (h1 h2 : list cell) (a b : val) : Prop :=
  exists n, deep_equal_upto n h1 h2 a b.

Fixpoint json_value_upto (n : nat) (h : list cell) (v : val) : Prop :=
  match v with
  | VRef l =>
      match n with
      | O => False
      | S n' =>
          match h !! l with
          | Some (CArr es _) => Forall (json_value_upto n' h) es
          | Some (CObj ps) => Forall (json_value_upto n' h) (map snd ps)
          | None => False
          end
      end
  | VUndef | VNaN => False
  | _ => True
  end.

Definition json_value (h : list cell) (v : val) : Prop :=
  json_value_upto (length h) h v.

(** Data: every reference leads, within [n] steps, to cells of the store,
    and the keys of a map are distinct. *)
Fixpoint data_upto (n : nat) (h : list cell) (v : val) : Prop :=
  match v with
  | VRef l =>
      match n with
      | O => False
      | S n' =>
          match h !! l with
          | Some (CArr es _) => Forall (data_upto n' h) es
          | Some (CObj ps) => NoDup (map fst ps) /\ Forall (data_upto n' h) (map snd ps)
          | None => False
          end
      end
  | _ => True
  end.

(** No map within [v] has an own property of the name [hasOwnProperty]. *)
Fixpoint no_shadowing_upto (n : nat) (h : list cell) (v : val) : Prop :=
  match v with
  | VRef l =>
      match n with
      | O => True
      | S n' =>
          match h !! l with
          | Some (CArr es _) => Forall (no_shadowing_upto n' h) es
          | Some (CObj ps) =>
              plookup "hasOwnProperty" ps = None
              /\ Forall (no_shadowing_upto n' h) (map snd ps)
          | None => True
          end
      end
  | _ => True
  end.

(** [_areEquals] proper runs with the size of the store as its bound. *)
Definition data (h : list cell) (v : val) : Prop := data_upto (length h) h v.
Definition no_shadowing (h : list cell) (v : val) : Prop :=
  no_shadowing_upto (length h) h v.

(** The conversion of a component in a list, for a standard operation
    without validation. *)
Definition std_array_key (h : list cell) (o : val) (k : key) : res key :=
  if key_is k "-" then Ok (KNum (array_length h o))
  else match k with
       | KUndef => Throw (TypeError "Cannot read properties of undefined (reading 'length')")
       | KNum _ => Stuck
       | KStr s => if isInteger s then Ok (KNum (int32_of_digits (Str.codes s))) else Ok k
       end.

(** Two standard operations on the same path fail alike or reach their
    operators on the same container and key. *)
Definition in_step (f1 f2 : val -> Operation -> M Result) (op1 op2 : Operation)
    (d1 d2 : val) (h : list cell) (out1 out2 : res Result * list cell) : Prop :=
  (out1 = out2 /\ snd out1 = h /\ forall r, fst out1 <> Ok r)
  \/ exists o k,
       (out1 = call_operator op1 d1 (objOps f1) o k h
        /\ out2 = call_operator op2 d2 (objOps f2) o k h)
       \/ (out1 = call_operator op1 d1 (arrOps f1) o k h
           /\ out2 = call_operator op2 d2 (arrOps f2) o k h).

(** ** The vocabulary of the further properties *)

(** Both replacements at once. *)
Definition escape_char (x : ascii) : list ascii :=
  if Ascii.eqb x "~" then ["~"; "0"]%char
  else if Ascii.eqb x "/" then ["~"; "1"]%char else [x].

(** [keys[t]] for a component that is there. *)
Definition component_key (s : string) : key :=
  if negb (String.eqb s "") && Str.has_char "~" s
  then KStr (unescapePathComponent s) else KStr s.

(** The container and the key a standard operation without validation ends
    on: from [o], through the component [c] (the one before it being [prev])
    and then [rest]. *)
Fixpoint locate (ban : bool) (h : list cell) (prev c : string) (rest : list string)
    (o : val) : res (val * key) :=
  let k := component_key c in
  if ban && (key_is k "__proto__"
             || key_is k "prototype" && String.eqb prev "constructor")
  then Throw (TypeError PROTO_ERROR_MSG)
  else
    match (if is_array h o then std_array_key h o k else Ok k) with
    | Ok k' =>
        match rest with
        | [] => Ok (o, k')
        | c' :: rest' =>
            match get_prop h o k' with
            | Ok o' => locate ban h c c' rest' o'
            | Throw e => Throw e
            | Stuck => Stuck
            end
        end
    | Throw e => Throw e
    | Stuck => Stuck
    end.

(** The same from the pieces of [path.split('/')]: the traversal starts at
    the second piece, and a path with no slash leaves [key] undefined. *)
Definition locate_path (ban : bool) (h : list cell) (keys : list string) (d : val)
  : res (val * key) :=
  match keys with
  | [] => Stuck
  | [_] =>
      if is_array h d
      then Throw (TypeError "Cannot read properties of undefined (reading 'length')")
      else Ok (d, KUndef)
  | k0 :: c :: rest => locate ban h k0 c rest d
  end.

(** The call of the operator that ends the traversal. *)
Definition operate (f : val -> Operation -> M Result) (operation : Operation)
    (document : val) (r : res (val * key)) : M Result :=
  fun h =>
    match r with
    | Ok (o, k) =>
        call_operator operation document
          (if is_array h o then arrOps f else objOps f) o k h
    | Throw e => (Throw e, h)
    | Stuck => (Stuck, h)
    end.

(** The value a pointer leads to: the member read at the end of the
    traversal. *)
Definition pointer_value (h : list cell) (d : val) (p : string) : res val :=
  match locate_path true h (Str.split "/" p) d with
  | Ok (o, k) => get_prop h o k
  | Throw e => Throw e
  | Stuck => Stuck
  end.

(** A patch of standard operations. *)
Definition standard_patch (patch : list Operation) : Prop :=
  forall o, In o patch -> op o <> Op_x.

(** Neither the value nor an element of a list or a member of a map within
    it is [undefined]. *)
Fixpoint no_undefined_upto (n : nat) (h : list cell) (v : val) : Prop :=
  match v with
  | VUndef => False
  | VRef l =>
      match n with
      | O => True
      | S n' =>
          match h !! l with
          | Some (CArr es _) => Forall (no_undefined_upto n' h) es
          | Some (CObj ps) => Forall (no_undefined_upto n' h) (map snd ps)
          | None => True
          end
      end
  | _ => True
  end.

Definition no_undefined (h : list cell) (v : val) : Prop :=
  no_undefined_upto (length h) h v.

(** Every reference within [v], through elements and properties, leads to
    a cell of the store, within [n] steps. *)
Fixpoint resolves_upto (n : nat) (h : list cell) (v : val) : Prop :=
  match v with
  | VRef l =>
      match n with
      | O => False
      | S n' =>
          match h !! l with
          | Some (CArr es ps) => Forall (resolves_upto n' h) (es ++ map snd ps)
          | Some (CObj ps) => Forall (resolves_upto n' h) (map snd ps)
          | None => False
          end
      end
  | _ => True
  end.

Definition resolves (h : list cell) (v : val) : Prop := resolves_upto (length h) h v.

(** [obj] is what the own properties [ks], taken one after the other from
    [root], lead to; all but the last lead to an object or to [null]. *)
Fixpoint reaches (h : list cell) (root : val) (ks : list string) (obj : val) : Prop :=
  match ks with
  | [] => strict_eq root obj = true
  | k :: rest =>
      exists keys v,
        own_keys h root = Ok keys /\ In k keys
        /\ get_prop h root (KStr k) = Ok v
        /\ (rest <> [] -> typeof_object v = true)
        /\ reaches h v rest obj
  end.

(** The components as [getPath] writes them: each one escaped and followed
    by a slash. *)
Fixpoint components (ks : list string) : string :=
  match ks with
  | [] => ""
  | k :: rest =>
      String.append (escapePathComponent k) (String.append "/" (components rest))
  end.

(** What a call of [_getPathRecursive] on [root] has to come to: the empty
    string when no property leads to [obj], and the components of a way
    to it otherwise. *)
Definition search_result (h : list cell) (obj root : val) (r : res string) : Prop :=
  exists p, r = Ok p
    /\ if String.eqb p "" then forall k rest, ~ reaches h root (k :: rest) obj
       else exists k rest, p = components (k :: rest) /\ reaches h root (k :: rest) obj.

(** The containers the traversal passes through before the one it ends
    on. *)
Fixpoint ancestors (h : list cell) (c : string) (rest : list string) (o : val)
  : list val :=
  match rest with
  | [] => []
  | c' :: rest' =>
      o :: match (if is_array h o then std_array_key h o (component_key c)
                  else Ok (component_key c)) with
           | Ok k' =>
               match get_prop h o k' with
               | Ok o' => ancestors h c' rest' o'
               | _ => []
               end
           | _ => []
           end
  end.

Definition path_ancestors (h : list cell) (keys : list string) (d : val) : list val :=
  match keys with
  | _ :: c :: rest => ancestors h c rest d
  | _ => []
  end.

(** A handler that does on its working copy what [add] does: it sets
    [obj[key]] to [this.value] and answers with the working document. *)
Definition adding_handler : Handler :=
  fun this o k workingDocument =>
    run write (fun h => set_prop h o k (value this)) then
    ret (Some (result_doc workingDocument)).

Definition adding_registry : gmap string XConfig :=
  <["x-add" := mkXConfig adding_handler adding_handler accepting_validator]> ∅.

(** The document [{"a": {"b": 1}}] and the list [[1, 2, 3]]. *)
Definition sample_map : list cell :=
  [CObj [("b", VNum 1)]; CObj [("a", VRef 0%nat)]].
Definition sample_list : list cell := [CArr [VNum 1; VNum 2; VNum 3] []].

(** ** The vocabulary of the dispatcher as a whole *)

(** What an operation that writes makes of the container its path ends
    in, in the words of RFC 6902: in a map [add] and [replace] set the
    member and [remove] deletes it; in a list, at the index [n], [add]
    inserts before the element that is there (at the end when there is
    none), [remove] takes that element out and [replace] overwrites it.
    [test] and [_get] leave the container as it is. *)
Definition patched (o : opname) (k : key) (v : val) (c : cell) : cell :=
  match c with
  | CObj ps =>
      match o with
      | Op_add | Op_replace => CObj (pset (key_name k) v ps)
      | Op_remove => CObj (pdel (key_name k) ps)
      | _ => c
      end
  | CArr es ps =>
      match k with
      | KNum n =>
          let j := Z.to_nat (Z.min n (Z.of_nat (length es))) in
          match o with
          | Op_add => CArr (take j es ++ v :: drop j es) ps
          | Op_remove => CArr (take j es ++ drop (S j) es) ps
          | Op_replace =>
              CArr (if (Z.to_nat n <? length es)%nat then <[Z.to_nat n := v]> es
                    else es ++ replicate (Z.to_nat n - length es) VUndef ++ [v]) ps
          | _ => c
          end
      | _ => c
      end
  end.

(** The operations that [patched] describes. *)
Definition simple_op (o : opname) : Prop :=
  o = Op_add \/ o = Op_remove \/ o = Op_replace \/ o = Op_test \/ o = Op_get.

(** The keys [patched] describes: any name but [__proto__] in a map, an
    index in a list. *)
Definition plain_key (c : cell) (k : key) : Prop :=
  match c with
  | CObj _ => key_name k <> "__proto__"
  | CArr _ _ => exists n, k = KNum n /\ 0 <= n < 2 ^ 31
  end.

(** The names, unescaped, under which the traversal of a standard
    operation looks in a list: from [o], through the component [c] and then
    [rest], along the own properties that are there. *)
Fixpoint list_components (h : list cell) (c : string) (rest : list string) (o : val)
  : list string :=
  (if is_array h o then [key_name (component_key c)] else [])
  ++ match rest with
     | [] => []
     | c' :: rest' =>
         match (if is_array h o then std_array_key h o (component_key c)
                else Ok (component_key c)) with
         | Ok k' =>
             match get_prop h o k' with
             | Ok o' => list_components h c' rest' o'
             | _ => []
             end
         | _ => []
         end
     end.

Definition path_list_components (h : list cell) (keys : list string) (d : val)
  : list string :=
  match keys with
  | _ :: c :: rest => list_components h c rest d
  | _ => []
  end.

(** A component that validation lets through in a list. *)
Definition index_component (s : string) : Prop := all_digits s \/ s = "-".

(** * Properties *)

(** ** Identifiers of extended operations *)

Lemma starts_with_x_dash (s : string) :
  Str.starts_with "x-" s = true <-> exists rest, s = String "x" (String "-" rest).
Proof.
  split.
  - destruct s as [|a [|b r]]; cbn [Str.starts_with]; try discriminate.
    + rewrite andb_false_r. discriminate.
    + rewrite andb_true_r, andb_true_iff, !Ascii.eqb_eq.
      intros [<- <-]. by exists r.
  - intros [r ->]. reflexivity.
Qed.

Lemma isValidExtendedOpId_spec (xid : string) :
  isValidExtendedOpId xid = true <-> well_formed_xid xid.
Proof.
  unfold isValidExtendedOpId, well_formed_xid.
  rewrite andb_true_iff, Nat.leb_le, starts_with_x_dash. tauto.
Qed.

(** C10.  On a string that is not a well-formed identifier
    [hasExtendedOperation] does not answer [false]: it throws
    [OPERATION_X_ID_INVALID], whatever the registry holds; a boolean comes
    back only for a well-formed identifier. *)
Theorem hasExtendedOperation_malformed (reg : Registry) (xid : string) :
  (~ well_formed_xid xid ->
     hasExtendedOperation reg xid = Throw (JsonPatchError OPERATION_X_ID_INVALID))
  /\ (forall b, hasExtendedOperation reg xid = Ok b -> well_formed_xid xid).
Proof.
  unfold hasExtendedOperation.
  destruct (isValidExtendedOpId xid) eqn:E; simpl.
  - apply isValidExtendedOpId_spec in E. split; [tauto | auto].
  - split; [reflexivity | discriminate].
Qed.

Lemma hasExtendedOperation_malformed_witness :
  ~ well_formed_xid "add"
  /\ hasExtendedOperation ∅ "add" = Throw (JsonPatchError OPERATION_X_ID_INVALID).
Proof.
  assert (H : ~ well_formed_xid "add").
  { intros [_ [r Hr]]. discriminate Hr. }
  split; [exact H |].
  exact (proj1 (hasExtendedOperation_malformed ∅ "add") H).
Defined.

(** ** Components of a path as indices of a list *)

Lemma isInteger_codes_spec (l : list nat) :
  isInteger_codes l = true <-> Forall is_digit l.
Proof.
  induction l as [|c r IH]; cbn [isInteger_codes].
  - split; [constructor | reflexivity].
  - destruct ((48 <=? c)%nat && (c <=? 57)%nat) eqn:E.
    + apply andb_true_iff in E as [E1 E2].
      apply Nat.leb_le in E1, E2.
      rewrite IH. split.
      * intros H. constructor; [split|]; assumption.
      * intros H. by inversion H.
    + split; [discriminate|]. intros H. inversion H as [|? ? [H1 H2] _]; subst.
      apply Nat.leb_le in H1, H2. rewrite H1, H2 in E. discriminate.
Qed.

Lemma isInteger_spec (s : string) : isInteger s = true <-> all_digits s.
Proof. apply isInteger_codes_spec. Qed.

Lemma isInteger_false (s : string) : isInteger s = false <-> ~ all_digits s.
Proof.
  rewrite <- isInteger_spec. destruct (isInteger s); split; congruence.
Qed.

(** A name with a character that is not a digit is no index of an array. *)
Lemma array_index_digits (s : string) n : array_index s = Some n -> all_digits s.
Proof.
  unfold array_index, index_value. destruct (Str.codes s) as [|c r] eqn:E; [discriminate|].
  destruct (isInteger_codes (c :: r)) eqn:Hi; [|discriminate].
  intros _. unfold all_digits. rewrite E. by apply isInteger_codes_spec.
Qed.

Lemma key_is_spec (s s' : string) : key_is (KStr s) s' = true <-> s = s'.
Proof. simpl. apply String.eqb_eq. Qed.

Lemma key_is_false (s s' : string) : s <> s' -> key_is (KStr s) s' = false.
Proof. intros H. simpl. by apply String.eqb_neq. Qed.

(** ** [validate]: errors as values *)

Lemma catch_JsonPatchError_spec {A} (m : M A) (h : heap) :
  fst (catch_JsonPatchError m h) =
  match fst (m h) with
  | Ok _ => Ok None
  | Throw (JsonPatchError name) => Ok (Some name)
  | Throw e => Throw e
  | Stuck => Stuck
  end.
Proof.
  unfold catch_JsonPatchError. destruct (m h) as [[a|e|] h']; simpl; try done.
  by destruct e.
Qed.

(** C5.  [validate] never raises a [JsonPatchError]: when the dry run of
    the sequence raises one, [validate] returns it as a value; any other
    failure of the dry run is raised to the caller unchanged.  Validating
    [[{op: "replace", path: "/missing", value: 1}]] against [{}] returns
    the error named [OPERATION_PATH_UNRESOLVABLE]; the [TypeError] of the
    prototype guard, which is no [JsonPatchError], is raised. *)
Theorem validate_returns_domain_errors (reg : Registry) (sequence : list Operation)
    (document : val) (externalValidator : option ValidatorFn) (h : heap) :
  let body := validate_body (applyOperation reg) (validator_default reg)
                sequence document externalValidator in
  (forall name,
      fst (validate reg sequence document externalValidator h)
      <> Throw (JsonPatchError name))
  /\ (forall name,
      fst (body h) = Throw (JsonPatchError name) ->
      fst (validate reg sequence document externalValidator h) = Ok (Some name))
  /\ (forall e,
      fst (body h) = Throw e -> is_JsonPatchError e = false ->
      fst (validate reg sequence document externalValidator h) = Throw e)
  /\ fst (validate ∅ [mkOp Op_replace (Some "/missing") None (VNum 1) None VUndef false]
            (VRef 0%nat) None [CObj []]) = Ok (Some OPERATION_PATH_UNRESOLVABLE)
  /\ fst (validate ∅ [mkOp Op_add (Some "/__proto__/polluted") None (VBool true)
                        None VUndef false]
            (VRef 0%nat) None [CObj []]) = Throw (TypeError PROTO_ERROR_MSG).
Proof.
  intros body. unfold validate, validate_with. fold body.
  repeat split.
  - intros name. rewrite catch_JsonPatchError_spec.
    destruct (fst (body h)) as [a|e|]; try discriminate. by destruct e.
  - intros name H. by rewrite catch_JsonPatchError_spec, H.
  - intros e H He. rewrite catch_JsonPatchError_spec, H. by destruct e.
Qed.

(** ** Extended operations: sample configurations *)

(** ** Extended operations at the root and removals under [resolve] *)

(** In the branch for lists a result that carries a removed value is
    refused whenever [resolve] is set. *)
Lemma extended_arr_ambiguous (operation : Operation) (mutateDocument : bool)
    (document workingDocument : val) (xc : XConfig) (o : val) (k : key)
    (keys : list string) (t : nat) (gp : option string) (h h' : heap) (r : Result) :
  resolve operation = true ->
  arr xc operation o k workingDocument h = (Ok (Some r), h') ->
  removed r <> VUndef ->
  extended_arr operation mutateDocument document workingDocument xc o k keys t gp h
  = (Throw (JsonPatchError OPERATION_X_AMBIGUOUS_REMOVAL), h').
Proof.
  intros Hres Hcall Hrem. unfold extended_arr.
  rewrite Hres, andb_false_r. unfold bind at 1. rewrite Hcall.
  assert (E : strict_eq (removed r) VUndef = false).
  { destruct (removed r); try reflexivity. by destruct Hrem. }
  by rewrite E.
Qed.

(** C7 (the check is missing for maps).  With [resolve] set and a handler
    whose result carries the removed value, the operation on the list
    [[1]] at [/0] fails with [OPERATION_X_AMBIGUOUS_REMOVAL], but the same
    operation on the map [{"a": 1}] at [/a] returns normally and the key is
    pruned from the document. *)
Theorem ambiguous_removal_missed_for_maps :
  fst (applyOperation sample_registry (VRef 0%nat) (x_op "x-rm" "/0" VUndef true)
         NoValidation true true 0%nat [CArr [VNum 1] []])
  = Throw (JsonPatchError OPERATION_X_AMBIGUOUS_REMOVAL)
  /\ applyOperation sample_registry (VRef 0%nat) (x_op "x-rm" "/a" VUndef true)
       NoValidation true true 0%nat [CObj [("a", VNum 1)]]
     = (Ok (result_doc (VRef 0%nat)), [CObj []; CObj []])
  /\ fst (applyOperation sample_registry (VRef 0%nat) (x_op "x-rm" "/a" VUndef true)
            NoValidation false true 0%nat [CObj [("a", VNum 1)]])
     = Ok (mkResult (VRef 2%nat) (VNum 1) None None VUndef).
Proof. vm_compute. auto. Qed.

(** C8, as stated, fails without [resolve]: the handler registered for
    maps would answer [1], and the operation at the root returns
    [operation.value] instead, the handler not being called. *)
Lemma root_extended_without_resolve_skips_handler :
  obj (mkXConfig (constant_handler (VNum 1)) (constant_handler (VNum 1))
         accepting_validator)
      (x_op "x-one" "" (VNum 7) false) (VRef 0%nat) (KStr "") (VRef 0%nat)
      [CObj [("a", VNum 1)]]
  = (Ok (Some (result_doc (VNum 1))), [CObj [("a", VNum 1)]])
  /\ applyOperation sample_registry (VRef 0%nat) (x_op "x-one" "" (VNum 7) false)
       NoValidation true true 0%nat [CObj [("a", VNum 1)]]
     = (Ok (result_doc (VNum 7)), [CObj [("a", VNum 1)]]).
Proof. vm_compute. auto. Qed.

(** C8 (as amended).  An extended operation at the root path does not
    traverse: with [resolve] set it calls the handler registered for maps
    with the empty key, whatever the document is, and returns the
    handler's result, or the document when the handler declines; without
    [resolve] no handler is called and the result is [operation.value].
    The handler for lists plays no part. *)
Theorem root_extended_operation (reg : Registry) (document : val)
    (operation : Operation) (xc : XConfig) (v : Validation)
    (mutateDocument ban : bool) (i : nat) (h : heap) :
  op operation = Op_x ->
  path operation = Some "" ->
  registry_get reg (xid operation) = Some xc ->
  applyOperation reg document operation v mutateDocument ban i h
  = (run validate_first reg (inner_validate_get reg) document operation v then
     let* workingDocument :=
       (if negb mutateDocument then _deepClone document else ret document) in
     if resolve operation then
       let* result := obj xc operation workingDocument (KStr "") workingDocument in
       ret (default (result_doc document) result)
     else ret (result_doc (value operation))) h.
Proof.
  intros Hop Hpath Hreg.
  unfold applyOperation, applyOperation_with, apply_root.
  rewrite Hpath, Hop, Hreg. simpl.
  unfold bind at 1 4.
  destruct (validate_first reg (inner_validate_get reg) document operation v h)
    as [[[]|e|] h0]; try reflexivity.
  unfold bind at 1 3.
  destruct ((if negb mutateDocument then _deepClone document else ret document) h0)
    as [[w|e|] h1]; try reflexivity.
  destruct (resolve operation); [|reflexivity].
  unfold bind.
  destruct (obj xc operation w (KStr "") w h1) as [[[r|]|e|] h2]; reflexivity.
Qed.

Lemma root_extended_operation_witness :
  applyOperation sample_registry (VRef 0%nat) (x_op "x-one" "" VUndef true)
    NoValidation true true 0%nat [CArr [VNum 5] []]
  = (Ok (result_doc (VNum 1)), [CArr [VNum 5] []]).
Proof.
  rewrite (root_extended_operation sample_registry (VRef 0%nat)
             (x_op "x-one" "" VUndef true)
             (mkXConfig (constant_handler (VNum 1)) (constant_handler (VNum 1))
                accepting_validator) NoValidation true true 0%nat [CArr [VNum 5] []]);
    reflexivity.
Defined.

(** ** [test] and [_areEquals] *)

(** The scenarios of the specification: maps are compared without regard
    to the order of their keys, lists position by position, and two
    [NaN] are equal. *)
Lemma areEquals_scenarios :
  _areEquals [CObj [("a", VNum 1); ("b", VNum 2)]; CObj [("b", VNum 2); ("a", VNum 1)]]
    (VRef 0%nat) (VRef 1%nat) = Ok true
  /\ _areEquals [CArr [VNum 1; VNum 2; VNum 3] []; CArr [VNum 1; VNum 2; VNum 3] []]
       (VRef 0%nat) (VRef 1%nat) = Ok true
  /\ _areEquals [CArr [VNum 1; VNum 2] []; CArr [VNum 2; VNum 1] []]
       (VRef 0%nat) (VRef 1%nat) = Ok false
  /\ _areEquals [] VNaN VNaN = Ok true.
Proof. vm_compute. auto. Qed.

(** C1 (the code fails on a map that has the key [hasOwnProperty]).  The
    document [{"hasOwnProperty": 1}] is deep-equal to the value
    [{"hasOwnProperty": 1}], yet the [test] operation at the root neither
    succeeds nor fails with [TEST_OPERATION_FAILED]: [_areEquals] calls
    [b.hasOwnProperty], which is the number [1], and a [TypeError] comes
    out.  The same holds below the root. *)
Theorem test_throws_on_hasOwnProperty_key :
  let h := [CObj [("hasOwnProperty", VNum 1)]; CObj [("hasOwnProperty", VNum 1)];
            CObj [("a", VRef 0%nat)]] in
  deep_equal h h (VRef 0%nat) (VRef 1%nat)
  /\ _areEquals h (VRef 0%nat) (VRef 1%nat)
     = Throw (TypeError "b.hasOwnProperty is not a function")
  /\ fst (applyOperation ∅ (VRef 0%nat)
            (mkOp Op_test (Some "") None (VRef 1%nat) None VUndef false)
            NoValidation true true 0%nat h)
     = Throw (TypeError "b.hasOwnProperty is not a function")
  /\ fst (applyOperation ∅ (VRef 2%nat)
            (mkOp Op_test (Some "/a") None (VRef 1%nat) None VUndef false)
            NoValidation true true 0%nat h)
     = Throw (TypeError "b.hasOwnProperty is not a function").
Proof.
  split; [|vm_compute; auto].
  exists 1%nat. cbn. split; [done|].
  intros k x y. unfold plookup. cbn.
  case_match; [|done]. intros [= <-] [= <-]. by left.
Qed.

(** * The store under the operations: what is written, and where *)

(** ** Framing *)

Lemma frame_refl b h : frame b h h.
Proof. split; auto. Qed.

Lemma frame_trans b h1 h2 h3 : frame b h1 h2 -> frame b h2 h3 -> frame b h1 h3.
Proof.
  intros [L1 F1] [L2 F2]. split; [lia|].
  intros l Hl. rewrite F2, F1; auto.
Qed.

Lemma frame_weaken b b' h h' : (b' <= b)%nat -> frame b h h' -> frame b' h h'.
Proof. intros Hb [L F]. split; [done|]. intros l Hl. apply F. lia. Qed.

(** When the bound is the size of the store, the old store is a prefix of
    the new one. *)
Lemma frame_prefix h h' : frame (length h) h h' -> take (length h) h' = h.
Proof.
  intros [L F]. apply list_eq. intros i.
  destruct (decide (i < length h)%nat) as [Hi|Hi].
  - rewrite lookup_take_lt by done. by apply F.
  - rewrite lookup_take_ge by lia. symmetry. apply lookup_ge_None. lia.
Qed.

Lemma frame_insert b h l c :
  (b <= l)%nat -> frame b h (<[l := c]> h).
Proof.
  intros Hl. split; [by rewrite length_insert|].
  intros l' Hl'. apply list_lookup_insert_ne. lia.
Qed.

Lemma frame_app b h ext : (b <= length h)%nat -> frame b h (h ++ ext).
Proof.
  intros Hb. split; [rewrite length_app; lia|].
  intros l Hl. apply lookup_app_l. lia.
Qed.

Lemma val_above_default b (o : option val) :
  (forall v, o = Some v -> val_above b v) -> val_above b (default VUndef o).
Proof. destruct o; simpl; auto. Qed.

Lemma plookup_In k ps v : plookup k ps = Some v -> In v (map snd ps).
Proof.
  induction ps as [|[k' v'] r IH]; simpl; [discriminate|].
  destruct (String.eqb k k'); [intros [= ->]; auto | auto].
Qed.

Lemma pset_vals k v ps x : In x (map snd (pset k v ps)) -> x = v \/ In x (map snd ps).
Proof.
  induction ps as [|[k' v'] r IH]; simpl.
  - intros [<-|[]]; auto.
  - destruct (String.eqb k k'); simpl.
    + intros [<-|H]; auto.
    + intros [<-|H]; auto. destruct (IH H); auto.
Qed.

Lemma pdel_vals k ps x : In x (map snd (pdel k ps)) -> In x (map snd ps).
Proof.
  induction ps as [|[k' v'] r IH]; simpl; [done|].
  destruct (String.eqb k k'); simpl; [auto|]. intros [<-|H]; auto.
Qed.

Lemma Forall_val_above_In b l : Forall (val_above b) l <-> forall x, In x l -> val_above b x.
Proof. apply List.Forall_forall. Qed.

Lemma above_cell b h l c :
  above b h -> (b <= l)%nat -> h !! l = Some c ->
  forall x, In x (cell_vals c) -> val_above b x.
Proof. intros Ha Hl Hc. apply Forall_val_above_In. eapply Ha; eauto. Qed.

(** Storing a cell of values above [b] at a location above [b]. *)
Lemma above_insert b h l c :
  above b h -> (forall x, In x (cell_vals c) -> val_above b x) ->
  above b (<[l := c]> h).
Proof.
  intros Ha Hc l' c' Hl' Hlook.
  destruct (decide (l = l')) as [<-|Hne].
  - destruct (decide (l < length h)%nat) as [Hlt|Hge].
    + rewrite list_lookup_insert_eq in Hlook by done. injection Hlook as <-.
      by apply Forall_val_above_In.
    + rewrite list_insert_ge in Hlook by lia. eapply Ha; eauto.
  - rewrite list_lookup_insert_ne in Hlook by done. eapply Ha; eauto.
Qed.

Lemma above_alloc b h c :
  above b h -> (forall x, In x (cell_vals c) -> val_above b x) ->
  above b (h ++ [c]).
Proof.
  intros Ha Hc l c' Hl Hlook.
  destruct (decide (l < length h)%nat) as [Hlt|Hge].
  - rewrite lookup_app_l in Hlook by done. eapply Ha; eauto.
  - rewrite lookup_app_r in Hlook by lia.
    destruct (l - length h)%nat; simpl in Hlook; [|done].
    injection Hlook as <-. by apply Forall_val_above_In.
Qed.

Lemma get_prop_above b h o k v :
  above b h -> val_above b o -> get_prop h o k = Ok v -> val_above b v.
Proof.
  intros Ha Ho. unfold get_prop.
  destruct o as [| | | | |s|l]; try discriminate; try (intros [= <-]; exact I).
  - destruct (key_index k) as [i|].
    + destruct (Str.chars s !! i); intros [= <-]; exact I.
    + destruct (String.eqb _ _); intros [= <-]; exact I.
  - simpl in Ho. destruct (h !! l) as [[es ps|ps]|] eqn:E; [| |discriminate].
    + pose proof (above_cell b h l _ Ha Ho E) as Hc. simpl in Hc.
      destruct (key_index k) as [i|].
      * intros [= <-]. apply val_above_default. intros v Hv.
        apply Hc, in_or_app. left. apply list_elem_of_In.
        eapply list_elem_of_lookup_2; eauto.
      * destruct (String.eqb _ _); intros [= <-]; [exact I|].
        apply val_above_default. intros v Hv.
        apply Hc, in_or_app. right. eapply plookup_In; eauto.
    + pose proof (above_cell b h l _ Ha Ho E) as Hc. simpl in Hc.
      intros [= <-]. apply val_above_default. intros v Hv.
      eapply Hc, plookup_In; eauto.
Qed.

Lemma vals_above_nil b : vals_above b [].
Proof. intros x []. Qed.

Lemma vals_above_cons b v l : val_above b v -> vals_above b l -> vals_above b (v :: l).
Proof. intros Hv Hl x [<-|H]; auto. Qed.

Lemma vals_above_app b l1 l2 :
  vals_above b (l1 ++ l2) <-> vals_above b l1 /\ vals_above b l2.
Proof.
  unfold vals_above. split.
  - intros H. split; intros x Hx; apply H, in_or_app; auto.
  - intros [H1 H2] x Hx. apply in_app_or in Hx as [Hx|Hx]; auto.
Qed.

Lemma vals_above_replicate b n : vals_above b (replicate n VUndef).
Proof. induction n; simpl; [apply vals_above_nil|]. by apply vals_above_cons. Qed.

Lemma vals_above_take b n l : vals_above b l -> vals_above b (take n l).
Proof.
  intros H x Hx. apply H. apply list_elem_of_In. apply list_elem_of_In in Hx.
  apply list_elem_of_lookup_1 in Hx as [i Hi].
  apply lookup_take_Some in Hi as [Hi _]. eapply list_elem_of_lookup_2; eauto.
Qed.

Lemma vals_above_drop b n l : vals_above b l -> vals_above b (drop n l).
Proof.
  intros H x Hx. apply H. apply list_elem_of_In. apply list_elem_of_In in Hx.
  apply list_elem_of_lookup_1 in Hx as [i Hi].
  rewrite lookup_drop in Hi. eapply list_elem_of_lookup_2; eauto.
Qed.

Lemma vals_above_insert b i v l :
  val_above b v -> vals_above b l -> vals_above b (<[i := v]> l).
Proof.
  intros Hv Hl. revert i. induction l as [|a r IH]; intros [|i]; simpl; auto.
  - apply vals_above_cons; auto. intros x Hx. apply Hl. by right.
  - apply vals_above_cons; [apply Hl; by left|]. apply IH.
    intros x Hx. apply Hl. by right.
Qed.

Lemma vals_above_pset b k v ps :
  val_above b v -> vals_above b (map snd ps) -> vals_above b (map snd (pset k v ps)).
Proof. intros Hv Hp x Hx. apply pset_vals in Hx as [->|Hx]; auto. Qed.

Lemma vals_above_pdel b k ps :
  vals_above b (map snd ps) -> vals_above b (map snd (pdel k ps)).
Proof. intros Hp x Hx. apply Hp. eapply pdel_vals; eauto. Qed.

Lemma vals_above_pad b n l : vals_above b l -> vals_above b (pad_to n l).
Proof.
  intros H. apply vals_above_app. split; [done|apply vals_above_replicate].
Qed.

(** [obj[key] = v] writes the cell of [obj] and no other. *)
Lemma set_prop_safe b h o k v h' :
  above b h -> val_above b o -> set_prop h o k v = Ok h' ->
  frame b h h' /\ (val_above b v -> above b h').
Proof.
  intros Ha Ho. unfold set_prop.
  destruct o as [| | | | | |l]; try discriminate. simpl in Ho.
  destruct (h !! l) as [[es ps|ps]|] eqn:E; [| |discriminate].
  - pose proof (above_cell b h l _ Ha Ho E) as Hc. simpl in Hc.
    apply vals_above_app in Hc as [Hes Hps].
    destruct (key_index k) as [i|].
    + intros [= <-]. split; [by apply frame_insert|].
      intros Hv. apply above_insert; [done|]. simpl.
      apply vals_above_app. split; [|done].
      destruct (i <? length es)%nat.
      * by apply vals_above_insert.
      * apply vals_above_app. split; [by apply vals_above_pad|].
        apply vals_above_cons; [done|apply vals_above_nil].
    + destruct (String.eqb _ _).
      * destruct v as [| | |n| | |]; try discriminate.
        destruct ((0 <=? n) && (n <? 2 ^ 32)); [|discriminate].
        intros [= <-]. split; [by apply frame_insert|].
        intros _. apply above_insert; [done|]. simpl.
        apply vals_above_app. split; [|done].
        by apply vals_above_pad, vals_above_take.
      * intros [= <-]. split; [by apply frame_insert|].
        intros Hv. apply above_insert; [done|]. simpl.
        apply vals_above_app. split; [done|]. by apply vals_above_pset.
  - pose proof (above_cell b h l _ Ha Ho E) as Hc. simpl in Hc.
    intros [= <-]. split; [by apply frame_insert|].
    intros Hv. apply above_insert; [done|]. simpl. by apply vals_above_pset.
Qed.

Lemma delete_prop_safe b h o k h' :
  above b h -> val_above b o -> delete_prop h o k = Ok h' ->
  frame b h h' /\ above b h'.
Proof.
  intros Ha Ho. unfold delete_prop.
  destruct o as [| | | | |s|l]; try discriminate;
    try (intros [= <-]; split; [apply frame_refl|done]).
  - destruct (key_index k) as [i|].
    + destruct (i <? String.length s)%nat; [discriminate|].
      intros [= <-]. split; [apply frame_refl|done].
    + destruct (String.eqb _ _); [discriminate|].
      intros [= <-]. split; [apply frame_refl|done].
  - simpl in Ho. destruct (h !! l) as [[es ps|ps]|] eqn:E; [| |discriminate].
    + pose proof (above_cell b h l _ Ha Ho E) as Hc. simpl in Hc.
      apply vals_above_app in Hc as [Hes Hps].
      destruct (key_index k) as [i|].
      * intros [= <-]. split; [by apply frame_insert|].
        apply above_insert; [done|]. simpl. apply vals_above_app. split; [|done].
        destruct (i <? length es)%nat; [|done]. by apply vals_above_insert.
      * destruct (String.eqb _ _); [discriminate|].
        intros [= <-]. split; [by apply frame_insert|].
        apply above_insert; [done|]. simpl. apply vals_above_app.
        split; [done|]. by apply vals_above_pdel.
    + pose proof (above_cell b h l _ Ha Ho E) as Hc. simpl in Hc.
      intros [= <-]. split; [by apply frame_insert|].
      apply above_insert; [done|]. simpl. by apply vals_above_pdel.
Qed.

Lemma splice_at_safe b h o start del ins removed h' :
  above b h -> val_above b o ->
  splice_at h o start del ins = Ok (removed, h') ->
  frame b h h' /\ vals_above b removed /\ (vals_above b ins -> above b h').
Proof.
  intros Ha Ho. unfold splice_at.
  destruct o as [| | | | | |l]; try discriminate. simpl in Ho.
  destruct (h !! l) as [[es ps|ps]|] eqn:E; try discriminate.
  pose proof (above_cell b h l _ Ha Ho E) as Hc. simpl in Hc.
  apply vals_above_app in Hc as [Hes Hps].
  unfold splice. intros [= <- <-].
  split; [by apply frame_insert|]. split.
  - by apply vals_above_take, vals_above_drop.
  - intros Hins. apply above_insert; [done|]. simpl.
    apply vals_above_app. split; [|done].
    apply vals_above_app. split; [by apply vals_above_take|].
    apply vals_above_app. split; [done|by apply vals_above_drop].
Qed.

Lemma safe_if_weaken (C C' : Prop) b {A} (m : M A) (Q Q' : A -> Prop) :
  safe_if C b m Q -> (C' -> C) -> (forall a, Q a -> Q' a) -> safe_if C' b m Q'.
Proof.
  intros H HC HQ h Ha Hb. destruct (H h Ha Hb) as [F G]. split; [done|].
  intros c. destruct (G (HC c)) as [G1 G2]. split; auto.
Qed.

Lemma safe_ret C b {A} (a : A) (Q : A -> Prop) : Q a -> safe_if C b (ret a) Q.
Proof.
  intros HQ h Ha Hb. simpl. split; [apply frame_refl|].
  intros _. split; [done|]. by intros a' [= <-].
Qed.

Lemma safe_throw C b {A} e (Q : A -> Prop) : safe_if C b (throw e) Q.
Proof.
  intros h Ha Hb. simpl. split; [apply frame_refl|]. intros _. split; [done|discriminate].
Qed.

Lemma safe_stuck C b {A} (Q : A -> Prop) : safe_if C b (@stuck A) Q.
Proof.
  intros h Ha Hb. simpl. split; [apply frame_refl|]. intros _. split; [done|discriminate].
Qed.

Lemma safe_bind C b {A B} (m : M A) (f : A -> M B) (Q : A -> Prop) (R : B -> Prop) :
  safe_if True b m Q -> (forall a, Q a -> safe_if C b (f a) R) ->
  safe_if C b (bind m f) R.
Proof.
  intros Hm Hf h Ha Hb. destruct (Hm h Ha Hb) as [F G].
  destruct (G I) as [Ha' HQ]. unfold bind.
  destruct (m h) as [[a|e|] h1] eqn:E; simpl in *.
  - assert (Hb1 : (b <= length h1)%nat) by (destruct F; lia).
    destruct (Hf a (HQ a eq_refl) h1 Ha' Hb1) as [F2 G2].
    split; [eapply frame_trans; eauto|done].
  - split; [done|]. intros _. split; [done|discriminate].
  - split; [done|]. intros _. split; [done|discriminate].
Qed.

Lemma safe_get_heap C b (Q : list cell -> Prop) :
  (forall h, above b h -> (b <= length h)%nat -> Q h) -> safe_if C b get_heap Q.
Proof.
  intros HQ h Ha Hb. simpl. split; [apply frame_refl|].
  intros _. split; [done|]. intros a [= <-]. auto.
Qed.

Lemma safe_read C b {A} (f : list cell -> res A) (Q : A -> Prop) :
  (forall h a, above b h -> f h = Ok a -> Q a) -> safe_if C b (read f) Q.
Proof.
  intros HQ h Ha Hb. simpl. split; [apply frame_refl|].
  intros _. split; [done|]. intros a E. eauto.
Qed.

Lemma safe_write (C : Prop) b (f : list cell -> res (list cell)) :
  (forall h h', above b h -> f h = Ok h' -> frame b h h' /\ (C -> above b h')) ->
  safe_if C b (write f) (fun _ => True).
Proof.
  intros Hf h Ha Hb. unfold write.
  destruct (f h) as [h'|e|] eqn:E; simpl.
  - destruct (Hf h h' Ha E) as [F G]. split; [done|]. intros c. split; auto.
  - split; [apply frame_refl|]. intros _. split; [done|discriminate].
  - split; [apply frame_refl|]. intros _. split; [done|discriminate].
Qed.

Lemma safe_new_cell C b c :
  vals_above b (cell_vals c) -> safe_if C b (new_cell c) (val_above b).
Proof.
  intros Hc h Ha Hb. unfold new_cell, alloc. simpl.
  split; [by apply frame_app|]. intros _. split.
  - by apply above_alloc.
  - intros a [= <-]. simpl. lia.
Qed.

Lemma safe_mapM b {A B} (f : A -> M B) (Q : B -> Prop) (l : list A) :
  (forall x, In x l -> safe_if True b (f x) Q) ->
  safe_if True b (mapM f l) (fun ys => forall y, In y ys -> Q y).
Proof.
  induction l as [|x r IH]; intros Hf; simpl.
  - apply safe_ret. intros y [].
  - eapply safe_bind; [apply Hf; by left|]. intros y Hy.
    eapply safe_bind; [apply IH; intros; apply Hf; by right|]. intros ys Hys.
    apply safe_ret. intros z [<-|Hz]; auto.
Qed.

(** ** [_deepClone] builds its result out of new cells only *)

Lemma json_roundtrip_safe b n v : safe_if True b (json_roundtrip n v) (val_above b).
Proof.
  revert v. induction n as [|n IH]; intros v.
  - destruct v; simpl; try (by apply safe_ret); apply safe_throw.
  - destruct v as [| | | | | |l]; simpl; try (by apply safe_ret).
    eapply safe_bind; [apply (safe_get_heap _ _ (fun _ => True)); auto|].
    intros h _. destruct (h !! l) as [[es ps|ps]|]; [| |apply safe_stuck].
    + eapply safe_bind; [apply safe_mapM; intros; apply IH|].
      intros es' Hes'. apply safe_new_cell. simpl. rewrite app_nil_r. exact Hes'.
    + eapply safe_bind.
      * apply (safe_mapM b _ (fun kv => val_above b (snd kv))).
        intros kv _. eapply safe_bind; [apply IH|].
        intros v' Hv'. by apply safe_ret.
      * intros ps' Hps'. apply safe_new_cell. simpl.
        intros x Hx. apply in_map_iff in Hx as [kv [<- Hkv]]. by apply Hps'.
Qed.

Lemma deepClone_safe C b v : safe_if C b (_deepClone v) (val_above b).
Proof.
  apply (safe_if_weaken True C b _ (val_above b)); auto.
  destruct v; simpl; try (by apply safe_ret);
    (eapply safe_bind; [apply (safe_get_heap _ _ (fun _ => True)); auto|];
     intros h _; apply json_roundtrip_safe).
Qed.

(** The clone of anything is above the whole store it was taken in. *)
Lemma deepClone_fresh v h :
  frame (length h) h (snd (_deepClone v h))
  /\ above (length h) (snd (_deepClone v h))
  /\ forall c, fst (_deepClone v h) = Ok c -> val_above (length h) c.
Proof.
  assert (Ha : above (length h) h).
  { intros l c Hl Hc. apply lookup_lt_Some in Hc. lia. }
  destruct (deepClone_safe True (length h) v h Ha (le_n _)) as [F G].
  destruct (G I). auto.
Qed.

(** ** What is assumed of user code *)

Lemma pure_validator_safe C b f o i d e :
  pure_validator f -> safe_if C b (f o i d e) (fun _ => True).
Proof.
  intros Hf h Ha Hb. rewrite Hf. split; [apply frame_refl|]. intros _. split; auto.
Qed.

Lemma registry_get_Some reg x xc :
  registry_get reg x = Some xc -> exists id, reg !! id = Some xc.
Proof. destruct x as [id|]; simpl; [eauto|discriminate]. Qed.

Section ValidatorFrame.

Variable b : nat.
Variable reg : gmap string XConfig.
Variable validate_get : option string -> val -> M (option JsonPatchErrorName).
Hypothesis validate_get_safe :
  forall p d, safe_if True b (validate_get p d) (fun _ => True).

Lemma validator_safe o i d e :
  (forall xc, op o = Op_x -> registry_get reg (xid o) = Some xc ->
     pure_validator (validator_fn xc)) ->
  safe_if True b (validator reg validate_get o i d e) (fun _ => True).
Proof.
  intros reg_pure. unfold validator.
  destruct (op o) eqn:Hop; cbn [in_objOps];
    try match goal with |- context [inherited_name ?x] => destruct (inherited_name x) end;
    try (destruct (path o) as [p|]; simpl; [|apply safe_throw];
         destruct (path_starts_badly p); [apply safe_throw|]; simpl).
  all: try (destruct (from o); simpl; [|apply safe_throw]).
  all: try (destruct (strict_eq (value o) VUndef); simpl; [apply safe_throw|]).
  all: try (eapply safe_bind;
            [first [apply (safe_read _ _ _ (fun _ => True)); auto
                   | by apply safe_ret]|];
            intros [] _; [apply safe_throw|]).
  all: try (destruct (falsy d); simpl; [by apply safe_ret|]).
  all: try (destruct e; [|apply safe_throw]).
  all: try (match goal with |- context [if ?c then throw _ else ret tt] =>
              destruct c; [apply safe_throw|by apply safe_ret] end).
  all: try (eapply safe_bind; [apply validate_get_safe|];
            intros [[]|] _; first [apply safe_throw | by apply safe_ret]).
  all: try (by apply safe_ret).
  all: try apply safe_throw.
  (* the extended operation *)
  all: destruct (negb _); [apply safe_throw|].
  all: destruct (registry_get reg (xid o)) as [xc|] eqn:Hreg; [|apply safe_throw].
  all: destruct (path o) as [p|]; [|apply safe_throw].
  all: destruct (path_starts_badly p); [apply safe_throw|].
  all: destruct (String.eqb p "/"); [apply safe_throw|].
  all: eapply safe_bind; [apply (safe_get_heap _ _ (fun _ => True)); auto|].
  all: intros h _; destruct (_ && _); [apply safe_throw|].
  all: apply pure_validator_safe; eauto.
Qed.

End ValidatorFrame.

(** ** The operators write only where they are pointed *)

Lemma result_doc_above b d : val_above b d -> result_above b (result_doc d).
Proof. intros H. repeat split; auto. Qed.

(** Under a name that is not one of theirs the tables have nothing, or what
    they inherit. *)
Lemma other_operator_stuck name f :
  other_operator name = Some f -> f = inherited_operator.
Proof. unfold other_operator. destruct (inherited_name name); congruence. Qed.

Section OperatorFrame.

Variable b : nat.
Variable applyOperation_default : val -> Operation -> M Result.
Hypothesis default_safe :
  forall d o, op o <> Op_x -> val_above b d -> val_above b (value o) ->
    safe_if True b (applyOperation_default d o) (result_above b).

Lemma getValueByPointer_with_safe d p :
  val_above b d ->
  safe_if True b (getValueByPointer_with applyOperation_default d p) (val_above b).
Proof.
  intros Hd. unfold getValueByPointer_with.
  assert (H : safe_if True b
                (let* r := applyOperation_default d
                             (mkOp Op_get p None VUndef None VUndef false) in
                 ret (got r)) (val_above b)).
  { eapply safe_bind; [apply default_safe; simpl; auto; discriminate|].
    intros r (_ & _ & Hg). by apply safe_ret. }
  destruct p as [[|]|]; auto. by apply safe_ret.
Qed.

Variable this : Operation.
Variable document : val.
Hypothesis Hdoc : val_above b document.

Lemma splice_step_safe (C : Prop) a n del ins :
  val_above b a -> (C -> vals_above b ins) ->
  safe_if C b (fun h => match splice_at h a n del ins with
                        | Ok (r, h') => (Ok r, h')
                        | Throw e => (Throw e, h)
                        | Stuck => (Stuck, h)
                        end) (vals_above b).
Proof.
  intros Ha Hins h Hab Hb.
  destruct (splice_at h a n del ins) as [[r h']|e|] eqn:E; simpl.
  - destruct (splice_at_safe _ _ _ _ _ _ _ _ Hab Ha E) as (F & Hr & G).
    split; [done|]. intros c. split; [auto|]. by intros x [= <-].
  - split; [apply frame_refl|]. intros _. split; [done|discriminate].
  - split; [apply frame_refl|]. intros _. split; [done|discriminate].
Qed.

Lemma set_step_safe (C : Prop) o k v :
  val_above b o -> (C -> val_above b v) ->
  safe_if C b (write (fun h => set_prop h o k v)) (fun _ => True).
Proof.
  intros Ho Hv. apply safe_write. intros h h' Ha E.
  destruct (set_prop_safe _ _ _ _ _ _ Ha Ho E). split; auto.
Qed.

Lemma get_step_safe o k :
  val_above b o -> safe_if True b (read (fun h => get_prop h o k)) (val_above b).
Proof.
  intros Ho. apply safe_read. intros h a Ha E. eapply get_prop_above; eauto.
Qed.

Lemma safe_map (C : Prop) {A B} (m : M A) (g : A -> B) (Q : A -> Prop) (R : B -> Prop) :
  safe_if C b m Q -> (forall a, Q a -> R (g a)) ->
  safe_if C b (let* a := m in ret (g a)) R.
Proof.
  intros Hm Hg h Ha Hb. destruct (Hm h Ha Hb) as [F G]. unfold bind.
  destruct (m h) as [[a|e|] h1]; simpl in *.
  - split; [done|]. intros c. destruct (G c) as [G1 G2]. split; [done|].
    intros y [= <-]. auto.
  - split; [done|]. intros c. split; [by apply G|discriminate].
  - split; [done|]. intros c. split; [by apply G|discriminate].
Qed.

Lemma objOps_add_safe target k :
  val_above b target ->
  safe_if (val_above b (value this)) b (objOps_add this target k document) (result_above b).
Proof.
  intros Ht. unfold objOps_add.
  apply (safe_map _ _ (fun _ => result_doc document) (fun _ => True)).
  - by apply set_step_safe.
  - intros _ _. by apply result_doc_above.
Qed.

Lemma objOps_remove_safe target k :
  val_above b target ->
  safe_if True b (objOps_remove this target k document) (result_above b).
Proof.
  intros Ht. unfold objOps_remove.
  eapply safe_bind; [by apply get_step_safe|]. intros old Hold.
  apply (safe_map _ _ (fun _ => mkResult document old None None VUndef) (fun _ => True)).
  - apply safe_write. intros h h' Ha E.
    destruct (delete_prop_safe _ _ _ _ _ Ha Ht E). auto.
  - intros _ _. repeat split; auto.
Qed.

Lemma objOps_replace_safe target k :
  val_above b target ->
  safe_if (val_above b (value this)) b (objOps_replace this target k document)
    (result_above b).
Proof.
  intros Ht. unfold objOps_replace.
  eapply safe_bind; [by apply get_step_safe|]. intros old Hold.
  apply (safe_map _ _ (fun _ => mkResult document old None None VUndef) (fun _ => True)).
  - by apply set_step_safe.
  - intros _ _. repeat split; auto.
Qed.

Lemma objOps_move_safe target k :
  safe_if True b (objOps_move applyOperation_default this target k document)
    (result_above b).
Proof.
  unfold objOps_move.
  eapply safe_bind; [by apply getValueByPointer_with_safe|]. intros ov Hov.
  eapply (safe_bind _ _ _ _ (val_above b)).
  { destruct (negb (falsy ov)); [apply deepClone_safe|by apply safe_ret]. }
  intros ov' Hov'.
  eapply safe_bind; [apply default_safe; simpl; auto; discriminate|].
  intros r (_ & Hr & _).
  eapply safe_bind; [apply default_safe; simpl; auto; discriminate|].
  intros _ _. apply safe_ret. repeat split; auto.
Qed.

Lemma objOps_copy_safe target k :
  safe_if True b (objOps_copy applyOperation_default this target k document)
    (result_above b).
Proof.
  unfold objOps_copy.
  eapply safe_bind; [by apply getValueByPointer_with_safe|]. intros v Hv.
  eapply safe_bind; [apply deepClone_safe|]. intros c Hc.
  eapply safe_bind; [apply default_safe; simpl; auto; discriminate|].
  intros _ _. by apply safe_ret, result_doc_above.
Qed.

Lemma objOps_test_safe target k :
  val_above b target ->
  safe_if True b (objOps_test this target k document) (result_above b).
Proof.
  intros Ht. unfold objOps_test.
  eapply safe_bind; [by apply get_step_safe|]. intros v Hv.
  eapply safe_bind; [apply (safe_read _ _ _ (fun _ => True)); auto|]. intros t _.
  apply safe_ret. repeat split; auto.
Qed.

Lemma objOps__get_safe target k :
  val_above b target ->
  safe_if True b (objOps__get this target k document) (result_above b).
Proof.
  intros Ht. unfold objOps__get.
  eapply safe_bind; [by apply get_step_safe|]. intros v Hv.
  apply safe_ret. repeat split; auto.
Qed.

Lemma arrOps_add_safe target k :
  val_above b target ->
  safe_if (val_above b (value this)) b (arrOps_add this target k document) (result_above b).
Proof.
  intros Ht. unfold arrOps_add.
  apply (safe_map _ _ (fun _ => mkResult document VUndef None (Some k) VUndef)
           (fun _ => True)).
  - destruct (isInteger (key_name k)); [|by apply set_step_safe].
    apply (safe_map _ _ (fun _ => tt) (vals_above b)); [|done].
    apply splice_step_safe; [done|]. intros Hv.
    apply vals_above_cons; [done|apply vals_above_nil].
  - intros _ _. repeat split; auto.
Qed.

Lemma arrOps_remove_safe target k :
  val_above b target ->
  safe_if True b (arrOps_remove this target k document) (result_above b).
Proof.
  intros Ht. unfold arrOps_remove.
  apply (safe_map _ _ (fun removedList =>
            mkResult document (default VUndef (removedList !! 0%nat)) None None VUndef)
           (vals_above b)).
  - apply splice_step_safe; [done|]. intros _. apply vals_above_nil.
  - intros l Hl. repeat split; auto. simpl.
    destruct l as [|x r]; simpl; [done|]. apply Hl. by left.
Qed.

Lemma arrOps_replace_safe target k :
  val_above b target ->
  safe_if (val_above b (value this)) b (arrOps_replace this target k document)
    (result_above b).
Proof. apply objOps_replace_safe. Qed.

Lemma operator_safe table f target k :
  table = objOps applyOperation_default \/ table = arrOps applyOperation_default ->
  table (op this) = Some f ->
  val_above b target ->
  safe_if (val_above b (value this)) b (f this target k document) (result_above b).
Proof.
  intros Htab Hf Ht.
  assert (W : forall m, safe_if True b m (result_above b) ->
                        safe_if (val_above b (value this)) b m (result_above b)).
  { intros m Hm. eapply safe_if_weaken; eauto. }
  destruct Htab as [-> | ->]; destruct (op this); cbn [objOps arrOps] in Hf;
    try discriminate;
    try (apply other_operator_stuck in Hf as ->; apply safe_stuck);
    injection Hf as <-;
    auto using objOps_add_safe, objOps_remove_safe, objOps_replace_safe,
      objOps_move_safe, objOps_copy_safe, objOps_test_safe, objOps__get_safe,
      arrOps_add_safe, arrOps_remove_safe, arrOps_replace_safe.
Qed.

End OperatorFrame.

Lemma new_Array_safe b n : safe_if True b (new_Array n) (val_above b).
Proof.
  unfold new_Array. destruct (_ && _); [|apply safe_throw].
  apply safe_new_cell. simpl. rewrite app_nil_r. apply vals_above_replicate.
Qed.

Lemma forced_resolution_safe b operation document xConfig o k keys t gp :
  val_above b o ->
  safe_if True b (forced_resolution operation document xConfig o k keys t gp)
    (fun _ => True).
Proof.
  intros Ho. unfold forced_resolution.
  destruct xConfig; [|by apply safe_ret].
  destruct (is_x operation); [|by apply safe_ret].
  eapply safe_bind; [by apply get_step_safe|]. intros v _.
  destruct (strict_eq v VUndef); [|by apply safe_ret].
  destruct (resolve operation); [|by apply safe_ret].
  eapply safe_bind; [apply (safe_get_heap _ _ (fun _ => True)); auto|]. intros h _.
  eapply (safe_bind _ _ _ _ (val_above b)).
  { destruct (_ && _); [apply new_Array_safe|].
    apply safe_new_cell. simpl. apply vals_above_nil. }
  intros fresh Hfresh.
  eapply safe_bind; [by apply set_step_safe|]. intros _ _. by apply safe_ret.
Qed.

(** ** The traversal writes only where it is pointed *)

Section WalkFrame.

Variable b : nat.
Variable reg : gmap string XConfig.
Variable applyOperation_default : val -> Operation -> M Result.
Variable validate_get : option string -> val -> M (option JsonPatchErrorName).
Hypothesis default_safe :
  forall d o, op o <> Op_x -> val_above b d -> val_above b (value o) ->
    safe_if True b (applyOperation_default d o) (result_above b).

Variable operation : Operation.
Variable validateOperation : Validation.
Variable mutateDocument ban : bool.
Variable document workingDocument : val.
Variable xConfig : option XConfig.
Variable len : nat.
Hypothesis Hvf :
  validating validateOperation = true ->
  forall i d e,
    safe_if True b
      (validateFunction reg validate_get validateOperation operation i d e)
      (fun _ => True).
Hypothesis Hdoc : (is_x operation = true -> xConfig = None) -> val_above b document.
Hypothesis Hwd : val_above b workingDocument.
Hypothesis Hloc :
  forall xc, xConfig = Some xc -> local_handler (arr xc) /\ local_handler (obj xc).
Hypothesis Hmut :
  mutateDocument = true ->
  forall xc, xConfig = Some xc ->
    declines_on operation (arr xc) /\ declines_on operation (obj xc).

Lemma existing_path_check_safe keys t o k epf :
  val_above b o ->
  safe_if True b
    (existing_path_check reg validate_get operation validateOperation document len
       keys t o k epf) (fun _ => True).
Proof.
  intros Ho. unfold existing_path_check.
  destruct (validating validateOperation) eqn:Ev; [|by apply safe_ret].
  destruct epf; [by apply safe_ret|].
  eapply safe_bind; [by apply get_step_safe|]. intros v _.
  match goal with |- context [match ?e with Some _ => _ | None => _ end] =>
    destruct e end; [|by apply safe_ret].
  eapply safe_bind; [by apply Hvf|]. intros _ _. by apply safe_ret.
Qed.

(** After a handler, whose only guarantee is the frame, nothing more is
    written. *)
Lemma safe_after_handler {A B} (m : M A) (f : A -> M B) (R : B -> Prop) :
  (forall h, above b h -> (b <= length h)%nat -> frame b h (snd (m h))) ->
  (forall h a, fst (m h) = Ok a -> forall h1, snd (f a h1) = h1) ->
  safe_if False b (bind m f) R.
Proof.
  intros Hm Hf h Ha Hb. split; [|done]. specialize (Hm h Ha Hb). unfold bind.
  destruct (m h) as [[a|e|] h1] eqn:E; simpl in *; try done.
  rewrite (Hf h a); [done|]. by rewrite E.
Qed.

Lemma graft_back_quiet result keys t gp h1 :
  mutateDocument = false ->
  snd (graft_back mutateDocument document result keys t gp h1) = h1.
Proof. intros ->. reflexivity. Qed.

Lemma extended_arr_safe xc o k keys t gp :
  xConfig = Some xc -> val_above b o ->
  safe_if False b
    (extended_arr operation mutateDocument document workingDocument xc o k keys t gp)
    (result_above b).
Proof.
  intros Hx Ho. unfold extended_arr.
  destruct (_ && _).
  { split; [apply frame_refl|done]. }
  destruct (Hloc xc Hx) as [La _].
  apply safe_after_handler.
  - intros h Ha Hb. by apply La.
  - intros h [r|] E h1; [|reflexivity].
    destruct (_ && _); [reflexivity|].
    destruct mutateDocument eqn:Em.
    + destruct (Hmut eq_refl xc Hx) as [Hd _]. by destruct (Hd _ _ _ _ _ E).
    + reflexivity.
Qed.

Lemma extended_obj_safe xc o k keys t gp :
  xConfig = Some xc -> val_above b o ->
  safe_if False b
    (extended_obj operation mutateDocument document workingDocument xc o k keys t gp)
    (result_above b).
Proof.
  intros Hx Ho. unfold extended_obj.
  eapply safe_bind; [apply (safe_read _ _ _ (fun _ => True)); auto|]. intros empty _.
  destruct (_ && _).
  { split; [apply frame_refl|done]. }
  destruct (Hloc xc Hx) as [_ Lo].
  apply safe_after_handler.
  - intros h Ha Hb. by apply Lo.
  - intros h [r|] E h1; [|reflexivity].
    destruct mutateDocument eqn:Em.
    + destruct (Hmut eq_refl xc Hx) as [_ Hd]. by destruct (Hd _ _ _ _ _ E).
    + reflexivity.
Qed.

Lemma call_operator_safe table o k :
  table = objOps applyOperation_default \/ table = arrOps applyOperation_default ->
  val_above b document ->
  val_above b o ->
  safe_if (val_above b (value operation)) b
    (call_operator operation document table o k) (result_above b).
Proof.
  intros Htab Hd Ho. unfold call_operator.
  destruct (table (op operation)) as [f|] eqn:Ef; [|apply safe_throw].
  pose proof (operator_safe b applyOperation_default default_safe operation document
                Hd table f o k Htab Ef Ho) as H.
  intros h Ha Hb. destruct (H h Ha Hb) as [F G]. unfold bind.
  destruct (f operation o k document h) as [[r|e|] h1]; simpl in *.
  - unfold test_failed. destruct (test r) as [[|]|]; simpl; (split; [done|]);
      intros c; destruct (G c) as [G1 G2]; (split; [done|]);
      try discriminate; intros a [= <-]; auto.
  - split; [done|]. intros c. split; [by apply G|discriminate].
  - split; [done|]. intros c. split; [by apply G|discriminate].
Qed.

Lemma walk_safe n : forall keys t o epf gp,
  val_above b o ->
  safe_if (stays_closed b operation) b
    (walk reg applyOperation_default validate_get operation validateOperation
       mutateDocument ban document workingDocument xConfig len n keys t o epf gp)
    (result_above b).
Proof.
  induction n as [|n IH]; intros keys t o epf gp Ho; simpl; [apply safe_stuck|].
  destruct (ban && _); [apply safe_throw|].
  eapply safe_bind; [by apply existing_path_check_safe|]. intros epf' _.
  assert (Hnext : forall k keys gp,
    safe_if (stays_closed b operation) b
      (let* graftPath := forced_resolution operation document xConfig o k keys (S t) gp in
       let* o' := read (fun h => get_prop h o k) in
       if validating validateOperation && (S t <? len)%nat && not_an_object o'
       then throw (JsonPatchError OPERATION_PATH_UNRESOLVABLE)
       else walk reg applyOperation_default validate_get operation validateOperation
              mutateDocument ban document workingDocument xConfig len n keys (S t) o'
              epf' graftPath) (result_above b)).
  { intros k keys' gp'.
    eapply safe_bind; [by apply forced_resolution_safe|]. intros gp'' _.
    eapply safe_bind; [by apply get_step_safe|]. intros o' Ho'.
    destruct (_ && _); [apply safe_throw|]. by apply IH. }
  assert (Hterm : forall table k,
    (is_x operation = true -> xConfig = None) ->
    table = objOps applyOperation_default \/ table = arrOps applyOperation_default ->
    safe_if (stays_closed b operation) b (call_operator operation document table o k) (result_above b)).
  { intros table k Hd Htab.
    eapply safe_if_weaken; [apply call_operator_safe; auto| |auto].
    by intros [_ H]. }
  assert (Hcase : xConfig = None \/ exists xc, xConfig = Some xc).
  { clear. destruct xConfig; eauto. }
  eapply safe_bind; [apply (safe_get_heap _ _ (fun _ => True)); auto|]. intros h _.
  destruct (is_array h o).
  - eapply safe_bind; [apply (safe_read _ _ _ (fun _ => True)); auto|].
    intros [[k keys'] gp'] _.
    destruct (len <=? S t)%nat; [|apply Hnext].
    destruct (is_x operation) eqn:Ex.
    + destruct Hcase as [Exc | [xc Exc]]; rewrite Exc.
      * destruct (validating validateOperation && opname_eqb (op operation) Op_add
                  && key_gt_length h o k); [apply safe_throw|].
        apply Hterm; [done|by right].
      * eapply safe_if_weaken; [by apply extended_arr_safe| |auto].
        intros [H _]. congruence.
    + destruct (validating validateOperation && opname_eqb (op operation) Op_add
                && key_gt_length h o k); [apply safe_throw|].
      apply Hterm; [congruence|by right].
  - destruct (len <=? S t)%nat; [|apply Hnext].
    destruct (is_x operation) eqn:Ex.
    + destruct Hcase as [Exc | [xc Exc]]; rewrite Exc.
      * apply Hterm; [done|by left].
      * eapply safe_if_weaken; [by apply extended_obj_safe| |auto].
        intros [H _]. congruence.
    + apply Hterm; [congruence|by left].
Qed.

End WalkFrame.

Lemma safe_ret_if (C : Prop) b {A} (a : A) (Q : A -> Prop) :
  (C -> Q a) -> safe_if C b (ret a) Q.
Proof.
  intros HQ h Ha Hb. simpl. split; [apply frame_refl|].
  intros c. split; [done|]. intros a' [= <-]. auto.
Qed.

Lemma is_x_spec o : is_x o = true <-> op o = Op_x.
Proof. unfold is_x. destruct (op o); simpl; split; congruence. Qed.

(** ** [applyOperation] on a document that lies above [b] *)

Section DispatchFrame.

Variable b : nat.
Variable reg : gmap string XConfig.
Variable applyOperation_default : val -> Operation -> M Result.
Variable validate_get : option string -> val -> M (option JsonPatchErrorName).
Hypothesis default_safe :
  forall d o, op o <> Op_x -> val_above b d -> val_above b (value o) ->
    safe_if True b (applyOperation_default d o) (result_above b).

Variable operation : Operation.
Variable validateOperation : Validation.
Variable mutateDocument ban : bool.
Hypothesis Hvf :
  validating validateOperation = true ->
  forall i d e,
    safe_if True b
      (validateFunction reg validate_get validateOperation operation i d e)
      (fun _ => True).
Hypothesis Hloc :
  forall xc, is_x operation = true -> registry_get reg (xid operation) = Some xc ->
    local_handler (arr xc) /\ local_handler (obj xc).
Hypothesis Hmut :
  mutateDocument = true ->
  forall xc, is_x operation = true -> registry_get reg (xid operation) = Some xc ->
    declines_on operation (arr xc) /\ declines_on operation (obj xc).

Lemma validate_first_safe document :
  safe_if True b (validate_first reg validate_get document operation validateOperation)
    (fun _ => True).
Proof.
  unfold validate_first. destruct validateOperation as [| |f] eqn:E.
  - by apply safe_ret.
  - apply (Hvf eq_refl).
  - apply (Hvf eq_refl).
Qed.

(** The part of [applyOperation] after the clone of [mutate = false], on a
    path that is not the root. *)
Lemma traversal_safe document :
  (is_x operation = false -> val_above b document) ->
  safe_if (stays_closed b operation) b
    (let keys := Str.split "/" (default "" (path operation)) in
     let len := length keys in
     if is_x operation then
       match registry_get reg (xid operation) with
       | None => throw (JsonPatchError OPERATION_X_OP_INVALID)
       | Some xConfig =>
           let* workingDocument := _deepClone document in
           walk reg applyOperation_default validate_get operation validateOperation
             mutateDocument ban document workingDocument (Some xConfig) len
             len keys 1 workingDocument None None
       end
     else
       walk reg applyOperation_default validate_get operation validateOperation
         mutateDocument ban document document None len
         len keys 1 document None None)
    (result_above b).
Proof.
  intros Hdoc. cbv zeta.
  destruct (is_x operation) eqn:Ex.
  - assert (Hcase : registry_get reg (xid operation) = None
                    \/ exists xc, registry_get reg (xid operation) = Some xc).
    { clear. destruct (registry_get reg (xid operation)); eauto. }
    destruct Hcase as [Er | [xc Er]]; rewrite Er; [apply safe_throw|].
    eapply safe_bind; [apply deepClone_safe|]. intros w Hw.
    apply walk_safe; auto.
    + intros Hn. discriminate (Hn Ex).
    + intros xc' [= <-]. by apply Hloc.
    + intros Hm xc' [= <-]. by apply Hmut.
  - apply walk_safe; auto; intros; discriminate.
Qed.

Lemma apply_root_safe document :
  val_above b document ->
  safe_if (stays_closed b operation) b
    (apply_root reg applyOperation_default document operation validateOperation
       mutateDocument) (result_above b).
Proof.
  intros Hdoc. unfold apply_root.
  assert (W : forall m, safe_if True b m (result_above b) ->
                        safe_if (stays_closed b operation) b m (result_above b)).
  { intros m Hm. eapply safe_if_weaken; eauto. }
  destruct (op operation) eqn:Eop.
  - apply safe_ret_if. intros [_ H]. by apply result_doc_above.
  - apply W, safe_ret. repeat split; auto.
  - apply safe_ret_if. intros [_ H]. repeat split; auto.
  - apply W. eapply safe_bind; [by apply getValueByPointer_with_safe|].
    intros v Hv. apply safe_ret. repeat split; auto.
  - apply W. eapply safe_bind; [by apply getValueByPointer_with_safe|].
    intros v Hv. by apply safe_ret, result_doc_above.
  - apply W. eapply safe_bind; [apply (safe_read _ _ _ (fun _ => True)); auto|].
    intros t _. destruct (negb t); [apply safe_throw|].
    apply safe_ret. repeat split; auto.
  - apply W, safe_ret. repeat split; auto.
  - assert (Ex : is_x operation = true) by by apply is_x_spec.
    apply (safe_if_weaken False (stays_closed b operation) b _
             (result_above b) (result_above b));
      [| unfold stays_closed; intros [H _]; congruence | auto].
    assert (Hcase : registry_get reg (xid operation) = None
                    \/ exists xc, registry_get reg (xid operation) = Some xc).
    { clear. destruct (registry_get reg (xid operation)); eauto. }
    destruct Hcase as [Er | [xc Er]]; rewrite Er; [apply safe_throw|].
    eapply (safe_bind _ _ _ _ (val_above b)).
    { destruct (negb mutateDocument); [apply deepClone_safe|by apply safe_ret]. }
    intros w Hw. destruct (resolve operation); [|split; [apply frame_refl|done]].
    destruct (Hloc xc Ex Er) as [_ Lo].
    apply safe_after_handler.
    + intros h Ha Hb. by apply Lo.
    + intros h [r|] _ h1; reflexivity.
  - destruct (validating validateOperation); [apply safe_throw|].
    by apply W, safe_ret, result_doc_above.
Qed.

Lemma applyOperation_with_safe document i :
  val_above b document ->
  safe_if (stays_closed b operation) b
    (applyOperation_with reg applyOperation_default validate_get document operation
       validateOperation mutateDocument ban i) (result_above b).
Proof.
  intros Hdoc. unfold applyOperation_with.
  eapply safe_bind; [apply validate_first_safe|]. intros _ _.
  destruct (bool_decide _); [by apply apply_root_safe|].
  eapply (safe_bind _ _ _ _ (val_above b)).
  { destruct (negb mutateDocument); [apply deepClone_safe|by apply safe_ret]. }
  intros d Hd. apply traversal_safe. auto.
Qed.

End DispatchFrame.

(** ** The inner dispatcher and the inner [validate] *)

Lemma is_x_false o : op o <> Op_x -> is_x o = false.
Proof. intros H. destruct (is_x o) eqn:E; [|done]. by apply is_x_spec in E. Qed.

Lemma stuck_callee_safe b d o :
  safe_if True b ((fun (_ : val) (_ : Operation) => @stuck Result) d o) (result_above b).
Proof. apply safe_stuck. Qed.

Lemma inner_safe b reg d o v mutate ban i :
  op o <> Op_x ->
  (validating v = true ->
   forall i d e,
     safe_if True b (validateFunction reg (fun _ _ => stuck) v o i d e) (fun _ => True)) ->
  val_above b d -> val_above b (value o) ->
  safe_if True b (applyOperation_inner reg d o v mutate ban i) (result_above b).
Proof.
  intros Hop Hvf Hd Hval.
  apply (safe_if_weaken (stays_closed b o) True b _ (result_above b) (result_above b));
    [|intros _; split; [by apply is_x_false|done]|auto].
  unfold applyOperation_inner. apply applyOperation_with_safe; auto.
  - intros d' o' _ _ _. apply safe_stuck.
  - intros xc Ex. apply is_x_spec in Ex. contradiction.
  - intros _ xc Ex. apply is_x_spec in Ex. contradiction.
Qed.

Lemma inner_default_safe b reg d o :
  op o <> Op_x -> val_above b d -> val_above b (value o) ->
  safe_if True b (inner_default reg d o) (result_above b).
Proof.
  intros Hop Hd Hv. unfold inner_default. apply inner_safe; auto. discriminate.
Qed.

Lemma catch_safe b {A} (m : M A) (Q : A -> Prop) :
  safe_if True b m Q -> safe_if True b (catch_JsonPatchError m) (fun _ => True).
Proof.
  intros Hm h Ha Hb. destruct (Hm h Ha Hb) as [F G]. destruct (G I) as [G1 _].
  unfold catch_JsonPatchError.
  destruct (m h) as [[a|[]|] h1]; simpl in *; split; auto.
Qed.

Lemma applyPatch_loop_safe b reg v ban :
  forall patch d i,
    (forall o, In o patch ->
       op o <> Op_x /\ val_above b (value o)
       /\ (validating v = true ->
           forall i d e,
             safe_if True b (validateFunction reg (fun _ _ => stuck) v o i d e)
               (fun _ => True))) ->
    val_above b d ->
    safe_if True b (applyPatch_loop (applyOperation_inner reg) d patch v ban i)
      (fun _ => True).
Proof.
  induction patch as [|o rest IH]; intros d i Hp Hd; simpl; [by apply safe_ret|].
  destruct (Hp o (or_introl eq_refl)) as (Hop & Hval & Hvf).
  eapply safe_bind; [by apply inner_safe|]. intros r (Hr & _).
  eapply safe_bind; [apply IH; auto; intros; apply Hp; by right|].
  intros rs _. by apply safe_ret.
Qed.

Lemma clone_member_safe b v : safe_if True b (clone_member v) (val_above b).
Proof.
  destruct v; simpl; try (by apply safe_ret);
    (eapply safe_bind; [apply (safe_get_heap _ _ (fun _ => True)); auto|];
     intros h _; apply json_roundtrip_safe).
Qed.

Lemma clone_operation_safe b o :
  safe_if True b (clone_operation o)
    (fun o' => op o' = op o /\ val_above b (value o')).
Proof.
  unfold clone_operation.
  eapply safe_bind; [apply clone_member_safe|]. intros v Hv.
  eapply safe_bind; [apply clone_member_safe|]. intros a Ha.
  by apply safe_ret.
Qed.

Lemma inner_validate_get_safe b reg p d :
  safe_if True b (inner_validate_get reg p d) (fun _ => True).
Proof.
  unfold inner_validate_get, validate_with.
  assert (Hval : forall o i d e, op o = Op_get ->
            safe_if True b (validator reg (fun _ _ => stuck) o i d e) (fun _ => True)).
  { intros o i d' e Ho. apply validator_safe.
    - intros. apply safe_stuck.
    - intros xc Hx. congruence. }
  apply (catch_safe b _ (fun _ => True)). unfold validate_body.
  destruct (negb (falsy d)).
  - eapply safe_bind; [apply deepClone_safe|]. intros c Hc.
    eapply safe_bind.
    { apply (safe_mapM b _ (fun o' => op o' = Op_get /\ val_above b (value o'))).
      intros o [<-|[]]. apply clone_operation_safe. }
    intros s Hs.
    eapply safe_bind; [|intros; by apply safe_ret].
    unfold applyPatch_with.
    eapply safe_bind; [simpl; by apply (safe_ret _ _ _ (val_above b))|].
    intros c' Hc'.
    apply applyPatch_loop_safe; [|done].
    intros o Ho. destruct (Hs o Ho) as [Ho1 Ho2].
    split; [congruence|]. split; [done|].
    intros _ i' d' e. by apply Hval.
  - simpl. eapply safe_bind; [by apply Hval|]. intros _ _. by apply safe_ret.
Qed.

(** ** Reading through a pointer writes nothing *)

Lemma quiet_ret {A} (a : A) : quiet (ret a).
Proof. by intros h. Qed.

Lemma quiet_throw {A} e : quiet (@throw A e).
Proof. by intros h. Qed.

Lemma quiet_stuck {A} : quiet (@stuck A).
Proof. by intros h. Qed.

Lemma quiet_read {A} (f : list cell -> res A) : quiet (read f).
Proof. by intros h. Qed.

Lemma quiet_get_heap : quiet get_heap.
Proof. by intros h. Qed.

Lemma quiet_bind {A B} (m : M A) (f : A -> M B) :
  quiet m -> (forall a, quiet (f a)) -> quiet (bind m f).
Proof.
  intros Hm Hf h. unfold bind. specialize (Hm h).
  destruct (m h) as [[a|e|] h1]; simpl in *; subst; auto. apply Hf.
Qed.

Create HintDb quiet.

#[local] Hint Resolve quiet_ret quiet_throw quiet_stuck quiet_read quiet_get_heap : quiet.

Section WalkQuiet.

Variable reg : gmap string XConfig.
Variable applyOperation_default : val -> Operation -> M Result.
Variable validate_get : option string -> val -> M (option JsonPatchErrorName).
Variable operation : Operation.
Variable mutateDocument ban : bool.
Variable document workingDocument : val.
Variable len : nat.
Hypothesis Hop : reads_only (op operation).

Lemma reads_only_not_x : is_x operation = false.
Proof. unfold is_x. destruct Hop as [-> | ->]; reflexivity. Qed.

Lemma call_operator_quiet table o k :
  table = objOps applyOperation_default \/ table = arrOps applyOperation_default ->
  quiet (call_operator operation document table o k).
Proof.
  intros Htab. unfold call_operator.
  assert (E : table (op operation) = Some objOps__get
              \/ table (op operation) = Some objOps_test).
  { destruct Htab as [-> | ->]; destruct Hop as [-> | ->]; simpl; auto. }
  destruct E as [-> | ->].
  - apply quiet_bind; [|intros r; unfold test_failed; destruct (test r) as [[|]|]; auto with quiet].
    unfold objOps__get. apply quiet_bind; auto with quiet.
  - apply quiet_bind; [|intros r; unfold test_failed; destruct (test r) as [[|]|]; auto with quiet].
    unfold objOps_test. apply quiet_bind; auto with quiet.
    intros v. apply quiet_bind; auto with quiet.
Qed.

Lemma walk_quiet n : forall keys t o epf gp,
  quiet (walk reg applyOperation_default validate_get operation NoValidation
           mutateDocument ban document workingDocument None len n keys t o epf gp).
Proof.
  induction n as [|n IH]; intros keys t o epf gp; simpl; [apply quiet_stuck|].
  destruct (ban && _); [apply quiet_throw|].
  rewrite reads_only_not_x.
  apply quiet_bind; [unfold existing_path_check; simpl; auto with quiet|]. intros epf'.
  apply quiet_bind; [auto with quiet|]. intros h.
  assert (Hnext : forall k keys gp,
    quiet (let* graftPath := forced_resolution operation document None o k keys (S t) gp in
           let* o' := read (fun h => get_prop h o k) in
           if false && (S t <? len)%nat && not_an_object o'
           then throw (JsonPatchError OPERATION_PATH_UNRESOLVABLE)
           else walk reg applyOperation_default validate_get operation NoValidation
                  mutateDocument ban document workingDocument None len n keys (S t) o'
                  epf' graftPath)).
  { intros k keys' gp'. apply quiet_bind; [unfold forced_resolution; auto with quiet|].
    intros gp''. apply quiet_bind; [auto with quiet|]. intros o'. simpl. apply IH. }
  destruct (is_array h o).
  - apply quiet_bind; [auto with quiet|]. intros [[k keys'] gp'].
    destruct (len <=? S t)%nat; [|apply Hnext].
    simpl. apply call_operator_quiet. by right.
  - destruct (len <=? S t)%nat; [|apply Hnext].
    apply call_operator_quiet. by left.
Qed.

End WalkQuiet.

Lemma inner_default_get_quiet reg d p :
  quiet (inner_default reg d (mkOp Op_get p None VUndef None VUndef false)).
Proof.
  unfold inner_default, applyOperation_inner, applyOperation_with.
  apply quiet_bind; [simpl; auto with quiet|]. intros _.
  destruct (bool_decide _); [simpl; auto with quiet|].
  apply quiet_bind; [simpl; auto with quiet|]. intros d'.
  cbv zeta. change (is_x _) with false. cbv iota.
  apply walk_quiet. simpl. by left.
Qed.

Lemma getValueByPointer_quiet reg d p : quiet (getValueByPointer reg d p).
Proof.
  unfold getValueByPointer, getValueByPointer_with.
  assert (H : quiet (let* r := inner_default reg d
                                 (mkOp Op_get p None VUndef None VUndef false) in
                     ret (got r))).
  { apply quiet_bind; [apply inner_default_get_quiet|auto with quiet]. }
  destruct p as [[|]|]; auto with quiet.
Qed.

(** ** The exported dispatcher *)

Lemma safe_false_of_quiet b {A} (m : M A) (Q : A -> Prop) :
  quiet m -> safe_if False b m Q.
Proof. intros Hm h _ _. rewrite Hm. split; [apply frame_refl|done]. Qed.

Lemma safe_false_of_safe (C : Prop) b {A} (m : M A) (Q Q' : A -> Prop) :
  safe_if C b m Q -> safe_if False b m Q'.
Proof. intros Hm h Ha Hb. destruct (Hm h Ha Hb) as [F _]. split; [done|tauto]. Qed.

Section ExportedFrame.

Variable b : nat.
Variable reg : gmap string XConfig.
Variable v : Validation.
Hypothesis reg_local : registry_local reg.
Hypothesis reg_pure : registry_pure_validators reg.
Hypothesis v_pure : validation_pure v.

Lemma exported_validateFunction_safe o i d e :
  safe_if True b (validateFunction reg (inner_validate_get reg) v o i d e) (fun _ => True).
Proof.
  assert (H : safe_if True b (validator reg (inner_validate_get reg) o i d e)
                (fun _ => True)).
  { apply validator_safe.
    - intros. apply inner_validate_get_safe.
    - intros xc _ Hx. apply registry_get_Some in Hx as [id Hid]. eauto. }
  unfold validateFunction. destruct v; auto. by apply pure_validator_safe.
Qed.

Lemma exported_validate_first_safe d o :
  safe_if True b (validate_first reg (inner_validate_get reg) d o v) (fun _ => True).
Proof.
  apply validate_first_safe. intros _ i d' e. apply exported_validateFunction_safe.
Qed.

Lemma registry_get_local o xc :
  registry_get reg (xid o) = Some xc -> local_handler (arr xc) /\ local_handler (obj xc).
Proof. intros Hx. apply registry_get_Some in Hx as [id Hid]. eauto. Qed.

(** The root operations with [mutate = false], on any document. *)
Lemma apply_root_frame d o :
  safe_if False b (apply_root reg (inner_default reg) d o v false) (fun _ => True).
Proof.
  unfold apply_root.
  assert (Hg : forall p, quiet (getValueByPointer_with (inner_default reg) d p)).
  { intros p. apply (getValueByPointer_quiet reg d p). }
  destruct (op o) eqn:Eop; try (apply safe_false_of_quiet; auto with quiet; fail).
  - apply safe_false_of_quiet. apply quiet_bind; auto with quiet.
  - apply safe_false_of_quiet. apply quiet_bind; auto with quiet.
  - apply safe_false_of_quiet. apply quiet_bind; auto with quiet.
    intros t. destruct (negb t); auto with quiet.
  - destruct (registry_get reg (xid o)) as [xc|] eqn:Er; [|apply safe_throw].
    eapply safe_bind; [apply deepClone_safe|]. intros w Hw.
    destruct (resolve o); [|apply safe_false_of_quiet; auto with quiet].
    destruct (registry_get_local o xc Er) as [_ Lo].
    apply safe_after_handler.
    + intros h Ha Hb. by apply Lo.
    + intros h [r|] _ h1; reflexivity.
  - destruct (validating v); apply safe_false_of_quiet; auto with quiet.
Qed.

(** With [mutate = false] every cell below [b] is left as it was. *)
Lemma applyOperation_copy_on_write d o ban i :
  safe_if False b (applyOperation reg d o v false ban i) (fun _ => True).
Proof.
  unfold applyOperation, applyOperation_with.
  eapply safe_bind; [apply exported_validate_first_safe|]. intros _ _.
  destruct (bool_decide _); [apply apply_root_frame|].
  eapply safe_bind; [apply deepClone_safe|]. intros c Hc.
  eapply safe_false_of_safe. apply traversal_safe; auto.
  - intros d' o' Ho' Hd' Hv'. by apply inner_default_safe.
  - intros _ i' d' e. apply exported_validateFunction_safe.
  - intros xc _ Hx. by apply (registry_get_local o).
  - discriminate.
Qed.

End ExportedFrame.

(** ** The sample registry satisfies what is assumed of user code *)

Lemma local_of_safe (f : Handler) :
  (forall b this o k wd, val_above b o -> val_above b wd ->
     safe_if False b (f this o k wd) (fun _ => True)) ->
  local_handler f.
Proof. intros H b this o k wd h Ha Hb Ho Hwd. by apply (H b this o k wd Ho Hwd h). Qed.

Lemma removing_handler_local : local_handler removing_handler.
Proof.
  apply local_of_safe. intros b this o k wd Ho Hwd. unfold removing_handler.
  eapply safe_bind; [by apply get_step_safe|]. intros old _.
  eapply safe_bind; [|intros; apply safe_false_of_quiet; auto with quiet].
  apply safe_write. intros h h' Ha E.
  destruct (delete_prop_safe _ _ _ _ _ Ha Ho E). auto.
Qed.

Lemma scribbling_handler_local : local_handler scribbling_handler.
Proof.
  apply local_of_safe. intros b this o k wd Ho Hwd. unfold scribbling_handler.
  intros h Ha Hb. split; [|done]. unfold bind, write.
  destruct (set_prop h o k (value this)) as [h'|e|] eqn:E; simpl;
    try apply frame_refl.
  by destruct (set_prop_safe _ _ _ _ _ _ Ha Ho E).
Qed.

Lemma scribbling_handler_declines : declines scribbling_handler.
Proof.
  intros this o k wd h r. unfold scribbling_handler, bind, write.
  destruct (set_prop h o k (value this)); simpl; discriminate.
Qed.

Lemma constant_handler_local v : local_handler (constant_handler v).
Proof. intros b this o k wd h _ _ _ _. apply frame_refl. Qed.

Lemma sample_registry_cases id xc :
  sample_registry !! id = Some xc ->
  xc = mkXConfig removing_handler removing_handler accepting_validator
  \/ xc = mkXConfig scribbling_handler scribbling_handler accepting_validator
  \/ xc = mkXConfig (constant_handler (VNum 1)) (constant_handler (VNum 1))
            accepting_validator.
Proof.
  unfold sample_registry. intros H.
  apply lookup_insert_Some in H as [[_ <-]|[_ H]]; [auto|].
  apply lookup_insert_Some in H as [[_ <-]|[_ H]]; [auto|].
  apply lookup_insert_Some in H as [[_ <-]|[_ H]]; [auto|].
  by rewrite lookup_empty in H.
Qed.

Lemma sample_registry_local : registry_local sample_registry.
Proof.
  intros id xc H. apply sample_registry_cases in H as [-> | [-> | ->]]; simpl;
    auto using removing_handler_local, scribbling_handler_local, constant_handler_local.
Qed.

Lemma sample_registry_pure : registry_pure_validators sample_registry.
Proof.
  intros id xc H. apply sample_registry_cases in H as [-> | [-> | ->]]; simpl;
    by intros o i d e h.
Qed.

(** ** What a run returns *)

Lemma returns_ret {A} (a : A) (P : A -> Prop) : P a -> returns (ret a) P.
Proof. intros HP h a' h' [= <- _]. exact HP. Qed.

Lemma returns_throw {A} e (P : A -> Prop) : returns (throw e) P.
Proof. intros h a h' [=]. Qed.

Lemma returns_stuck {A} (P : A -> Prop) : returns (@stuck A) P.
Proof. intros h a h' [=]. Qed.

Lemma returns_bind {A B} (m : M A) (f : A -> M B) (Q : A -> Prop) (P : B -> Prop) :
  returns m Q -> (forall a, Q a -> returns (f a) P) -> returns (bind m f) P.
Proof.
  intros Hm Hf h y h'. unfold bind.
  destruct (m h) as [[a|e|] h1] eqn:E; try discriminate.
  intros H. eapply Hf; eauto.
Qed.

Lemma returns_any {A} (m : M A) : returns m (fun _ => True).
Proof. by intros h a h' _. Qed.

Lemma returns_bind_any {A B} (m : M A) (f : A -> M B) (P : B -> Prop) :
  (forall a, returns (f a) P) -> returns (bind m f) P.
Proof. intros Hf. eapply returns_bind; [apply returns_any|auto]. Qed.

(** ** A handler that declines *)

(** The sentinels are the only components that are rewritten in [keys]. *)
Lemma array_key_keys operation v h o keys t k gp k' keys' gp' :
  array_key operation v h o keys t k gp = Ok (k', keys', gp') ->
  keys' = keys
  \/ ((key_is k "-" = true \/ key_is k "--" = true)
      /\ exists s, keys' = <[(t - 1)%nat := s]> keys).
Proof.
  unfold array_key.
  destruct (is_x operation && negb (resolve operation) && key_is k ""); [discriminate|].
  destruct (key_is k "-") eqn:E1.
  { destruct (is_x operation); intros H; inversion H; subst; eauto. }
  destruct (is_x operation && key_is k "--") eqn:E2.
  { apply andb_true_iff in E2 as [_ E2]. intros H; inversion H; subst; eauto. }
  destruct k as [|s|n]; try discriminate.
  destruct (validating v && negb (isInteger s)); [discriminate|].
  destruct (isInteger s).
  - cbv zeta.
    match goal with |- context [if ?c then Throw out_of_bounds else _] => destruct c end;
      [discriminate|]. intros H; inversion H; subst; auto.
  - intros H; inversion H; subst; auto.
Qed.

Lemma replace_tilde_nil d r l : Str.replace_tilde d r l = [] -> l = [].
Proof.
  destruct l as [|c [|c' rest]]; cbn [Str.replace_tilde]; try done.
  by destruct (_ && _).
Qed.

Lemma unescape_empty s : unescapePathComponent s = "" -> s = "".
Proof.
  unfold unescapePathComponent, Str.of_chars, Str.chars. intros H.
  assert (E : Str.replace_tilde "0" "~" (Str.replace_tilde "1" "/" (list_ascii_of_string s)) = []).
  { destruct (Str.replace_tilde _ _ _); [done|discriminate]. }
  apply replace_tilde_nil, replace_tilde_nil in E.
  destruct s; [done|discriminate].
Qed.

Lemma key_at_empty keys t : key_at keys t = KStr "" -> keys !! t = Some "".
Proof.
  unfold key_at. destruct (keys !! t) as [s|]; [|discriminate].
  destruct (negb (String.eqb s "") && Str.has_char "~" s) eqn:E.
  - intros [= H]. apply unescape_empty in H. by subst.
  - by intros [= ->].
Qed.

Lemma key_length_is_zero_true k : key_length_is_zero k = Ok true -> k = KStr "".
Proof.
  destruct k as [|s|n]; cbn; try discriminate.
  intros [= H]. by apply String.eqb_eq in H as ->.
Qed.

Section WalkDeclines.

Variable reg : gmap string XConfig.
Variable applyOperation_default : val -> Operation -> M Result.
Variable validate_get : option string -> val -> M (option JsonPatchErrorName).
Variable operation : Operation.
Variable validateOperation : Validation.
Variable mutateDocument ban : bool.
Variable document workingDocument : val.
Variable xc : XConfig.
Variable len : nat.
Hypothesis Hx : is_x operation = true.
Hypothesis Hdecl : declines_on operation (arr xc) /\ declines_on operation (obj xc).

Lemma extended_arr_declines o k keys t gp :
  key_is k "" && negb (resolve operation) = false ->
  returns (extended_arr operation mutateDocument document workingDocument xc o k keys t gp)
    (fun r => r = result_doc document).
Proof.
  intros E. unfold extended_arr. rewrite E.
  intros h r h'. unfold bind.
  destruct (arr xc operation o k workingDocument h) as [[[res|]|e|] h1] eqn:Ea;
    try discriminate.
  - destruct Hdecl as [Hd _]. destruct (Hd o k workingDocument h res). by rewrite Ea.
  - by intros [= <- _].
Qed.

Lemma extended_obj_declines o k keys t gp :
  returns (extended_obj operation mutateDocument document workingDocument xc o k keys t gp)
    (fun r => r = result_doc document
              \/ (resolve operation = false /\ k = KStr ""
                  /\ r = result_doc (value operation))).
Proof.
  unfold extended_obj. intros h r h'. unfold bind at 1, read at 1.
  destruct (key_length_is_zero k) as [empty| |] eqn:Ek; try discriminate.
  destruct (empty && negb (resolve operation)) eqn:E.
  - intros [= <- _]. right. apply andb_true_iff in E as [-> E].
    split; [by destruct (resolve operation)|]. split; [|done].
    by apply key_length_is_zero_true.
  - unfold bind.
    destruct (obj xc operation o k workingDocument h) as [[[res|]|e|] h1] eqn:Ea;
      try discriminate.
    + destruct Hdecl as [_ Hd]. destruct (Hd o k workingDocument h res). by rewrite Ea.
    + intros [= <- _]. by left.
Qed.

(** In a list the converted key is never the empty string when [resolve]
    is not set: the empty component has been refused. *)
Lemma array_key_not_empty h o keys t k gp k' keys' gp' :
  array_key operation validateOperation h o keys t k gp = Ok (k', keys', gp') ->
  key_is k' "" && negb (resolve operation) = false.
Proof.
  unfold array_key. rewrite Hx. cbn [andb].
  destruct (resolve operation); [by rewrite andb_false_r|]. cbn [negb andb].
  rewrite andb_true_r.
  destruct (key_is k "") eqn:Ee; [discriminate|].
  destruct (key_is k "-"); [by intros [= <- _ _]|].
  destruct (key_is k "--"); [by intros [= <- _ _]|].
  destruct k as [|s|n]; try discriminate.
  destruct (validating validateOperation && negb (isInteger s)); [discriminate|].
  destruct (isInteger s).
  - destruct (_ <=? _); [discriminate|]. by intros [= <- _ _].
  - intros [= <- _ _]. exact Ee.
Qed.

Lemma walk_declines n : forall keys t o epf gp,
  length keys = len ->
  returns (walk reg applyOperation_default validate_get operation validateOperation
             mutateDocument ban document workingDocument (Some xc) len n keys t o epf gp)
    (declined operation keys document).
Proof.
  induction n as [|n IH]; intros keys t o epf gp Hlen; [apply returns_stuck|].
  cbn [walk].
  destruct (ban && _); [apply returns_throw|].
  apply returns_bind_any. intros epf'.
  apply returns_bind_any. intros h. rewrite Hx.
  assert (Hnext : forall k keys' gp',
    length keys' = len -> last keys' = last keys ->
    returns
      (let* graftPath := forced_resolution operation document (Some xc) o k keys' (S t) gp' in
       let* o' := read (fun h => get_prop h o k) in
       if validating validateOperation && (S t <? len)%nat && not_an_object o'
       then throw (JsonPatchError OPERATION_PATH_UNRESOLVABLE)
       else walk reg applyOperation_default validate_get operation validateOperation
              mutateDocument ban document workingDocument (Some xc) len n keys' (S t) o'
              epf' graftPath) (declined operation keys document)).
  { intros k keys' gp' Hlen' Hlast. apply returns_bind_any. intros gp''.
    apply returns_bind_any. intros o'.
    destruct (_ && _); [apply returns_throw|].
    intros h0 r h0' Hw. apply (IH keys' _ _ _ _ Hlen') in Hw.
    destruct Hw as [-> | (Hr & Hl & ->)]; [by left|]. right.
    split; [done|]. split; [|done]. by rewrite <- Hlast. }
  destruct (is_array h o).
  - intros h0 r h0'. unfold bind at 1, read at 1.
    destruct (array_key operation validateOperation h0 o keys (S t) (key_at keys t) gp)
      as [[[k keys'] gp']| |] eqn:Ek; try discriminate.
    destruct (len <=? S t)%nat eqn:El.
    + intros Hr. left.
      eapply extended_arr_declines; [|exact Hr]. eapply array_key_not_empty, Ek.
    + apply Nat.leb_gt in El.
      apply Hnext.
      * apply array_key_keys in Ek as [-> | (_ & s & ->)]; [done|].
        by rewrite length_insert.
      * apply array_key_keys in Ek as [-> | (_ & s & ->)]; [done|].
        rewrite !last_lookup, length_insert, list_lookup_insert_ne; [done|].
        cbn. lia.
  - destruct (len <=? S t)%nat eqn:El; [|by apply Hnext].
    apply Nat.leb_le in El.
    intros h0 r h0' Hr. apply extended_obj_declines in Hr.
    destruct Hr as [-> | (Hr & Hk & ->)]; [by left|]. right.
    split; [done|]. split; [|done].
    apply key_at_empty in Hk. apply lookup_lt_Some in Hk as Hlt.
    rewrite last_lookup. replace (pred (length keys)) with t by lia. done.
Qed.

End WalkDeclines.

Lemma validate_first_x_quiet reg vg d o v :
  op o = Op_x -> registry_pure_validators reg -> validation_pure v ->
  quiet (validate_first reg vg d o v).
Proof.
  intros Hop Hp Hv. unfold validate_first. destruct v as [| |f]; simpl in Hv.
  - apply quiet_ret.
  - unfold validator. rewrite Hop.
    destruct (negb _); [apply quiet_throw|].
    destruct (registry_get reg (xid o)) as [xc|] eqn:Er; [|apply quiet_throw].
    destruct (path o) as [p|]; [|apply quiet_throw].
    destruct (path_starts_badly p); [apply quiet_throw|].
    destruct (String.eqb p "/"); [apply quiet_throw|].
    apply quiet_bind; [apply quiet_get_heap|]. intros h0.
    destruct (_ && _); [apply quiet_throw|].
    apply registry_get_Some in Er as [id Hid]. intros h. by apply (Hp id xc Hid).
  - intros h. apply Hv.
Qed.

(** ** Extended operations that decline *)



Lemma declining_registry_cases id xc :
  declining_registry !! id = Some xc ->
  xc = mkXConfig scribbling_handler scribbling_handler accepting_validator.
Proof.
  unfold declining_registry. intros H.
  apply lookup_insert_Some in H as [[_ <-]|[_ H]]; [done|].
  by rewrite lookup_empty in H.
Qed.


(** * The guard against prototype pollution *)

Lemma key_at_constructor keys t :
  keys !! t = Some "constructor" -> key_at keys t = KStr "constructor".
Proof. unfold key_at. by intros ->. Qed.

(** A banned component further on stays banned when the current component
    is rewritten. *)
Lemma banned_after_rewrite keys t t0 s :
  (t < t0)%nat ->
  key_is (key_at keys t) "-" = true \/ key_is (key_at keys t) "--" = true ->
  banned keys t0 (key_at keys t0) = true ->
  banned (<[t := s]> keys) t0 (key_at (<[t := s]> keys) t0) = true.
Proof.
  intros Ht Hs. unfold banned.
  assert (Hk : key_at (<[t := s]> keys) t0 = key_at keys t0).
  { unfold key_at. rewrite list_lookup_insert_ne by lia. done. }
  rewrite Hk. destruct (key_is (key_at keys t0) "__proto__"); [done|]. simpl.
  destruct (key_is (key_at keys t0) "prototype"); [|done]. simpl.
  destruct (0 <? t0)%nat; [|done]. simpl.
  destruct (decide (keys !! (t0 - 1)%nat = Some "constructor")) as [Hc|Hc].
  - destruct (decide (t0 - 1 = t)%nat) as [<-|Hne].
    + apply key_at_constructor in Hc. rewrite Hc in Hs. by destruct Hs.
    + rewrite list_lookup_insert_ne by done. done.
  - rewrite (bool_decide_eq_false_2 _ Hc). discriminate.
Qed.

Lemma banned_in_range keys t0 k :
  banned keys t0 k = true -> k = key_at keys t0 -> (t0 < length keys)%nat.
Proof.
  intros Hb ->. apply lookup_lt_is_Some.
  unfold banned, key_at in Hb. destruct (keys !! t0); [eauto|discriminate].
Qed.

Section WalkBanned.

Variable b : nat.
Variable reg : gmap string XConfig.
Variable applyOperation_default : val -> Operation -> M Result.
Variable validate_get : option string -> val -> M (option JsonPatchErrorName).
Variable operation : Operation.
Variable validateOperation : Validation.
Variable mutateDocument : bool.
Variable document workingDocument : val.
Variable xConfig : option XConfig.
Variable len t0 : nat.
Hypothesis Hvf :
  validating validateOperation = true ->
  forall i d e,
    safe_if True b
      (validateFunction reg validate_get validateOperation operation i d e)
      (fun _ => True).
Hypothesis Ht0 : (t0 < len)%nat.

Lemma existing_path_check_safe_any keys t o k epf :
  safe_if True b
    (existing_path_check reg validate_get operation validateOperation document len
       keys t o k epf) (fun _ => True).
Proof.
  unfold existing_path_check.
  destruct (validating validateOperation) eqn:Ev; [|by apply safe_ret].
  destruct epf; [by apply safe_ret|].
  eapply safe_bind; [apply (safe_read _ _ _ (fun _ => True)); auto|]. intros v _.
  match goal with |- context [match ?e with Some _ => _ | None => _ end] =>
    destruct e end; [|by apply safe_ret].
  eapply safe_bind; [by apply Hvf|]. intros _ _. by apply safe_ret.
Qed.

Lemma forced_resolution_safe_x o k keys t gp :
  (is_x operation = true -> val_above b o) ->
  safe_if True b (forced_resolution operation document xConfig o k keys t gp)
    (fun _ => True).
Proof.
  intros Ho. destruct (is_x operation) eqn:Ex.
  - apply forced_resolution_safe. auto.
  - unfold forced_resolution. rewrite Ex. destruct xConfig; by apply safe_ret.
Qed.

(** With a banned component ahead, the traversal does not return, and up to
    the guard it writes nothing but cells of its own. *)
Lemma walk_banned n : forall keys t o epf gp,
  (t <= t0)%nat ->
  banned keys t0 (key_at keys t0) = true ->
  (is_x operation = true -> val_above b o) ->
  safe_if True b
    (walk reg applyOperation_default validate_get operation validateOperation
       mutateDocument true document workingDocument xConfig len n keys t o epf gp)
    (fun _ => False).
Proof.
  induction n as [|n IH]; intros keys t o epf gp Ht Hb Ho; [apply safe_stuck|].
  cbn [walk]. rewrite andb_true_l.
  destruct (banned keys t (key_at keys t)) eqn:Eb; [apply safe_throw|].
  assert (Hlt : (t < t0)%nat).
  { destruct (decide (t = t0)) as [->|]; [congruence|lia]. }
  assert (Hlen : (len <=? S t)%nat = false) by (apply Nat.leb_gt; lia).
  rewrite Hlen.
  eapply safe_bind; [apply existing_path_check_safe_any|]. intros epf' _.
  assert (Hnext : forall k keys',
    banned keys' t0 (key_at keys' t0) = true -> forall gp',
    safe_if True b
      (let* graftPath := forced_resolution operation document xConfig o k keys' (S t) gp' in
       let* o' := read (fun h => get_prop h o k) in
       if validating validateOperation && (S t <? len)%nat && not_an_object o'
       then throw (JsonPatchError OPERATION_PATH_UNRESOLVABLE)
       else walk reg applyOperation_default validate_get operation validateOperation
              mutateDocument true document workingDocument xConfig len n keys' (S t) o'
              epf' graftPath) (fun _ => False)).
  { intros k keys' Hb' gp'.
    eapply safe_bind; [by apply forced_resolution_safe_x|]. intros gp'' _.
    eapply (safe_bind _ _ _ _ (fun o' => is_x operation = true -> val_above b o')).
    { apply safe_read. intros h a Ha E Hx. eapply get_prop_above; eauto. }
    intros o' Ho'. destruct (_ && _); [apply safe_throw|].
    apply IH; auto. }
  eapply safe_bind; [apply (safe_get_heap _ _ (fun _ => True)); auto|]. intros h _.
  destruct (is_array h o).
  - eapply (safe_bind _ _ _ _
              (fun kkg => banned (snd (fst kkg)) t0 (key_at (snd (fst kkg)) t0) = true)).
    { apply safe_read. intros h' [[k' keys'] gp'] _ E. simpl.
      apply array_key_keys in E as [->|[Hs [s ->]]]; [done|].
      replace (S t - 1)%nat with t by lia. by apply banned_after_rewrite. }
    intros [[k' keys'] gp'] Hb'. simpl in Hb'. by apply Hnext.
  - by apply Hnext.
Qed.

End WalkBanned.

(** ** What is thrown *)

Lemma throws_ret P {A} (a : A) : throws_only P (ret a).
Proof. intros h e h' [=]. Qed.

Lemma throws_stuck P {A} : throws_only P (@stuck A).
Proof. intros h e h' [=]. Qed.

Lemma throws_throw (P : exn -> Prop) {A} e : P e -> throws_only P (@throw A e).
Proof. intros HP h e' h' [= <- _]. exact HP. Qed.

Lemma throws_get_heap P : throws_only P get_heap.
Proof. intros h e h' [=]. Qed.

Lemma throws_read (P : exn -> Prop) {A} (f : list cell -> res A) :
  (forall h e, f h = Throw e -> P e) -> throws_only P (read f).
Proof. intros Hf h e h' [= E _]. eauto. Qed.

Lemma throws_bind P {A B} (m : M A) (f : A -> M B) :
  throws_only P m -> (forall a, throws_only P (f a)) -> throws_only P (bind m f).
Proof.
  intros Hm Hf h e h'. unfold bind.
  destruct (m h) as [[a|e0|] h1] eqn:E; try discriminate.
  - apply Hf.
  - intros [= <- _]. eapply Hm; eauto.
Qed.

Lemma throws_mapM P {A B} (f : A -> M B) (l : list A) :
  (forall x, throws_only P (f x)) -> throws_only P (mapM f l).
Proof.
  intros Hf. induction l as [|x r IH]; simpl; [apply throws_ret|].
  apply throws_bind; [apply Hf|]. intros y.
  apply throws_bind; [apply IH|]. intros ys. apply throws_ret.
Qed.

Lemma json_roundtrip_throws n v : throws_only is_TypeError (json_roundtrip n v).
Proof.
  revert v. induction n as [|n IH]; intros v.
  - destruct v; simpl; try apply throws_ret. apply throws_throw. eexists; eauto.
  - destruct v as [| | | | | |l]; simpl; try apply throws_ret.
    apply throws_bind; [apply throws_get_heap|]. intros h.
    destruct (h !! l) as [[es ps|ps]|]; [| |apply throws_stuck].
    + apply throws_bind; [by apply throws_mapM|]. intros es'.
      intros h0 e h' [=].
    + apply throws_bind.
      * apply throws_mapM. intros kv. apply throws_bind; [apply IH|].
        intros v'. apply throws_ret.
      * intros ps'. intros h0 e h' [=].
Qed.

Lemma deepClone_throws v : throws_only is_TypeError (_deepClone v).
Proof.
  destruct v; simpl; try apply throws_ret;
    (apply throws_bind; [apply throws_get_heap|]; intros h; apply json_roundtrip_throws).
Qed.

Lemma get_prop_throws h o k e : get_prop h o k = Throw e -> is_TypeError e.
Proof.
  unfold get_prop. destruct o as [| | | | |s|l]; try discriminate;
    try (intros [= <-]; eexists; eauto).
  - destruct (key_index k); [destruct (_ !! _)|destruct (String.eqb _ _)]; discriminate.
  - destruct (h !! l) as [[es ps|ps]|]; try discriminate.
    destruct (key_index k); [|destruct (String.eqb _ _)]; discriminate.
Qed.

Section WalkBannedThrows.

Variable reg : gmap string XConfig.
Variable applyOperation_default : val -> Operation -> M Result.
Variable validate_get : option string -> val -> M (option JsonPatchErrorName).
Variable operation : Operation.
Variable mutateDocument : bool.
Variable document workingDocument : val.
Variable len t0 : nat.
Hypothesis Hx : is_x operation = false.
Hypothesis Ht0 : (t0 < len)%nat.

Lemma array_key_throws h o keys t k gp e :
  array_key operation NoValidation h o keys t k gp = Throw e -> is_TypeError e.
Proof.
  unfold array_key. rewrite Hx. simpl.
  destruct (key_is k "-"); [discriminate|].
  destruct k as [|s|n]; try discriminate.
  - intros [= <-]. eexists; eauto.
  - destruct (isInteger s); discriminate.
Qed.

(** A standard operation without validation fails before the guard only
    with a [TypeError]. *)
Lemma walk_banned_throws n : forall keys t o epf gp,
  (t <= t0)%nat ->
  banned keys t0 (key_at keys t0) = true ->
  throws_only is_TypeError
    (walk reg applyOperation_default validate_get operation NoValidation
       mutateDocument true document workingDocument None len n keys t o epf gp).
Proof.
  induction n as [|n IH]; intros keys t o epf gp Ht Hb; [apply throws_stuck|].
  cbn [walk]. rewrite andb_true_l.
  destruct (banned keys t (key_at keys t)) eqn:Eb.
  { apply throws_throw. eexists; eauto. }
  assert (Hlt : (t < t0)%nat).
  { destruct (decide (t = t0)) as [->|]; [congruence|lia]. }
  assert (Hlen : (len <=? S t)%nat = false) by (apply Nat.leb_gt; lia).
  rewrite Hlen.
  apply throws_bind; [unfold existing_path_check; simpl; apply throws_ret|].
  intros epf'. apply throws_bind; [apply throws_get_heap|]. intros h.
  assert (Hnext : forall k keys',
    banned keys' t0 (key_at keys' t0) = true -> forall gp',
    throws_only is_TypeError
      (let* graftPath := forced_resolution operation document None o k keys' (S t) gp' in
       let* o' := read (fun h => get_prop h o k) in
       if validating NoValidation && (S t <? len)%nat && not_an_object o'
       then throw (JsonPatchError OPERATION_PATH_UNRESOLVABLE)
       else walk reg applyOperation_default validate_get operation NoValidation
              mutateDocument true document workingDocument None len n keys' (S t) o'
              epf' graftPath)).
  { intros k keys' Hb' gp'.
    apply throws_bind; [unfold forced_resolution; apply throws_ret|]. intros gp''.
    apply throws_bind; [apply throws_read; intros; eapply get_prop_throws; eauto|].
    intros o'. simpl. apply IH; [lia|done]. }
  destruct (is_array h o); [|by apply Hnext].
  intros h0 e h'. unfold bind at 1, read.
  destruct (array_key operation NoValidation h0 o keys (S t) (key_at keys t) gp)
    as [[[k' keys'] gp']|e0|] eqn:Ea; try discriminate.
  - apply array_key_keys in Ea as Hk. apply Hnext.
    destruct Hk as [->|[Hs [s ->]]]; [done|].
    replace (S t - 1)%nat with t by lia. by apply banned_after_rewrite.
  - intros [= <- _]. eapply array_key_throws; eauto.
Qed.

End WalkBannedThrows.

Lemma has_banned_not_root p : has_banned_component p -> p <> "".
Proof.
  intros (t0 & Ht & Hb) ->. destruct t0 as [|t0]; [lia|]. discriminate Hb.
Qed.



Lemma empty_registry_pure : registry_pure_validators ∅.
Proof. intros id xc H. by rewrite lookup_empty in H. Qed.


(** * Deep equality and the deep clone *)

Lemma deep_equal_upto_S n h1 h2 : forall a b,
  deep_equal_upto n h1 h2 a b -> deep_equal_upto (S n) h1 h2 a b.
Proof.
  induction n as [|n IH]; intros a b.
  - destruct a, b; simpl; tauto.
  - destruct a as [| | | | | |la], b as [| | | | | |lb]; try (simpl; tauto).
    intros H. change (deep_equal_upto (S (S n)) h1 h2 (VRef la) (VRef lb)) with
      (match h1 !! la, h2 !! lb with
       | Some (CArr ea _), Some (CArr eb _) =>
           Forall2 (deep_equal_upto (S n) h1 h2) ea eb
       | Some (CObj pa), Some (CObj pb) =>
           (forall k, is_Some (plookup k pa) <-> is_Some (plookup k pb))
           /\ (forall k x y, plookup k pa = Some x -> plookup k pb = Some y ->
                             deep_equal_upto (S n) h1 h2 x y)
       | _, _ => False
       end).
    simpl in H.
    destruct (h1 !! la) as [[ea pa|pa]|], (h2 !! lb) as [[eb pb|pb]|]; try done.
    + eapply Forall2_impl; eauto.
    + destruct H as [H1 H2]. split; [done|]. intros k x y Hx Hy. eauto.
Qed.

Lemma deep_equal_upto_le n m h1 h2 a b :
  (n <= m)%nat -> deep_equal_upto n h1 h2 a b -> deep_equal_upto m h1 h2 a b.
Proof.
  induction 1 as [|m Hle IH]; [done|]. intros Hd. by apply deep_equal_upto_S, IH.
Qed.

(** Cells are never removed: what is equal stays equal when the right store
    grows. *)
Lemma deep_equal_upto_grow n h1 h2 ext : forall a b,
  deep_equal_upto n h1 h2 a b -> deep_equal_upto n h1 (h2 ++ ext) a b.
Proof.
  induction n as [|n IH]; intros a b.
  - destruct a, b; simpl; tauto.
  - destruct a as [| | | | | |la], b as [| | | | | |lb]; try (simpl; tauto).
    simpl. destruct (h1 !! la) as [[ea pa|pa]|]; try done.
    + destruct (h2 !! lb) as [[eb pb|pb]|] eqn:E; try done.
      rewrite (lookup_app_l_Some _ _ _ _ E). intros H. eapply Forall2_impl; eauto.
    + destruct (h2 !! lb) as [[eb pb|pb]|] eqn:E; try done.
      rewrite (lookup_app_l_Some _ _ _ _ E). intros [H1 H2]. split; [done|].
      intros k x y Hx Hy. eauto.
Qed.

Lemma deep_equal_upto_prefix n h1 h2 h2' a b :
  h2 `prefix_of` h2' -> deep_equal_upto n h1 h2 a b -> deep_equal_upto n h1 h2' a b.
Proof. intros [ext ->]. apply deep_equal_upto_grow. Qed.

(** ** Values of the JSON data model: no [undefined], no [NaN] *)

Lemma json_value_defined n h v : json_value_upto n h v -> val_eqb v VUndef = false.
Proof. destruct v; intros H; try reflexivity; destruct n; simpl in H; by destruct H. Qed.

Lemma filter_defined n h (ps : list (string * val)) :
  Forall (json_value_upto n h) (map snd ps) ->
  filter (fun kv => negb (val_eqb (snd kv) VUndef)) ps = ps.
Proof.
  induction ps as [|[k v] r IH]; intros H; [done|].
  inversion H as [|? ? Hv Hr]; subst. simpl in Hv.
  rewrite filter_cons. simpl.
  destruct (decide (negb (val_eqb v VUndef))) as [_|Hn].
  - by rewrite IH.
  - exfalso. apply Hn. by rewrite (json_value_defined _ _ _ Hv).
Qed.

(** Keys in the same places, values related: lookups agree. *)
Lemma plookup_related (R : val -> val -> Prop) ps ps' :
  Forall2 (fun kv kv' => fst kv = fst kv' /\ R (snd kv) (snd kv')) ps ps' ->
  (forall k, is_Some (plookup k ps) <-> is_Some (plookup k ps'))
  /\ (forall k x y, plookup k ps = Some x -> plookup k ps' = Some y -> R x y).
Proof.
  induction 1 as [|[k1 v1] [k2 v2] r r' [Hk Hv] Hr [IH1 IH2]]; simpl in *.
  - split; [done|]. discriminate.
  - subst k2. split.
    + intros k. destruct (String.eqb k k1); [split; eauto|apply IH1].
    + intros k x y. destruct (String.eqb k k1); [intros [= <-] [= <-]; done|apply IH2].
Qed.

(** ** The clone is deep-equal to the original *)

Section CloneEqual.

Variable h0 : list cell.
Variable n d : nat.
Hypothesis IH : forall v h c h1,
  h0 `prefix_of` h -> json_value_upto d h0 v ->
  json_roundtrip n v h = (Ok c, h1) ->
  h `prefix_of` h1 /\ deep_equal_upto d h0 h1 v c.

Lemma clone_elements : forall es h es' h2,
  h0 `prefix_of` h -> Forall (json_value_upto d h0) es ->
  mapM (json_roundtrip n) es h = (Ok es', h2) ->
  h `prefix_of` h2 /\ Forall2 (deep_equal_upto d h0 h2) es es'.
Proof.
  induction es as [|x r IHes]; intros h es' h2 Hp Hj; simpl.
  - intros [= <- <-]. split; [done|constructor].
  - inversion Hj as [|? ? Hx Hr]; subst. unfold bind at 1.
    destruct (json_roundtrip n x h) as [[y|e|] ha] eqn:Ex; try discriminate.
    unfold bind at 1.
    destruct (mapM (json_roundtrip n) r ha) as [[ys|e|] hb] eqn:Er; try discriminate.
    intros [= <- <-].
    destruct (IH x h y ha Hp Hx Ex) as [Hpa Hxy].
    destruct (IHes ha ys hb (transitivity Hp Hpa) Hr Er) as [Hpb Hrs].
    split; [by transitivity ha|].
    constructor; [|done]. by eapply deep_equal_upto_prefix.
Qed.

Lemma clone_properties : forall (ps : list (string * val)) h
    (ps' : list (string * val)) h2,
  h0 `prefix_of` h -> Forall (json_value_upto d h0) (map snd ps) ->
  mapM (fun kv => let* v' := json_roundtrip n (snd kv) in ret (fst kv, v')) ps h
  = (Ok ps', h2) ->
  h `prefix_of` h2
  /\ Forall2 (fun kv kv' => fst kv = fst kv' /\ deep_equal_upto d h0 h2 (snd kv) (snd kv'))
       ps ps'.
Proof.
  induction ps as [|[k x] r IHps]; intros h ps' h2 Hp Hj; simpl.
  - intros [= <- <-]. split; [done|constructor].
  - inversion Hj as [|? ? Hx Hr]; subst. unfold bind at 1 2.
    destruct (json_roundtrip n x h) as [[y|e|] ha] eqn:Ex; try discriminate.
    simpl. unfold bind at 1.
    destruct (mapM (fun kv => let* v' := json_roundtrip n (snd kv) in ret (fst kv, v'))
                r ha) as [[ys|e|] hb] eqn:Er; try discriminate.
    intros [= <- <-].
    destruct (IH x h y ha Hp Hx Ex) as [Hpa Hxy].
    destruct (IHps ha ys hb (transitivity Hp Hpa) Hr Er) as [Hpb Hrs].
    split; [by transitivity ha|].
    constructor; [|done]. simpl. split; [done|]. by eapply deep_equal_upto_prefix.
Qed.

End CloneEqual.

Lemma prim_deep_equal d h1 h2 v :
  match v with VRef _ => False | _ => True end -> deep_equal_upto d h1 h2 v v.
Proof. destruct d, v; simpl; tauto. Qed.

Lemma json_roundtrip_equal h0 : forall n d v h c h1,
  h0 `prefix_of` h -> json_value_upto d h0 v ->
  json_roundtrip n v h = (Ok c, h1) ->
  h `prefix_of` h1 /\ deep_equal_upto d h0 h1 v c.
Proof.
  induction n as [|n IHn]; intros d v h c h1 Hp Hj.
  - destruct v; try (destruct d; simpl in Hj; done); simpl;
      try discriminate;
      intros [= <- <-]; (split; [done|]); by apply prim_deep_equal.
  - destruct v as [| | | | | |l]; simpl json_roundtrip;
      try (destruct d; simpl in Hj; done);
      try (intros [= <- <-]; (split; [done|]); by apply prim_deep_equal).
    destruct d as [|d]; [done|]. simpl in Hj.
    unfold bind at 1, get_heap.
    destruct (h0 !! l) as [[es ps|ps]|] eqn:E0; [| |done].
    + rewrite (prefix_lookup_Some _ _ _ _ E0 Hp).
      unfold bind at 1.
      destruct (mapM (json_roundtrip n) es h) as [[es'|e|] h2] eqn:Em; try discriminate.
      destruct (clone_elements h0 n d (IHn d) es h es' h2 Hp Hj Em) as [Hp2 Hes].
      unfold new_cell, alloc. intros [= <- <-].
      split; [transitivity h2; [done|by apply prefix_app_r]|].
      simpl. rewrite E0, list_lookup_middle by done.
      eapply Forall2_impl; [exact Hes|]. intros x y.
      apply deep_equal_upto_prefix. by apply prefix_app_r.
    + rewrite (prefix_lookup_Some _ _ _ _ E0 Hp).
      rewrite (filter_defined _ _ _ Hj).
      unfold bind at 1.
      destruct (mapM (fun kv => let* v' := json_roundtrip n (snd kv) in ret (fst kv, v'))
                  ps h) as [[ps'|e|] h2] eqn:Em; try discriminate.
      destruct (clone_properties h0 n d (IHn d) ps h ps' h2 Hp Hj Em) as [Hp2 Hps].
      unfold new_cell, alloc. intros [= <- <-].
      split; [transitivity h2; [done|by apply prefix_app_r]|].
      simpl. rewrite E0, list_lookup_middle by done.
      apply plookup_related.
      eapply Forall2_impl; [exact Hps|]. intros x y [Hk Hv]. split; [done|].
      eapply deep_equal_upto_prefix; [|exact Hv]. by apply prefix_app_r.
Qed.

Lemma deepClone_equal d v h c h1 :
  json_value_upto d h v -> _deepClone v h = (Ok c, h1) ->
  h `prefix_of` h1 /\ deep_equal_upto d h h1 v c.
Proof.
  intros Hj. destruct v; try (destruct d; simpl in Hj; done);
    unfold _deepClone, bind, get_heap, ret;
    try (intros [= <- <-]; (split; [done|]); by apply prim_deep_equal).
  - destruct (length h); simpl; intros [= <- <-]; (split; [done|]);
      by apply prim_deep_equal.
  - by apply json_roundtrip_equal.
Qed.

(** ** The clone of a JSON value succeeds *)

Lemma json_value_upto_prefix d h h' : forall v,
  h `prefix_of` h' -> json_value_upto d h v -> json_value_upto d h' v.
Proof.
  induction d as [|d IH]; intros v Hp; destruct v as [| | | | | |l]; simpl; try done.
  destruct (h !! l) as [[es ps|ps]|] eqn:E; [| |done];
    rewrite (prefix_lookup_Some _ _ _ _ E Hp);
    intros H; (eapply Forall_impl; [exact H|]); auto.
Qed.

Lemma mapM_succeeds {A B} (f : A -> M B) (P : A -> Prop) (I : list cell -> Prop) :
  (forall x h, P x -> I h -> exists y h', f x h = (Ok y, h') /\ I h') ->
  forall l h, Forall P l -> I h -> exists ys h', mapM f l h = (Ok ys, h') /\ I h'.
Proof.
  intros Hf. induction l as [|x r IH]; intros h Hl Hi; simpl.
  - eauto.
  - inversion Hl as [|? ? Hx Hr]; subst.
    destruct (Hf x h Hx Hi) as (y & ha & Ey & Ia).
    destruct (IH ha Hr Ia) as (ys & hb & Er & Ib).
    exists (y :: ys), hb. unfold bind. rewrite Ey, Er. auto.
Qed.

Lemma Forall_map_snd (P : val -> Prop) (ps : list (string * val)) :
  Forall P (map snd ps) -> Forall (fun kv => P (snd kv)) ps.
Proof.
  induction ps as [|kv r IH]; simpl; intros H; [constructor|].
  inversion H; subst. constructor; auto.
Qed.

Lemma json_roundtrip_succeeds h0 : forall n d v h,
  (d <= n)%nat -> h0 `prefix_of` h -> json_value_upto d h0 v ->
  exists c h1, json_roundtrip n v h = (Ok c, h1) /\ h0 `prefix_of` h1.
Proof.
  induction n as [|n IHn]; intros d v h Hd Hp Hj.
  - assert (d = 0%nat) as -> by lia.
    destruct v; simpl in *; try done; eauto.
  - destruct v as [| | | | | |l]; try (destruct d; simpl in Hj; done);
      simpl json_roundtrip; eauto.
    destruct d as [|d]; [done|]. simpl in Hj.
    unfold bind at 1, get_heap.
    destruct (h0 !! l) as [[es ps|ps]|] eqn:E0; [| |done];
      rewrite (prefix_lookup_Some _ _ _ _ E0 Hp).
    + destruct (mapM_succeeds (json_roundtrip n) (json_value_upto d h0)
                  (fun h => h0 `prefix_of` h)) with (l := es) (h := h)
        as (es' & h2 & Em & Hp2); auto.
      { intros x hx Hx Hpx. apply (IHn d); auto. lia. }
      unfold bind. rewrite Em. unfold new_cell, alloc.
      eexists _, _. split; [reflexivity|]. by apply prefix_app_r.
    + rewrite (filter_defined _ _ _ Hj).
      destruct (mapM_succeeds
                  (fun kv : string * val =>
                     let* v' := json_roundtrip n (snd kv) in ret (fst kv, v'))
                  (fun kv => json_value_upto d h0 (snd kv))
                  (fun h => h0 `prefix_of` h)) with (l := ps) (h := h)
        as (ps' & h2 & Em & Hp2); auto.
      { intros [k x] hx Hx Hpx. simpl in *.
        destruct (IHn d x hx) as (y & hy & Ey & Hpy); auto; [lia|].
        exists (k, y), hy. unfold bind. by rewrite Ey. }
      { by apply Forall_map_snd. }
      unfold bind at 1. rewrite Em. unfold new_cell, alloc.
      eexists _, _. split; [reflexivity|]. by apply prefix_app_r.
Qed.

(** [_deepClone] of a value of the JSON data model returns a value that is
    deep-equal to it and is built of new cells only. *)
Lemma deepClone_correct h v :
  json_value h v ->
  exists c h1,
    _deepClone v h = (Ok c, h1)
    /\ h `prefix_of` h1
    /\ deep_equal h h1 v c
    /\ val_above (length h) c
    /\ above (length h) h1.
Proof.
  intros Hj.
  assert (exists c h1, _deepClone v h = (Ok c, h1)) as (c & h1 & E).
  { unfold json_value in Hj. destruct v; simpl; eauto.
    - unfold bind, get_heap. destruct (length h); simpl; eauto.
    - unfold bind, get_heap.
      destruct (json_roundtrip_succeeds h (length h) (length h) (VRef l) h)
        as (c & h1 & E & _); eauto. }
  exists c, h1. split; [done|].
  destruct (deepClone_equal _ _ _ _ _ Hj E) as [Hp He].
  destruct (deepClone_fresh v h) as (_ & Ha & Hc). rewrite E in Ha, Hc. simpl in *.
  repeat split; auto. by exists (length h).
Qed.

(** * [copy] *)

(** In place, without validation, a standard operation below the root is
    its traversal. *)
Lemma applyOperation_with_traversal reg default vg d o p ban i h :
  is_x o = false -> path o = Some p -> p <> "" ->
  applyOperation_with reg default vg d o NoValidation true ban i h
  = walk reg default vg o NoValidation true ban d d None
      (length (Str.split "/" p)) (length (Str.split "/" p)) (Str.split "/" p) 1 d
      None None h.
Proof.
  intros Hx Hp Hne. unfold applyOperation_with. rewrite Hp, Hx.
  rewrite bool_decide_eq_false_2 by congruence. reflexivity.
Qed.

(** ** The copy and its source *)


(** * [_areEquals] against deep equality *)

Lemma data_upto_prim n h v :
  match v with VRef _ => False | _ => True end -> data_upto n h v.
Proof. destruct n, v; simpl; tauto. Qed.

Lemma no_shadowing_prim n h v :
  match v with VRef _ => False | _ => True end -> no_shadowing_upto n h v.
Proof. destruct n, v; simpl; tauto. Qed.

Lemma data_upto_default n h (o : option val) (l : list val) :
  Forall (data_upto n h) l -> (forall v, o = Some v -> In v l) ->
  data_upto n h (default VUndef o).
Proof.
  intros Hl Ho. destruct o as [v|]; simpl; [|by apply data_upto_prim].
  eapply List.Forall_forall; eauto.
Qed.

Lemma no_shadowing_default n h (o : option val) (l : list val) :
  Forall (no_shadowing_upto n h) l -> (forall v, o = Some v -> In v l) ->
  no_shadowing_upto n h (default VUndef o).
Proof.
  intros Hl Ho. destruct o as [v|]; simpl; [|by apply no_shadowing_prim].
  eapply List.Forall_forall; eauto.
Qed.

Lemma lookup_In (l : list val) i v : l !! i = Some v -> In v l.
Proof. intros H. apply list_elem_of_In. eapply list_elem_of_lookup_2; eauto. Qed.

Lemma plookup_is_Some k (ps : list (string * val)) :
  is_Some (plookup k ps) <-> In k (map fst ps).
Proof.
  induction ps as [|[k' v] r IH]; simpl.
  - split; [intros [? [=]]|intros []].
  - destruct (String.eqb k k') eqn:E.
    + apply String.eqb_eq in E as ->. split; eauto.
    + apply String.eqb_neq in E. rewrite IH. split; [auto|intros [->|]; [done|auto]].
Qed.

(** [all_res] over outcomes that are all booleans is their conjunction. *)
Lemma all_res_spec {A} (f : A -> res bool) (P : A -> Prop) (l : list A) :
  (forall x, In x l -> exists r, f x = Ok r /\ (r = true <-> P x)) ->
  exists r, all_res f l = Ok r /\ (r = true <-> Forall P l).
Proof.
  induction l as [|x rest IH]; intros Hf; simpl.
  - exists true. split; [done|]. split; auto.
  - destruct (Hf x (or_introl eq_refl)) as (r & -> & Hr).
    destruct r.
    + destruct IH as (r' & -> & Hr'); [intros; apply Hf; by right|].
      exists r'. split; [done|]. rewrite Hr'. split.
      * intros H. constructor; [by apply Hr|done].
      * intros H. by inversion H.
    + exists false. split; [done|]. split; [done|].
      intros H. inversion H; subst. by apply Hr.
Qed.

Lemma Forall_rev_iff {A} (P : A -> Prop) (l : list A) : Forall P (rev l) <-> Forall P l.
Proof.
  rewrite !List.Forall_forall. split; intros H x Hx; apply H.
  - by apply in_rev in Hx.
  - by apply in_rev.
Qed.

Lemma deep_equal_upto_refl n h : forall v, data_upto n h v -> deep_equal_upto n h h v v.
Proof.
  induction n as [|n IH]; intros v Hv.
  - destruct v; simpl in *; tauto.
  - destruct v as [| | | | | |l]; try (simpl; tauto).
    simpl in *. destruct (h !! l) as [[es ps|ps]|]; [| |done].
    + clear -IH Hv. induction es as [|x r IHr]; [constructor|].
      inversion Hv; subst. constructor; auto.
    + destruct Hv as [_ Hv]. split; [done|].
      intros k x y Hx Hy. rewrite Hx in Hy. injection Hy as <-.
      apply IH. eapply List.Forall_forall; [exact Hv|]. eapply plookup_In; eauto.
Qed.

Lemma strict_eq_self v : strict_eq v v = false <-> v = VNaN.
Proof.
  destruct v; simpl; split; try discriminate; try done.
  - by rewrite Bool.eqb_reflx.
  - by rewrite Z.eqb_refl.
  - by rewrite String.eqb_refl.
  - by rewrite Nat.eqb_refl.
Qed.

(** The last line of [_areEquals], on two values of which one at least is
    no cell. *)
Lemma prim_case n h a b :
  strict_eq a b = false ->
  negb (falsy a) && negb (falsy b) && typeof_object a && typeof_object b = false ->
  (negb (strict_eq a a) && negb (strict_eq b b) = true <-> deep_equal_upto n h h a b).
Proof.
  intros Hne Hsh.
  rewrite andb_true_iff, !negb_true_iff, !strict_eq_self.
  assert (Hshape : (exists l, a = VRef l) /\ (exists l, b = VRef l) -> False).
  { intros [[la ->] [lb ->]]. discriminate Hsh. }
  assert (Hab : a = b -> a = VNaN).
  { intros <-. by apply strict_eq_self. }
  destruct a as [| | ba|na| |sa|la], b as [| | bb|nb| |sb|lb];
    try (exfalso; apply Hshape; eauto; fail);
    destruct n; simpl; unfold fails_self_equality; rewrite ?strict_eq_self;
    try (split; [intros [? ?]; discriminate|tauto]);
    try (split; [tauto|]; intros [H|[H1 H2]]; [specialize (Hab H)|]; try done).
Qed.

Section AreEqualsStep.

Variable h : list cell.
Variable n : nat.
Hypothesis IH : forall a b,
  data_upto n h a -> data_upto n h b -> no_shadowing_upto n h b ->
  exists r, areEquals_fuel n h a b = Ok r /\ (r = true <-> deep_equal_upto n h h a b).

Lemma arrays_step (ea eb : list val) :
  Forall (data_upto n h) ea -> Forall (data_upto n h) eb ->
  Forall (no_shadowing_upto n h) eb ->
  length ea = length eb ->
  exists r,
    all_res (fun i => areEquals_fuel n h (default VUndef (ea !! i))
                                         (default VUndef (eb !! i)))
            (rev (seq 0 (length ea))) = Ok r
    /\ (r = true <-> Forall2 (deep_equal_upto n h h) ea eb).
Proof.
  intros Ha Hb Hs Hlen.
  destruct (all_res_spec
              (fun i => areEquals_fuel n h (default VUndef (ea !! i))
                                           (default VUndef (eb !! i)))
              (fun i => deep_equal_upto n h h (default VUndef (ea !! i))
                                              (default VUndef (eb !! i)))
              (rev (seq 0 (length ea)))) as (r & Er & Hr).
  { intros i _. apply IH.
    - apply (data_upto_default n h _ ea Ha). intros v Hv. by eapply lookup_In.
    - apply (data_upto_default n h _ eb Hb). intros v Hv. by eapply lookup_In.
    - apply (no_shadowing_default n h _ eb Hs). intros v Hv. by eapply lookup_In. }
  exists r. split; [done|]. rewrite Hr, Forall_rev_iff, List.Forall_forall.
  rewrite Forall2_same_length_lookup. split.
  - intros H. split; [done|]. intros i x y Hx Hy.
    assert (Hi : In i (seq 0 (length ea))).
    { apply in_seq. apply lookup_lt_Some in Hx. lia. }
    specialize (H i Hi). by rewrite Hx, Hy in H.
  - intros [_ H] i Hi. apply in_seq in Hi.
    destruct (lookup_lt_is_Some_2 ea i) as [x Hx]; [lia|].
    destruct (lookup_lt_is_Some_2 eb i) as [y Hy]; [lia|].
    rewrite Hx, Hy. simpl. eauto.
Qed.

Lemma hasOwnProperty_loop (pb : list (string * val)) (keys : list string) :
  plookup "hasOwnProperty" pb = None ->
  exists r, all_res (call_hasOwnProperty pb) keys = Ok r
            /\ (r = true <-> Forall (fun k => In k (map fst pb)) keys).
Proof.
  intros Hno. apply all_res_spec. intros k _.
  unfold call_hasOwnProperty. rewrite Hno. eexists. split; [done|].
  rewrite bool_decide_eq_true. apply plookup_is_Some.
Qed.

Lemma objects_step (pa pb : list (string * val)) :
  NoDup (map fst pa) -> NoDup (map fst pb) ->
  Forall (data_upto n h) (map snd pa) -> Forall (data_upto n h) (map snd pb) ->
  plookup "hasOwnProperty" pb = None ->
  Forall (no_shadowing_upto n h) (map snd pb) ->
  length (map fst pa) = length (map fst pb) ->
  exists r,
    match all_res (call_hasOwnProperty pb) (rev (map fst pa)) with
    | Ok true =>
        all_res (fun k => areEquals_fuel n h (default VUndef (plookup k pa))
                                             (default VUndef (plookup k pb)))
                (rev (map fst pa))
    | other => other
    end = Ok r
    /\ (r = true <->
        (forall k, is_Some (plookup k pa) <-> is_Some (plookup k pb))
        /\ (forall k x y, plookup k pa = Some x -> plookup k pb = Some y ->
                          deep_equal_upto n h h x y)).
Proof.
  intros Na Nb Da Db Hno Hs Hlen.
  destruct (hasOwnProperty_loop pb (rev (map fst pa)) Hno) as (r1 & -> & Hr1).
  rewrite Forall_rev_iff, List.Forall_forall in Hr1.
  destruct r1.
  - assert (Hsub : forall k, In k (map fst pa) -> In k (map fst pb)) by by apply Hr1.
    assert (Hsup : forall k, In k (map fst pb) -> In k (map fst pa)).
    { apply NoDup_ListNoDup in Na. apply (NoDup_length_incl Na); [lia|exact Hsub]. }
    destruct (all_res_spec
                (fun k => areEquals_fuel n h (default VUndef (plookup k pa))
                                             (default VUndef (plookup k pb)))
                (fun k => deep_equal_upto n h h (default VUndef (plookup k pa))
                                                (default VUndef (plookup k pb)))
                (rev (map fst pa))) as (r & Er & Hr).
    { intros k _. apply IH.
      - apply (data_upto_default n h _ _ Da). intros v Hv. by eapply plookup_In.
      - apply (data_upto_default n h _ _ Db). intros v Hv. by eapply plookup_In.
      - apply (no_shadowing_default n h _ _ Hs). intros v Hv. by eapply plookup_In. }
    exists r. split; [done|]. rewrite Hr, Forall_rev_iff, List.Forall_forall. split.
    + intros H. split.
      * intros k. rewrite !plookup_is_Some. split; auto.
      * intros k x y Hx Hy.
        assert (Hk : In k (map fst pa)) by (apply plookup_is_Some; eauto).
        specialize (H k Hk). by rewrite Hx, Hy in H.
    + intros [_ H] k Hk.
      destruct (proj2 (plookup_is_Some k pa) Hk) as [x Hx].
      destruct (proj2 (plookup_is_Some k pb) (Hsub k Hk)) as [y Hy].
      rewrite Hx, Hy. simpl. eauto.
  - exists false. split; [done|]. split; [done|].
    intros [Hk _]. assert (true = false); [|done]. symmetry. apply Hr1.
    intros k Hin. apply plookup_is_Some, Hk, plookup_is_Some, Hin.
Qed.

End AreEqualsStep.

Lemma val_eqb_eq a b : val_eqb a b = true -> a = b.
Proof.
  destruct a, b; simpl; try discriminate; try done; intros H; f_equal.
  - by apply Bool.eqb_prop.
  - by apply Z.eqb_eq.
  - by apply String.eqb_eq.
  - by apply Nat.eqb_eq.
Qed.

Lemma both_cells a b :
  negb (falsy a) && negb (falsy b) && typeof_object a && typeof_object b = true ->
  exists la lb, a = VRef la /\ b = VRef lb.
Proof.
  destruct a, b; simpl; try discriminate; rewrite ?andb_false_r; try discriminate.
  eauto.
Qed.

(** On data whose maps are not shadowing [hasOwnProperty], [_areEquals]
    returns a boolean, and that boolean says whether the two values are
    deep-equal. *)
Lemma areEquals_fuel_spec h : forall n a b,
  data_upto n h a -> data_upto n h b -> no_shadowing_upto n h b ->
  exists r, areEquals_fuel n h a b = Ok r /\ (r = true <-> deep_equal_upto n h h a b).
Proof.
  induction n as [|n IH]; intros a b Da Db Hs.
  - cbn [areEquals_fuel].
    destruct (strict_eq a b) eqn:Heq.
    { apply val_eqb_eq in Heq as <-. exists true. split; [done|].
      split; [intros _; by apply deep_equal_upto_refl|done]. }
    destruct (negb (falsy a) && negb (falsy b) && typeof_object a && typeof_object b)
      eqn:Hsh.
    { apply both_cells in Hsh as (la & lb & -> & ->). destruct Da. }
    eexists. split; [done|]. by apply prim_case.
  - cbn [areEquals_fuel].
    destruct (strict_eq a b) eqn:Heq.
    { apply val_eqb_eq in Heq as <-. exists true. split; [done|].
      split; [intros _; by apply deep_equal_upto_refl|done]. }
    destruct (negb (falsy a) && negb (falsy b) && typeof_object a && typeof_object b)
      eqn:Hsh; [|eexists; split; [done|]; by apply prim_case].
    apply both_cells in Hsh as (la & lb & -> & ->).
    simpl in Da, Db, Hs. simpl deep_equal_upto.
    destruct (h !! la) as [[ea pa|pa]|]; [| |done];
      destruct (h !! lb) as [[eb pb|pb]|]; try done.
    + destruct (negb (length ea =? length eb)%nat) eqn:El.
      * exists false. split; [done|]. split; [done|]. intros H.
        apply Forall2_length in H. apply negb_true_iff, Nat.eqb_neq in El.
        by destruct El.
      * apply negb_false_iff, Nat.eqb_eq in El. by apply arrays_step.
    + exists false. split; [done|]. split; done.
    + exists false. split; [done|]. split; done.
    + destruct Da as [Na Da], Db as [Nb Db], Hs as [Hno Hs].
      destruct (negb (length (map fst pa) =? length (map fst pb))%nat) eqn:El.
      * exists false. split; [done|]. split; [done|]. intros [Hk _].
        apply negb_true_iff, Nat.eqb_neq in El. exfalso. apply El.
        apply NoDup_ListNoDup in Na. apply NoDup_ListNoDup in Nb.
        apply Nat.le_antisymm; apply NoDup_incl_length; try done;
          intros k Hin; apply plookup_is_Some; apply plookup_is_Some in Hin;
          by apply Hk.
      * apply negb_false_iff, Nat.eqb_eq in El. by apply objects_step.
Qed.

Lemma deep_equal_upto_bound h h' : forall n m a b,
  data_upto n h a -> deep_equal_upto m h h' a b -> deep_equal_upto n h h' a b.
Proof.
  induction n as [|n IH]; intros m a b Da.
  - destruct a; try done; destruct m, b; simpl; tauto.
  - destruct a as [| | | | | |la]; try (destruct m, b; simpl; tauto).
    destruct b as [| | | | | |lb]; try (destruct m; simpl; tauto).
    destruct m as [|m]; [done|]. simpl in *.
    destruct (h !! la) as [[ea pa|pa]|]; [| |done];
      destruct (h' !! lb) as [[eb pb|pb]|]; try done.
    + intros H. clear -IH Da H. revert Da.
      induction H as [|x y ea eb Hxy H IHf]; intros Da; [constructor|].
      inversion Da; subst. constructor; eauto.
    + destruct Da as [_ Da]. intros [Hk H]. split; [done|].
      intros k x y Hx Hy. eapply IH; [|eauto].
      eapply List.Forall_forall; [exact Da|]. eapply plookup_In; eauto.
Qed.

(** On data (values all of whose references resolve, maps with distinct
    keys) in which no map of the right-hand value has a key
    [hasOwnProperty], [_areEquals] returns, and it returns [true] exactly
    when the two values are deep-equal in the words of the specification. *)
Theorem areEquals_is_deep_equality h a b :
  data h a -> data h b -> no_shadowing h b ->
  exists r, _areEquals h a b = Ok r /\ (r = true <-> deep_equal h h a b).
Proof.
  intros Da Db Hs.
  destruct (areEquals_fuel_spec h (length h) a b Da Db Hs) as (r & Er & Hr).
  exists r. split; [done|]. rewrite Hr. split.
  - intros H. by exists (length h).
  - intros [m H]. by eapply deep_equal_upto_bound.
Qed.

Lemma areEquals_is_deep_equality_witness :
  let h := [CObj [("a", VNum 1); ("b", VNum 2)]; CObj [("b", VNum 2); ("a", VNum 1)]] in
  exists r, _areEquals h (VRef 0%nat) (VRef 1%nat) = Ok r
            /\ (r = true <-> deep_equal h h (VRef 0%nat) (VRef 1%nat)).
Proof.
  apply areEquals_is_deep_equality.
  - cbn. split; [|by repeat constructor].
    repeat constructor; cbn; intros H; inversion H; subst;
      match goal with H' : _ ∈ _ |- _ => inversion H' end.
  - cbn. split; [|by repeat constructor].
    repeat constructor; cbn; intros H; inversion H; subst;
      match goal with H' : _ ∈ _ |- _ => inversion H' end.
  - cbn. split; [reflexivity|by repeat constructor].
Defined.

(** ** [test] compares the value at its path *)

Lemma array_key_std operation h o keys t k gp :
  is_x operation = false ->
  array_key operation NoValidation h o keys t k gp
  = match std_array_key h o k with
    | Ok k' => Ok (k', keys, gp)
    | Throw e => Throw e
    | Stuck => Stuck
    end.
Proof.
  intros Hx. unfold array_key, std_array_key. rewrite Hx. simpl.
  destruct (key_is k "-"); [done|].
  destruct k as [|s|n]; try done. by destruct (isInteger s).
Qed.

Section Lockstep.

Variable reg : gmap string XConfig.
Variable f1 f2 : val -> Operation -> M Result.
Variable g1 g2 : option string -> val -> M (option JsonPatchErrorName).
Variable op1 op2 : Operation.
Variable m1 m2 ban : bool.
Variable d1 d2 w1 w2 : val.
Variable len : nat.
Hypothesis Hx1 : is_x op1 = false.
Hypothesis Hx2 : is_x op2 = false.

Lemma in_step_failed h (x : res Result) :
  (forall r, x <> Ok r) -> in_step f1 f2 op1 op2 d1 d2 h (x, h) (x, h).
Proof. intros H. left. auto. Qed.

Lemma in_step_bind_ret {A} (a1 a2 : A) (k1 k2 : A -> M Result) h :
  in_step f1 f2 op1 op2 d1 d2 h (k1 a1 h) (k2 a2 h) -> in_step f1 f2 op1 op2 d1 d2 h (bind (ret a1) k1 h) (bind (ret a2) k2 h).
Proof. done. Qed.

Lemma in_step_bind_get_heap (k1 k2 : list cell -> M Result) h :
  in_step f1 f2 op1 op2 d1 d2 h (k1 h h) (k2 h h) -> in_step f1 f2 op1 op2 d1 d2 h (bind get_heap k1 h) (bind get_heap k2 h).
Proof. done. Qed.

Lemma in_step_bind_read {A} (r1 r2 : list cell -> res A) (k1 k2 : A -> M Result) h :
  match r1 h, r2 h with
  | Ok a1, Ok a2 => in_step f1 f2 op1 op2 d1 d2 h (k1 a1 h) (k2 a2 h)
  | Throw e1, Throw e2 => e1 = e2
  | Stuck, Stuck => True
  | _, _ => False
  end ->
  in_step f1 f2 op1 op2 d1 d2 h (bind (read r1) k1 h) (bind (read r2) k2 h).
Proof.
  unfold bind, read. destruct (r1 h) as [a1|e1|], (r2 h) as [a2|e2|]; try done.
  - intros ->. by apply in_step_failed.
  - intros _. by apply in_step_failed.
Qed.

Lemma walks_in_step n : forall keys t o e1 e2 gp1 gp2 h,
  in_step f1 f2 op1 op2 d1 d2 h
    (walk reg f1 g1 op1 NoValidation m1 ban d1 w1 None len n keys t o e1 gp1 h)
    (walk reg f2 g2 op2 NoValidation m2 ban d2 w2 None len n keys t o e2 gp2 h).
Proof.
  induction n as [|n IH]; intros keys t o e1 e2 gp1 gp2 h;
    [by apply in_step_failed|].
  cbn [walk].
  destruct (ban && _); [by apply in_step_failed|].
  unfold existing_path_check. simpl validating. cbv iota.
  apply in_step_bind_ret. apply in_step_bind_get_heap. rewrite Hx1, Hx2.
  assert (Hnext : forall k gpa gpb,
    in_step f1 f2 op1 op2 d1 d2 h
      ((let* graftPath := forced_resolution op1 d1 None o k keys (S t) gpa in
        let* o' := read (fun h => get_prop h o k) in
        if false && (S t <? len)%nat && not_an_object o'
        then throw (JsonPatchError OPERATION_PATH_UNRESOLVABLE)
        else walk reg f1 g1 op1 NoValidation m1 ban d1 w1 None len n keys (S t) o'
               e1 graftPath) h)
      ((let* graftPath := forced_resolution op2 d2 None o k keys (S t) gpb in
        let* o' := read (fun h => get_prop h o k) in
        if false && (S t <? len)%nat && not_an_object o'
        then throw (JsonPatchError OPERATION_PATH_UNRESOLVABLE)
        else walk reg f2 g2 op2 NoValidation m2 ban d2 w2 None len n keys (S t) o'
               e2 graftPath) h)).
  { intros k gpa gpb. unfold forced_resolution. apply in_step_bind_ret.
    apply in_step_bind_read. destruct (get_prop h o k) as [o'|e|]; try done.
    simpl. apply IH. }
  destruct (is_array h o).
  - apply in_step_bind_read. rewrite !array_key_std by done.
    destruct (std_array_key h o (key_at keys t)) as [k|e|]; try done.
    destruct (len <=? S t)%nat; [|apply Hnext].
    simpl. right. exists o, k. by right.
  - destruct (len <=? S t)%nat; [|apply Hnext].
    right. exists o, (key_at keys t). by left.
Qed.

End Lockstep.

(** Without validation, a [test] whose path [getValueByPointer] resolves to
    [x] is decided by [_areEquals] on [x] and the operation's value: a
    result with [test] set when they are equal, [TEST_OPERATION_FAILED]
    when they are not, and the outcome of the comparison when it throws. *)
Theorem test_against_value_at_path reg document p v i x h h' :
  getValueByPointer reg document (Some p) h = (Ok x, h') ->
  applyOperation reg document (mkOp Op_test (Some p) None v None VUndef false)
    NoValidation true true i h
  = match _areEquals h x v with
    | Ok true => (Ok (mkResult document VUndef (Some true) None VUndef), h)
    | Ok false => (Throw (JsonPatchError TEST_OPERATION_FAILED), h)
    | Throw e => (Throw e, h)
    | Stuck => (Stuck, h)
    end.
Proof.
  unfold getValueByPointer, getValueByPointer_with, applyOperation, inner_default,
    applyOperation_inner.
  destruct (decide (p = "")) as [->|Hp].
  - unfold applyOperation_with. cbn [validate_first path op].
    rewrite bool_decide_eq_true_2 by done. unfold apply_root. cbn [op value].
    intros H. inversion H; subst. unfold bind, read, ret, throw. cbn.
    destruct (_areEquals h' x v) as [[|]| |]; done.
  - destruct p as [|c p]; [done|].
    set (opg := mkOp Op_get _ _ _ _ _ _). set (opt := mkOp Op_test _ _ _ _ _ _).
    rewrite (applyOperation_with_traversal _ _ _ _ opt (String c p)) by done.
    unfold bind at 1.
    rewrite (applyOperation_with_traversal _ _ _ _ opg (String c p)) by done.
    set (keys := Str.split "/" (String c p)).
    pose proof (walks_in_step reg (fun _ _ => stuck)
      (fun d o => applyOperation_with reg (fun _ _ => stuck) (fun _ _ => stuck)
                    d o NoValidation true true 0%nat)
      (fun _ _ => stuck) (inner_validate_get reg) opg opt true true true
      document document document document (length keys) eq_refl eq_refl
      (length keys) keys 1%nat document None None None None h) as Hstep.
    unfold in_step in Hstep.
    destruct Hstep as [(Heq & Hh & Hno)|(o & k & [[-> ->]|[-> ->]])].
    + destruct (walk _ _ _ opg _ _ _ _ _ _ _ _ _ _ _ _ _ h) as [[r| |] h1];
        [by destruct (Hno r)|done|done].
    + unfold call_operator. cbn [op opg opt objOps].
      unfold objOps__get, objOps_test, bind, read, test_failed, ret, throw.
      destruct (get_prop h o k) as [y| |]; [|done|done].
      cbn [test got]. intros H. inversion H; subst.
      change (value opt) with v.
      destruct (_areEquals h' x v) as [[|]| |]; done.
    + unfold call_operator. cbn [op opg opt arrOps].
      unfold objOps__get, objOps_test, bind, read, test_failed, ret, throw.
      destruct (get_prop h o k) as [y| |]; [|done|done].
      cbn [test got]. intros H. inversion H; subst.
      change (value opt) with v.
      destruct (_areEquals h' x v) as [[|]| |]; done.
Qed.

Lemma test_against_value_at_path_witness :
  let h := [CObj [("b", VNum 1)]; CObj [("a", VRef 0%nat)]; CObj [("b", VNum 1)]] in
  applyOperation ∅ (VRef 1%nat)
    (mkOp Op_test (Some "/a") None (VRef 2%nat) None VUndef false)
    NoValidation true true 0%nat h
  = match _areEquals h (VRef 0%nat) (VRef 2%nat) with
    | Ok true => (Ok (mkResult (VRef 1%nat) VUndef (Some true) None VUndef), h)
    | Ok false => (Throw (JsonPatchError TEST_OPERATION_FAILED), h)
    | Throw e => (Throw e, h)
    | Stuck => (Stuck, h)
    end.
Proof.
  intros h. apply (test_against_value_at_path ∅ (VRef 1%nat) "/a" (VRef 2%nat) 0%nat
                     (VRef 0%nat) h h).
  vm_compute. reflexivity.
Defined.

(** * Further properties of the code *)

Lemma replace_char_app c r l1 l2 :
  replace_char c r (l1 ++ l2) = replace_char c r l1 ++ replace_char c r l2.
Proof. induction l1 as [|x l1 IH]; simpl; [done|]. by rewrite IH, app_assoc. Qed.

Lemma replace_char_twice l :
  replace_char "/" ["~"; "1"]%char (replace_char "~" ["~"; "0"]%char l)
  = flat_map escape_char l.
Proof.
  induction l as [|x l IH]; [done|].
  cbn [replace_char flat_map]. rewrite replace_char_app, IH. f_equal.
  unfold escape_char. destruct (Ascii.eqb_spec x "~") as [->|Hx]; [done|].
  cbn [replace_char]. rewrite app_nil_r. by destruct (Ascii.eqb x "/").
Qed.

Lemma replace_char_absent c r l :
  existsb (Ascii.eqb c) l = false -> replace_char c r l = l.
Proof.
  induction l as [|x l IH]; [done|]. cbn. intros H.
  apply orb_false_iff in H as [Hx Hl]. rewrite Ascii.eqb_sym, Hx. cbn.
  by rewrite IH.
Qed.

Lemma escapePathComponent_chars s :
  Str.chars (escapePathComponent s) = flat_map escape_char (Str.chars s).
Proof.
  unfold escapePathComponent.
  destruct (negb (Str.has_char "/" s) && negb (Str.has_char "~" s)) eqn:E.
  - apply andb_true_iff in E as [E1 E2].
    apply negb_true_iff in E1, E2. unfold Str.has_char in *.
    rewrite <- replace_char_twice.
    by rewrite (replace_char_absent "~"), (replace_char_absent "/").
  - unfold Str.of_chars, Str.chars. rewrite list_ascii_of_string_of_list_ascii.
    apply replace_char_twice.
Qed.

Lemma replace_tilde_cons d r c l :
  c <> "~"%char -> Str.replace_tilde d r (c :: l) = c :: Str.replace_tilde d r l.
Proof.
  intros Hc. cbn [Str.replace_tilde]. destruct l as [|c' l]; [done|].
  destruct (Ascii.eqb_spec c "~"); [done|]. done.
Qed.

Lemma replace_tilde_hit d r l :
  Str.replace_tilde d r ("~"%char :: d :: l) = r :: Str.replace_tilde d r l.
Proof. cbn [Str.replace_tilde]. by rewrite !Ascii.eqb_refl. Qed.

Lemma replace_tilde_miss d r c l :
  c <> d ->
  Str.replace_tilde d r ("~"%char :: c :: l) = "~"%char :: Str.replace_tilde d r (c :: l).
Proof.
  intros Hc. cbn [Str.replace_tilde]. rewrite Ascii.eqb_refl.
  destruct (Ascii.eqb_spec c d); [done|]. done.
Qed.

(** The first pass of [unescapePathComponent] undoes the slashes. *)
Lemma unescape_slashes l :
  Str.replace_tilde "1" "/" (flat_map escape_char l)
  = replace_char "~" ["~"; "0"]%char l.
Proof.
  induction l as [|x l IH]; [done|].
  cbn [flat_map replace_char]. unfold escape_char at 1.
  destruct (Ascii.eqb_spec x "~") as [->|Hx].
  - cbn [app]. rewrite replace_tilde_miss by done.
    rewrite replace_tilde_cons by done. by rewrite IH.
  - destruct (Ascii.eqb_spec x "/") as [->|Hs]; cbn [app].
    + by rewrite replace_tilde_hit, IH.
    + by rewrite replace_tilde_cons, IH.
Qed.

Lemma unescape_tildes l :
  Str.replace_tilde "0" "~" (replace_char "~" ["~"; "0"]%char l) = l.
Proof.
  induction l as [|x l IH]; [done|].
  cbn [replace_char]. destruct (Ascii.eqb_spec x "~") as [->|Hx]; cbn [app].
  - by rewrite replace_tilde_hit, IH.
  - by rewrite replace_tilde_cons, IH.
Qed.

Lemma unescape_of_escape (s : string) :
  unescapePathComponent (escapePathComponent s) = s.
Proof.
  unfold unescapePathComponent.
  rewrite escapePathComponent_chars, unescape_slashes, unescape_tildes.
  apply string_of_list_ascii_of_string.
Qed.

(** [unescapePathComponent] undoes [escapePathComponent], on every
    string. *)
Theorem unescape_escape (s : string) :
  unescapePathComponent (escapePathComponent s) = s.
Proof. apply unescape_of_escape. Qed.

Lemma key_at_component keys t c : keys !! t = Some c -> key_at keys t = component_key c.
Proof. intros H. unfold key_at, component_key. by rewrite H. Qed.

Lemma banned_component keys t prev k :
  (1 <= t)%nat -> keys !! (t - 1)%nat = Some prev ->
  banned keys t k
  = (key_is k "__proto__" || key_is k "prototype" && String.eqb prev "constructor").
Proof.
  intros Ht Hp. unfold banned. rewrite Hp. f_equal.
  replace (0 <? t)%nat with true by (symmetry; apply Nat.ltb_lt; lia).
  rewrite andb_true_r. f_equal.
  destruct (String.eqb_spec prev "constructor") as [->|Hne].
  - by rewrite bool_decide_eq_true_2.
  - rewrite bool_decide_eq_false_2; [done|]. congruence.
Qed.

Section Locate.

Variable reg : gmap string XConfig.
Variable f : val -> Operation -> M Result.
Variable g : option string -> val -> M (option JsonPatchErrorName).
Variable operation : Operation.
Variable m ban : bool.
Variable d w : val.
Hypothesis Hx : is_x operation = false.

Lemma walk_locate n : forall keys t o prev c epf gp h,
  (1 <= t)%nat -> keys !! (t - 1)%nat = Some prev -> keys !! t = Some c ->
  (length keys - t <= n)%nat ->
  walk reg f g operation NoValidation m ban d w None (length keys) n keys t o epf gp h
  = operate f operation d (locate ban h prev c (drop (S t) keys) o) h.
Proof.
  induction n as [|n IH]; intros keys t o prev c epf gp h Ht Hprev Hc Hn.
  { apply lookup_lt_Some in Hc. lia. }
  cbn [walk]. rewrite (key_at_component _ _ _ Hc), (banned_component _ _ prev) by done.
  destruct (drop (S t) keys) as [|c' rest'] eqn:Hdrop; cbn [locate];
    (destruct (ban && _); [done|]);
    unfold existing_path_check; cbn [validating]; rewrite Hx;
    unfold bind at 1; unfold ret at 1; unfold bind at 1; unfold get_heap at 1.
  - assert (Hlen : (length keys <=? S t)%nat = true).
    { apply Nat.leb_le. apply (f_equal length) in Hdrop.
      rewrite length_drop in Hdrop. simpl in Hdrop. lia. }
    destruct (is_array h o) eqn:Ha.
    + unfold bind at 1, read at 1. rewrite array_key_std by done.
      destruct (std_array_key h o (component_key c)) as [k'| |]; [|done|done].
      rewrite Hlen. unfold operate. by rewrite Ha.
    + rewrite Hlen. unfold operate. by rewrite Ha.
  - assert (Hlen : (length keys <=? S t)%nat = false).
    { apply Nat.leb_gt. apply (f_equal length) in Hdrop.
      rewrite length_drop in Hdrop. simpl in Hdrop. lia. }
    assert (Hc' : keys !! S t = Some c').
    { rewrite <- (Nat.add_0_r (S t)), <- lookup_drop, Hdrop. done. }
    assert (Hrest : drop (S (S t)) keys = rest').
    { replace (S (S t)) with (S t + 1)%nat by lia.
      rewrite <- drop_drop, Hdrop. done. }
    assert (Hnext : forall k gp',
      (let* graftPath := forced_resolution operation d None o k keys (S t) gp' in
       let* o' := read (fun h => get_prop h o k) in
       if false && (S t <? length keys)%nat && not_an_object o'
       then throw (JsonPatchError OPERATION_PATH_UNRESOLVABLE)
       else walk reg f g operation NoValidation m ban d w None (length keys) n keys
              (S t) o' epf graftPath) h
      = match get_prop h o k with
        | Ok o' => operate f operation d (locate ban h c c' rest' o') h
        | Throw e => (Throw e, h)
        | Stuck => (Stuck, h)
        end).
    { intros k gp'. unfold forced_resolution.
      unfold bind at 1, ret at 1. unfold bind at 1, read at 1.
      destruct (get_prop h o k) as [o'| |]; [|done|done].
      cbn [andb]. rewrite <- Hrest. apply IH; try done; try lia.
      by replace (S t - 1)%nat with t by lia. }
    destruct (is_array h o) eqn:Ha.
    + unfold bind at 1, read at 1. rewrite array_key_std by done.
      destruct (std_array_key h o (component_key c)) as [k'| |]; [|done|done].
      rewrite Hlen. rewrite Hnext.
      destruct (get_prop h o k') as [o'| |]; done.
    + rewrite Hlen, Hnext. destruct (get_prop h o (component_key c)) as [o'| |]; done.
Qed.

End Locate.

Lemma applyOperation_with_locate reg f g d o ban i h :
  is_x o = false -> path o <> Some "" ->
  applyOperation_with reg f g d o NoValidation true ban i h
  = operate f o d (locate_path ban h (Str.split "/" (default "" (path o))) d) h.
Proof.
  intros Hx Hp. unfold applyOperation_with. cbn [validate_first].
  rewrite bool_decide_eq_false_2 by done. rewrite Hx.
  change (negb true) with false. cbv iota.
  unfold bind at 1, ret at 1. unfold bind at 1, ret at 1.
  set (keys := Str.split "/" (default "" (path o))).
  destruct keys as [|k0 [|c rest]] eqn:Hk.
  - done.
  - cbn [length walk locate_path]. unfold key_at. cbn [lookup list_lookup].
    rewrite andb_false_r. unfold existing_path_check. cbn [validating].
    unfold bind at 1, ret at 1. unfold bind at 1, get_heap at 1.
    destruct (is_array h d) eqn:Ha.
    + unfold bind at 1, read at 1. by rewrite array_key_std.
    + rewrite Hx. cbn. unfold operate. by rewrite Ha.
  - rewrite (walk_locate reg f g o true ban d d Hx (length (k0 :: c :: rest))
               (k0 :: c :: rest) 1%nat d k0 c None None h); try done.
    cbn [length]. lia.
Qed.

Lemma applyOperation_locate reg d o ban i h :
  is_x o = false -> path o <> Some "" ->
  applyOperation reg d o NoValidation true ban i h
  = operate (inner_default reg) o d
      (locate_path ban h (Str.split "/" (default "" (path o))) d) h.
Proof. apply applyOperation_with_locate. Qed.

(** A standard operation without validation writes nothing before its
    operator is called; the operator is the one of the table for lists when
    the container the path ends in is a list, of the table for maps
    otherwise. *)
Theorem standard_operation_locates reg d o ban i h :
  is_x o = false -> path o <> Some "" ->
  applyOperation reg d o NoValidation true ban i h
  = operate (inner_default reg) o d
      (locate_path ban h (Str.split "/" (default "" (path o))) d) h.
Proof. apply applyOperation_locate. Qed.

Lemma getValueByPointer_value reg d p h :
  getValueByPointer reg d (Some p) h
  = (if String.eqb p "" then Ok d else pointer_value h d p, h).
Proof.
  unfold getValueByPointer, getValueByPointer_with.
  destruct (String.eqb_spec p "") as [->|Hp]; [done|].
  destruct p as [|a p]; [done|].
  unfold bind, inner_default, applyOperation_inner.
  rewrite applyOperation_with_locate; [|done|cbn; congruence].
  cbn [path default]. unfold pointer_value, operate.
  destruct (locate_path true h _ d) as [[o k]| |]; [|done|done].
  unfold call_operator. cbn [op].
  assert (E : (if is_array h o then arrOps (fun _ _ => stuck) else objOps (fun _ _ => stuck))
              Op_get = Some (objOps__get)).
  { by destruct (is_array h o). }
  rewrite E. unfold objOps__get, bind, read, ret, test_failed.
  destruct (get_prop h o k); done.
Qed.

(** [getValueByPointer] reads and does nothing else. *)
Theorem getValueByPointer_reads reg d p h :
  getValueByPointer reg d (Some p) h
  = (if String.eqb p "" then Ok d else pointer_value h d p, h).
Proof. apply getValueByPointer_value. Qed.

Lemma standard_operation_locates_witness :
  let o := mkOp Op_add (Some "/a/c") None (VNum 2) None VUndef false in
  applyOperation ∅ (VRef 1%nat) o NoValidation true true 0%nat sample_map
  = operate (inner_default ∅) o (VRef 1%nat)
      (locate_path true sample_map (Str.split "/" "/a/c") (VRef 1%nat)) sample_map.
Proof.
  intros o. apply (standard_operation_locates ∅ (VRef 1%nat) o true 0%nat sample_map).
  - reflexivity.
  - vm_compute. discriminate.
Defined.

Lemma inherited_name_proto s : inherited_name s = false -> s <> "__proto__".
Proof. by intros H ->. Qed.

Lemma plookup_pset_eq k v ps : plookup k (pset k v ps) = Some v.
Proof.
  induction ps as [|[k' v'] ps IH]; simpl.
  - by rewrite String.eqb_refl.
  - destruct (String.eqb k k') eqn:E; simpl; rewrite ?String.eqb_refl, ?E; done.
Qed.

Lemma plookup_pset_ne k k' v ps : k' <> k -> plookup k' (pset k v ps) = plookup k' ps.
Proof.
  intros Hne. induction ps as [|[k1 v1] ps IH]; simpl.
  - by apply String.eqb_neq in Hne as ->.
  - destruct (String.eqb_spec k k1) as [->|Hk]; simpl.
    + by apply String.eqb_neq in Hne as ->.
    + by rewrite IH.
Qed.

Lemma plookup_pdel_ne k k' ps : k' <> k -> plookup k' (pdel k ps) = plookup k' ps.
Proof.
  intros Hne. induction ps as [|[k1 v1] ps IH]; simpl; [done|].
  destruct (String.eqb_spec k k1) as [->|Hk]; simpl.
  - by apply String.eqb_neq in Hne as ->.
  - by rewrite IH.
Qed.

Lemma plookup_None k ps : ~ In k (map fst ps) -> plookup k ps = None.
Proof.
  induction ps as [|[k1 v1] ps IH]; simpl; [done|]. intros H.
  destruct (String.eqb_spec k k1) as [->|Hk]; [tauto|]. apply IH. tauto.
Qed.

Lemma plookup_pdel_eq k ps : List.NoDup (map fst ps) -> plookup k (pdel k ps) = None.
Proof.
  induction ps as [|[k1 v1] ps IH]; simpl; [done|]. intros H. inversion H; subst.
  destruct (String.eqb_spec k k1) as [->|Hk]; simpl.
  - by apply plookup_None.
  - apply String.eqb_neq in Hk as ->. by apply IH.
Qed.

Section MapMember.

Variable reg : gmap string XConfig.
Variable d : val.
Variable p : string.
Variable ban : bool.
Variable i : nat.
Variable h : list cell.
Variable l : nat.
Variable k : key.
Variable ps : list (string * val).
Hypothesis Hp : p <> "".
Hypothesis Hloc : locate_path ban h (Str.split "/" p) d = Ok (VRef l, k).
Hypothesis Hl : h !! l = Some (CObj ps).

Lemma map_operator o :
  is_x o = false -> path o = Some p ->
  applyOperation reg d o NoValidation true ban i h
  = call_operator o d (objOps (inner_default reg)) (VRef l) k h.
Proof.
  intros Hx Hpath. rewrite applyOperation_locate; [|done|rewrite Hpath; congruence].
  rewrite Hpath. change (default "" (Some p)) with p. rewrite Hloc. unfold operate. cbn [is_array]. by rewrite Hl.
Qed.

Lemma other_cells c l' : l' <> l -> <[l := c]> h !! l' = h !! l'.
Proof. intros Hne. by apply list_lookup_insert_ne. Qed.

Lemma this_cell c : <[l := c]> h !! l = Some c.
Proof. apply list_lookup_insert_eq. by apply lookup_lt_Some in Hl. Qed.

Lemma add_to_map v :
  applyOperation reg d (mkOp Op_add (Some p) None v None VUndef false)
    NoValidation true ban i h
  = (Ok (result_doc d), <[l := CObj (pset (key_name k) v ps)]> h).
Proof.
  rewrite map_operator by done.
  unfold call_operator, objOps, objOps_add, test_failed, bind, write, set_prop, ret.
  cbn [op value]. by rewrite Hl.
Qed.

Lemma replace_in_map v :
  applyOperation reg d (mkOp Op_replace (Some p) None v None VUndef false)
    NoValidation true ban i h
  = (Ok (mkResult d (default VUndef (plookup (key_name k) ps)) None None VUndef),
     <[l := CObj (pset (key_name k) v ps)]> h).
Proof.
  rewrite map_operator by done.
  unfold call_operator, objOps, objOps_replace, test_failed, bind, read, write,
    set_prop, ret.
  cbn [op value get_prop]. by rewrite Hl.
Qed.

Lemma remove_from_map :
  applyOperation reg d (mkOp Op_remove (Some p) None VUndef None VUndef false)
    NoValidation true ban i h
  = (Ok (mkResult d (default VUndef (plookup (key_name k) ps)) None None VUndef),
     <[l := CObj (pdel (key_name k) ps)]> h).
Proof.
  rewrite map_operator by done.
  unfold call_operator, objOps, objOps_remove, test_failed, bind, read, write,
    delete_prop, ret.
  cbn [op value get_prop]. by rewrite Hl.
Qed.

(** [add] on a member of a map sets that member and nothing else. *)
Theorem add_sets_member v :
  key_name k <> "__proto__" ->
  let out := applyOperation reg d (mkOp Op_add (Some p) None v None VUndef false)
               NoValidation true ban i h in
  fst out = Ok (result_doc d)
  /\ get_prop (snd out) (VRef l) k = Ok v
  /\ (forall k', key_name k' <> key_name k ->
        get_prop (snd out) (VRef l) k' = get_prop h (VRef l) k')
  /\ (forall l', l' <> l -> snd out !! l' = h !! l')
  /\ length (snd out) = length h.
Proof.
  intros _. cbv zeta. rewrite add_to_map. cbn [fst snd].
  split; [done|]. split; [|split; [|split]].
  - cbn [get_prop]. rewrite this_cell. by rewrite plookup_pset_eq.
  - intros k' Hk'. cbn [get_prop]. rewrite this_cell, ?Hl.
    by rewrite plookup_pset_ne.
  - intros l' Hl'. by apply other_cells.
  - apply length_insert.
Qed.

(** [replace] on a member of a map does the same and reports the value
    that was there, [undefined] when there was none. *)
Theorem replace_reports_member v :
  inherited_name (key_name k) = false ->
  let out := applyOperation reg d (mkOp Op_replace (Some p) None v None VUndef false)
               NoValidation true ban i h in
  fst out = Ok (mkResult d (default VUndef (plookup (key_name k) ps)) None None VUndef)
  /\ get_prop (snd out) (VRef l) k = Ok v
  /\ (forall k', key_name k' <> key_name k ->
        get_prop (snd out) (VRef l) k' = get_prop h (VRef l) k')
  /\ (forall l', l' <> l -> snd out !! l' = h !! l')
  /\ length (snd out) = length h.
Proof.
  intros _. cbv zeta. rewrite replace_in_map. cbn [fst snd].
  split; [done|]. split; [|split; [|split]].
  - cbn [get_prop]. rewrite this_cell. by rewrite plookup_pset_eq.
  - intros k' Hk'. cbn [get_prop]. rewrite this_cell, ?Hl.
    by rewrite plookup_pset_ne.
  - intros l' Hl'. by apply other_cells.
  - apply length_insert.
Qed.

(** [remove] on a member of a map reports the value that was there and
    leaves the member absent; the other members and the other objects stay
    as they were. *)
Theorem remove_deletes_member :
  inherited_name (key_name k) = false ->
  List.NoDup (map fst ps) ->
  let out := applyOperation reg d (mkOp Op_remove (Some p) None VUndef None VUndef false)
               NoValidation true ban i h in
  fst out = Ok (mkResult d (default VUndef (plookup (key_name k) ps)) None None VUndef)
  /\ (exists ps', snd out !! l = Some (CObj ps') /\ plookup (key_name k) ps' = None)
  /\ get_prop (snd out) (VRef l) k = Ok VUndef
  /\ (forall k', key_name k' <> key_name k ->
        get_prop (snd out) (VRef l) k' = get_prop h (VRef l) k')
  /\ (forall l', l' <> l -> snd out !! l' = h !! l')
  /\ length (snd out) = length h.
Proof.
  intros _ Hnd. cbv zeta. rewrite remove_from_map. cbn [fst snd].
  split; [done|]. split; [|split; [|split; [|split]]].
  - eexists. split; [apply this_cell|]. by apply plookup_pdel_eq.
  - cbn [get_prop]. rewrite this_cell. by rewrite plookup_pdel_eq.
  - intros k' Hk'. cbn [get_prop]. rewrite this_cell, ?Hl.
    by rewrite plookup_pdel_ne.
  - intros l' Hl'. by apply other_cells.
  - apply length_insert.
Qed.

End MapMember.

Lemma add_sets_member_witness :
  let out := applyOperation ∅ (VRef 1%nat)
               (mkOp Op_add (Some "/a/c") None (VNum 2) None VUndef false)
               NoValidation true true 0%nat sample_map in
  fst out = Ok (result_doc (VRef 1%nat))
  /\ get_prop (snd out) (VRef 0%nat) (KStr "c") = Ok (VNum 2).
Proof.
  destruct (add_sets_member ∅ (VRef 1%nat) "/a/c" true 0%nat sample_map 0%nat (KStr "c")
              [("b", VNum 1)]) with (v := VNum 2) as (H1 & H2 & _).
  - vm_compute. discriminate.
  - vm_compute. reflexivity.
  - reflexivity.
  - vm_compute. discriminate.
  - by split.
Defined.

Lemma replace_reports_member_witness :
  let out := applyOperation ∅ (VRef 1%nat)
               (mkOp Op_replace (Some "/a/b") None (VNum 2) None VUndef false)
               NoValidation true true 0%nat sample_map in
  fst out = Ok (mkResult (VRef 1%nat) (VNum 1) None None VUndef)
  /\ get_prop (snd out) (VRef 0%nat) (KStr "b") = Ok (VNum 2).
Proof.
  destruct (replace_reports_member ∅ (VRef 1%nat) "/a/b" true 0%nat sample_map 0%nat
              (KStr "b") [("b", VNum 1)]) with (v := VNum 2) as (H1 & H2 & _).
  - vm_compute. discriminate.
  - vm_compute. reflexivity.
  - reflexivity.
  - vm_compute. reflexivity.
  - by split.
Defined.

Lemma remove_deletes_member_witness :
  let out := applyOperation ∅ (VRef 1%nat)
               (mkOp Op_remove (Some "/a/b") None VUndef None VUndef false)
               NoValidation true true 0%nat sample_map in
  fst out = Ok (mkResult (VRef 1%nat) (VNum 1) None None VUndef)
  /\ get_prop (snd out) (VRef 0%nat) (KStr "b") = Ok VUndef.
Proof.
  destruct (remove_deletes_member ∅ (VRef 1%nat) "/a/b" true 0%nat sample_map 0%nat
              (KStr "b") [("b", VNum 1)]) as (H1 & _ & H2 & _).
  - vm_compute. discriminate.
  - vm_compute. reflexivity.
  - reflexivity.
  - vm_compute. reflexivity.
  - repeat constructor. cbn. tauto.
  - by split.
Defined.

(** ** The decimal spelling of an index *)

Lemma codes_String c s : Str.codes (String c s) = nat_of_ascii c :: Str.codes s.
Proof. reflexivity. Qed.

Lemma digits_fold l : forall acc,
  fold_left (fun acc c => 10 * acc + (Z.of_nat c - 48)) l acc
  = acc * 10 ^ Z.of_nat (length l) + digits_value l.
Proof.
  unfold digits_value. induction l as [|c l IH]; intros acc.
  - simpl. lia.
  - cbn [fold_left length]. rewrite IH, (IH (10 * 0 + _)).
    rewrite Nat2Z.inj_succ, Z.pow_succ_r by lia. lia.
Qed.

Lemma digits_value_cons c l :
  digits_value (c :: l) = (Z.of_nat c - 48) * 10 ^ Z.of_nat (length l) + digits_value l.
Proof. unfold digits_value at 1. cbn [fold_left]. rewrite digits_fold. lia. Qed.

Lemma pretty_N_char_code x :
  (x < 10)%N -> nat_of_ascii (pretty_N_char x) = (48 + N.to_nat x)%nat.
Proof.
  intros Hx.
  assert (x = 0 \/ x = 1 \/ x = 2 \/ x = 3 \/ x = 4 \/ x = 5 \/ x = 6 \/ x = 7
          \/ x = 8 \/ x = 9)%N as H by lia.
  repeat (destruct H as [->|H]; [reflexivity|]). by subst.
Qed.

Lemma pretty_N_go_digits x : forall s,
  isInteger_codes (Str.codes s) = true ->
  isInteger_codes (Str.codes (pretty_N_go x s)) = true
  /\ digits_value (Str.codes (pretty_N_go x s))
     = Z.of_N x * 10 ^ Z.of_nat (length (Str.codes s)) + digits_value (Str.codes s).
Proof.
  induction (N.lt_wf_0 x) as [x _ IH]; intros s Hs.
  destruct (N.eq_0_gt_0_cases x) as [->|Hx].
  - rewrite pretty_N_go_0. split; [done|]. lia.
  - rewrite pretty_N_go_step by done.
    assert (Hm : (x `mod` 10 < 10)%N) by (by apply N.mod_lt).
    assert (Hq : (x `div` 10 < x)%N) by (by apply N.div_lt).
    pose proof (N.Div0.div_mod x 10%N) as Hdm.
    revert IH Hm Hq Hdm. generalize (x `mod` 10)%N (x `div` 10)%N. intros r q IH Hm Hq Hdm.
    destruct (IH q Hq (String (pretty_N_char r) s)) as [H1 H2].
    { rewrite codes_String. cbn [isInteger_codes].
      rewrite pretty_N_char_code by done.
      replace ((48 <=? 48 + N.to_nat r)%nat && (48 + N.to_nat r <=? 57)%nat)
        with true; [done|].
      symmetry. apply andb_true_iff. split; apply Nat.leb_le; lia. }
    split; [done|]. rewrite H2, codes_String, digits_value_cons.
    cbn [length]. rewrite pretty_N_char_code by done.
    rewrite Nat2Z.inj_succ, Z.pow_succ_r by lia.
    rewrite Nat2Z.inj_add, N_nat_Z.
    assert (Z.of_N x = 10 * Z.of_N q + Z.of_N r) by lia.
    change (Z.of_nat 48) with 48. nia.
Qed.

Lemma pretty_N_go_head x : forall s,
  (0 < x)%N ->
  exists c r, Str.codes (pretty_N_go x s) = c :: r /\ (c =? 48)%nat = false.
Proof.
  induction (N.lt_wf_0 x) as [x _ IH]; intros s Hx.
  rewrite pretty_N_go_step by done.
  assert (Hm : (x `mod` 10 < 10)%N) by (by apply N.mod_lt).
  assert (Hq : (x `div` 10 < x)%N) by (by apply N.div_lt).
  pose proof (N.Div0.div_mod x 10%N) as Hdm.
  revert IH Hm Hq Hdm. generalize (x `mod` 10)%N (x `div` 10)%N. intros r q IH Hm Hq Hdm.
  destruct (N.eq_0_gt_0_cases q) as [->|Hd].
  - rewrite pretty_N_go_0, codes_String.
    eexists _, _. split; [done|]. rewrite pretty_N_char_code by done.
    apply Nat.eqb_neq. lia.
  - by apply IH.
Qed.

Lemma isInteger_pretty (n : Z) : 0 <= n -> isInteger (pretty n) = true.
Proof.
  intros Hn. unfold isInteger. destruct n as [|q|q]; [done| |lia].
  unfold pretty, pretty_Z, pretty, pretty_positive, pretty, pretty_N.
  rewrite decide_False by done. by apply pretty_N_go_digits.
Qed.

Lemma digits_value_pretty (n : Z) : 0 <= n -> digits_value (Str.codes (pretty n)) = n.
Proof.
  intros Hn. destruct n as [|q|q]; [done| |lia].
  unfold pretty, pretty_Z, pretty, pretty_positive, pretty, pretty_N.
  rewrite decide_False by done.
  destruct (pretty_N_go_digits (N.pos q) "") as [_ ->]; [done|].
  cbn. lia.
Qed.

Lemma array_index_pretty (n : Z) :
  0 <= n < 2 ^ 32 - 1 -> array_index (pretty n) = Some (Z.to_nat n).
Proof.
  intros Hn. unfold array_index, index_value.
  pose proof (isInteger_pretty n ltac:(lia)) as Hi. unfold isInteger in Hi.
  pose proof (digits_value_pretty n ltac:(lia)) as Hv.
  destruct n as [|q|q]; [done| |lia].
  destruct (pretty_N_go_head (N.pos q) "" ltac:(lia)) as (c & r & E & Hc).
  unfold pretty, pretty_Z, pretty, pretty_positive, pretty, pretty_N in *.
  rewrite decide_False in * by done. rewrite E in *.
  rewrite Hi, Hc. cbn [negb orb andb]. rewrite Hv.
  replace (Z.pos q <? 2 ^ 32 - 1) with true; [done|].
  symmetry. apply Z.ltb_lt. lia.
Qed.

Lemma ToInt32_small n : - 2 ^ 31 <= n < 2 ^ 31 -> ToInt32 n = n.
Proof.
  intros Hn. unfold ToInt32. rewrite Z.mod_small; lia.
Qed.

Section ListElement.

Variable reg : gmap string XConfig.
Variable d : val.
Variable p : string.
Variable ban : bool.
Variable i : nat.
Variable h : list cell.
Variable l : nat.
Variable n : Z.
Variable es : list val.
Variable ps : list (string * val).
Hypothesis Hp : p <> "".
Hypothesis Hloc : locate_path ban h (Str.split "/" p) d = Ok (VRef l, KNum n).
Hypothesis Hl : h !! l = Some (CArr es ps).
Hypothesis Hn : 0 <= n < 2 ^ 31.

Lemma list_operator o :
  is_x o = false -> path o = Some p ->
  applyOperation reg d o NoValidation true ban i h
  = call_operator o d (arrOps (inner_default reg)) (VRef l) (KNum n) h.
Proof.
  intros Hx Hpath. rewrite applyOperation_locate; [|done|rewrite Hpath; congruence].
  rewrite Hpath. change (default "" (Some p)) with p. rewrite Hloc.
  unfold operate. cbn [is_array]. by rewrite Hl.
Qed.

Lemma splice_from_start del ins :
  splice es n del ins
  = let j := Z.to_nat (Z.min n (Z.of_nat (length es))) in
    (take j es ++ ins ++ drop (j + del) es, take del (drop j es)).
Proof.
  unfold splice. replace (n <? 0) with false; [done|].
  symmetry. apply Z.ltb_ge. lia.
Qed.



(** [replace] in a list overwrites the element at the index and reports
    what was there; at an index beyond the end the list is first filled up
    with [undefined]. *)
Theorem replace_overwrites_element v :
  let j := Z.to_nat n in
  applyOperation reg d (mkOp Op_replace (Some p) None v None VUndef false)
    NoValidation true ban i h
  = (Ok (mkResult d (default VUndef (es !! j)) None None VUndef),
     <[l := CArr (if (j <? length es)%nat then <[j := v]> es
                  else es ++ replicate (j - length es) VUndef ++ [v]) ps]> h).
Proof.
  cbv zeta. rewrite list_operator by done.
  unfold call_operator, arrOps, arrOps_replace, test_failed.
  cbn [op value].
  unfold bind, read, write, ret, get_prop, set_prop, key_index. cbn [key_name].
  rewrite Hl, array_index_pretty by lia. cbn [test].
  unfold pad_to. by rewrite <- app_assoc.
Qed.

End ListElement.



Lemma replace_overwrites_element_witness :
  applyOperation ∅ (VRef 0%nat) (mkOp Op_replace (Some "/5") None (VNum 9) None VUndef false)
    NoValidation true true 0%nat sample_list
  = (Ok (mkResult (VRef 0%nat) VUndef None None VUndef),
     [CArr [VNum 1; VNum 2; VNum 3; VUndef; VUndef; VNum 9] []]).
Proof.
  apply (replace_overwrites_element ∅ (VRef 0%nat) "/5" true 0%nat sample_list 0%nat 5
           [VNum 1; VNum 2; VNum 3] []).
  - vm_compute. discriminate.
  - vm_compute. reflexivity.
  - reflexivity.
  - lia.
Defined.

Lemma chars_inj s1 s2 : Str.chars s1 = Str.chars s2 -> s1 = s2.
Proof.
  intros H. rewrite <- (string_of_list_ascii_of_string s1),
    <- (string_of_list_ascii_of_string s2). unfold Str.chars in H. by rewrite H.
Qed.

Lemma split_chars_one sep l :
  existsb (Ascii.eqb sep) l = false -> Str.split_chars sep l = [l].
Proof.
  induction l as [|c l IH]; [done|]. cbn. intros H.
  apply orb_false_iff in H as [Hc Hl]. rewrite Ascii.eqb_sym, Hc, IH; done.
Qed.

Lemma escaped_has_no_slash s : Str.has_char "/" (escapePathComponent s) = false.
Proof.
  unfold Str.has_char. rewrite escapePathComponent_chars.
  induction (Str.chars s) as [|c l IH]; [done|].
  cbn [flat_map]. rewrite existsb_app, IH, orb_false_r.
  unfold escape_char. destruct (Ascii.eqb_spec c "~") as [->|H1]; [done|].
  destruct (Ascii.eqb_spec c "/") as [->|H2]; [done|].
  cbn [existsb]. rewrite orb_false_r. apply Ascii.eqb_neq. congruence.
Qed.

Lemma escaped_without_tilde s :
  Str.has_char "~" (escapePathComponent s) = false -> escapePathComponent s = s.
Proof.
  unfold Str.has_char. rewrite escapePathComponent_chars. intros H.
  assert (E : existsb (Ascii.eqb "/") (Str.chars s) = false
              /\ existsb (Ascii.eqb "~") (Str.chars s) = false).
  { induction (Str.chars s) as [|c l IH]; [done|].
    cbn [flat_map] in H. rewrite existsb_app in H.
    apply orb_false_iff in H as [Hc Hl]. destruct (IH Hl) as [I1 I2].
    cbn [existsb]. rewrite I1, I2, !orb_false_r.
    unfold escape_char in Hc. rewrite !(Ascii.eqb_sym _ c).
    destruct (Ascii.eqb c "~"); [done|]. destruct (Ascii.eqb c "/"); done. }
  destruct E as [E1 E2]. unfold escapePathComponent, Str.has_char. by rewrite E1, E2.
Qed.

Lemma escaped_component (s : string) :
  Str.split "/" (String "/" (escapePathComponent s)) = [""; escapePathComponent s]
  /\ key_at (Str.split "/" (String "/" (escapePathComponent s))) 1 = KStr s.
Proof.
  assert (E : Str.split "/" (String "/" (escapePathComponent s))
              = [""; escapePathComponent s]).
  { unfold Str.split. cbn [Str.chars list_ascii_of_string Str.split_chars].
    rewrite Ascii.eqb_refl. fold (Str.chars (escapePathComponent s)).
    rewrite split_chars_one by apply escaped_has_no_slash.
    cbn. unfold Str.of_chars, Str.chars. by rewrite string_of_list_ascii_of_string. }
  split; [done|]. rewrite E. unfold key_at. cbn [lookup list_lookup].
  destruct (negb _ && Str.has_char "~" (escapePathComponent s)) eqn:Ht.
  - by rewrite unescape_of_escape.
  - f_equal. apply andb_false_iff in Ht as [Ht|Ht].
    + apply negb_false_iff, String.eqb_eq in Ht.
      apply escaped_without_tilde. by rewrite Ht.
    + by apply escaped_without_tilde.
Qed.

(** A key escaped by [escapePathComponent] is one component of a path, and
    the traversal reads it back as the key. *)
Theorem escaped_key_is_one_component (s : string) :
  Str.split "/" (String "/" (escapePathComponent s)) = [""; escapePathComponent s]
  /\ key_at (Str.split "/" (String "/" (escapePathComponent s))) 1 = KStr s.
Proof. apply escaped_component. Qed.

Lemma component_key_escaped s : component_key (escapePathComponent s) = KStr s.
Proof.
  destruct (escaped_component s) as [E H]. rewrite E in H.
  by rewrite (key_at_component _ _ (escapePathComponent s)) in H.
Qed.

Lemma locate_member ban h l ps s :
  h !! l = Some (CObj ps) -> s <> "__proto__" ->
  locate_path ban h (Str.split "/" (String "/" (escapePathComponent s))) (VRef l)
  = Ok (VRef l, KStr s).
Proof.
  intros Hl Hs. destruct (escaped_component s) as [-> _].
  cbn [locate_path locate]. rewrite component_key_escaped.
  cbn [key_is]. apply String.eqb_neq in Hs as ->.
  rewrite andb_false_r. cbn [orb]. rewrite andb_false_r.
  cbn [is_array]. by rewrite Hl.
Qed.

(** A member of the root map, under whatever name, is found by
    [getValueByPointer] as [add] or [replace] left it, and reads as
    [undefined] once it is removed. *)
Theorem member_round_trip reg l ps s v i h :
  h !! l = Some (CObj ps) -> inherited_name s = false -> List.NoDup (map fst ps) ->
  let p := String "/" (escapePathComponent s) in
  let after o := snd (applyOperation reg (VRef l) o NoValidation true true i h) in
  fst (getValueByPointer reg (VRef l) (Some p)
         (after (mkOp Op_add (Some p) None v None VUndef false))) = Ok v
  /\ fst (getValueByPointer reg (VRef l) (Some p)
            (after (mkOp Op_replace (Some p) None v None VUndef false))) = Ok v
  /\ fst (getValueByPointer reg (VRef l) (Some p)
            (after (mkOp Op_remove (Some p) None VUndef None VUndef false))) = Ok VUndef
  /\ fst (getValueByPointer reg (VRef l) (Some p) h)
     = Ok (default VUndef (plookup s ps)).
Proof.
  intros Hl Hs Hnd. cbv zeta. apply inherited_name_proto in Hs.
  pose proof (locate_member true h l ps s Hl Hs) as Hloc.
  assert (Hget : forall h' ps', h' !! l = Some (CObj ps') ->
            fst (getValueByPointer reg (VRef l)
                   (Some (String "/" (escapePathComponent s))) h')
            = Ok (default VUndef (plookup s ps'))).
  { intros h' ps' Hl'. rewrite getValueByPointer_value. cbn [String.eqb fst].
    unfold pointer_value. rewrite (locate_member true h' l ps' s Hl' Hs).
    cbn [get_prop key_name]. by rewrite Hl'. }
  assert (Hin : forall c, <[l := c]> h !! l = Some c).
  { intros c. apply list_lookup_insert_eq. by apply lookup_lt_Some in Hl. }
  split; [|split; [|split]].
  - rewrite (add_to_map reg (VRef l) (String "/" (escapePathComponent s)) true i h l
               (KStr s) ps ltac:(done) Hloc Hl).
    cbn [snd]. rewrite (Hget _ _ (Hin _)). cbn [key_name]. by rewrite plookup_pset_eq.
  - rewrite (replace_in_map reg (VRef l) (String "/" (escapePathComponent s)) true i h l
               (KStr s) ps ltac:(done) Hloc Hl).
    cbn [snd]. rewrite (Hget _ _ (Hin _)). cbn [key_name]. by rewrite plookup_pset_eq.
  - rewrite (remove_from_map reg (VRef l) (String "/" (escapePathComponent s)) true i h l
               (KStr s) ps ltac:(done) Hloc Hl).
    cbn [snd]. rewrite (Hget _ _ (Hin _)). cbn [key_name]. by rewrite plookup_pdel_eq by done.
  - by apply Hget.
Qed.

Lemma member_round_trip_witness :
  let h := [CObj [("a/b", VNum 1)]] in
  let p := String "/" (escapePathComponent "a/b") in
  let after o := snd (applyOperation ∅ (VRef 0%nat) o NoValidation true true 0%nat h) in
  fst (getValueByPointer ∅ (VRef 0%nat) (Some p)
         (after (mkOp Op_add (Some p) None (VNum 2) None VUndef false))) = Ok (VNum 2)
  /\ fst (getValueByPointer ∅ (VRef 0%nat) (Some p)
            (after (mkOp Op_replace (Some p) None (VNum 2) None VUndef false)))
     = Ok (VNum 2)
  /\ fst (getValueByPointer ∅ (VRef 0%nat) (Some p)
            (after (mkOp Op_remove (Some p) None VUndef None VUndef false))) = Ok VUndef
  /\ fst (getValueByPointer ∅ (VRef 0%nat) (Some p) h) = Ok (VNum 1).
Proof.
  apply (member_round_trip ∅ 0%nat [("a/b", VNum 1)] "a/b" (VNum 2) 0%nat
           [CObj [("a/b", VNum 1)]]).
  - reflexivity.
  - vm_compute. reflexivity.
  - repeat constructor. cbn. tauto.
Defined.

Lemma applyOperation_safe b reg v d o ban i :
  registry_pure_validators reg -> validation_pure v ->
  op o <> Op_x -> val_above b d -> val_above b (value o) ->
  safe_if True b (applyOperation reg d o v true ban i) (result_above b).
Proof.
  intros Hreg Hv Hop Hd Hval.
  apply (safe_if_weaken (stays_closed b o) True b _ (result_above b) (result_above b));
    [|intros _; split; [by apply is_x_false|done]|auto].
  unfold applyOperation. apply applyOperation_with_safe; auto.
  - intros d' o' Ho' Hd' Hv'. by apply inner_default_safe.
  - intros _ i' d' e. by apply exported_validateFunction_safe.
  - intros xc Ex. apply is_x_spec in Ex. contradiction.
  - intros _ xc Ex. apply is_x_spec in Ex. contradiction.
Qed.

Lemma applyPatch_loop_closed b reg v ban :
  registry_pure_validators reg -> validation_pure v ->
  forall patch d i,
    (forall o, In o patch -> op o <> Op_x /\ val_above b (value o)) ->
    val_above b d ->
    safe_if True b (applyPatch_loop (applyOperation reg) d patch v ban i) (fun _ => True).
Proof.
  intros Hreg Hv. induction patch as [|o rest IH]; intros d i Hp Hd; simpl;
    [by apply safe_ret|].
  destruct (Hp o (or_introl eq_refl)) as (Hop & Hval).
  eapply safe_bind; [by apply applyOperation_safe|]. intros r (Hr & _).
  eapply safe_bind; [apply IH; auto; intros; apply Hp; by right|].
  intros rs _. by apply safe_ret.
Qed.

(** [applyPatch] with [mutate = false] writes only into its clone of the
    document and into what the values of the patch lead to: when those
    values and everything they lead to lie in the cells from [b] on, the
    cells below [b] are left as they were. *)
Theorem applyPatch_copy_on_write reg v d patch ban b h :
  registry_pure_validators reg -> validation_pure v ->
  (forall o, In o patch -> op o <> Op_x /\ val_above b (value o)) ->
  above b h -> (b <= length h)%nat ->
  take b (snd (applyPatch reg d patch v false ban h)) = take b h.
Proof.
  intros Hreg Hv Hp Ha Hb.
  assert (S : safe_if True b (applyPatch reg d patch v false ban) (fun _ => True)).
  { unfold applyPatch, applyPatch_with. cbn [negb].
    eapply safe_bind; [apply deepClone_safe|]. intros c Hc.
    by apply applyPatch_loop_closed. }
  destruct (S h Ha Hb) as [[Hlen F] _].
  apply list_eq. intros j. rewrite !lookup_take.
  destruct (decide (j < b)%nat) as [Hj|Hj]; [|done]. by apply F.
Qed.

Lemma validate_each_safe b (f : ValidatorFn) :
  (forall o i d e, safe_if True b (f o i d e) (fun _ => True)) ->
  forall sequence i d, safe_if True b (validate_each f sequence i d) (fun _ => True).
Proof.
  intros Hf. induction sequence as [|o rest IH]; intros i d; simpl; [by apply safe_ret|].
  eapply safe_bind; [apply Hf|]. intros _ _. apply IH.
Qed.

(** [validate] is a dry run: it works on clones of the document and of the
    sequence, and no object that existed before the call is changed. *)
Theorem validate_is_a_dry_run reg sequence d ext h :
  registry_pure_validators reg ->
  (forall f, ext = Some f -> pure_validator f) ->
  standard_patch sequence ->
  take (length h) (snd (validate reg sequence d ext h)) = h.
Proof.
  intros Hreg Hext Hstd. apply frame_prefix.
  assert (S : safe_if True (length h) (validate reg sequence d ext) (fun _ => True));
    [|apply S; [intros l c Hlc Hc; apply lookup_lt_Some in Hc; lia|lia]].
  generalize (length h). intros b.
  assert (Hv : validation_pure (match ext with
                                | Some f => CustomValidation f
                                | None => DefaultValidation
                                end)).
  { destruct ext as [f|]; simpl; auto. }
  unfold validate, validate_with.
  apply (catch_safe b _ (fun _ => True)). unfold validate_body.
  destruct (negb (falsy d)).
  - eapply safe_bind; [apply deepClone_safe|]. intros c Hc.
    eapply safe_bind.
    { apply (safe_mapM b clone_operation
               (fun o' => op o' <> Op_x /\ val_above b (value o'))).
      intros o Ho.
      apply (safe_if_weaken True True b _ _ _ (clone_operation_safe b o)); [done|].
      intros o' [E Hval]. split; [|done]. rewrite E. by apply Hstd. }
    intros s Hs.
    eapply safe_bind; [|intros; by apply safe_ret].
    unfold applyPatch_with.
    eapply safe_bind; [simpl; by apply (safe_ret _ _ _ (val_above b))|].
    intros c' Hc'. by apply applyPatch_loop_closed.
  - apply validate_each_safe. intros o i d' e.
    destruct ext as [f|]; simpl.
    + apply pure_validator_safe. by apply Hext.
    + apply (exported_validateFunction_safe b reg DefaultValidation Hreg I).
Qed.

Lemma applyPatch_copy_on_write_witness :
  take 2 (snd (applyPatch ∅ (VRef 1%nat)
                 [mkOp Op_add (Some "/a/c") None (VNum 2) None VUndef false;
                  mkOp Op_remove (Some "/a/b") None VUndef None VUndef false]
                 NoValidation false true sample_map))
  = take 2 sample_map.
Proof.
  apply (applyPatch_copy_on_write ∅ NoValidation (VRef 1%nat) _ true 2 sample_map).
  - intros id xc H. rewrite lookup_empty in H. discriminate.
  - exact I.
  - intros o [<-|[<-|[]]]; split; try discriminate; exact I.
  - intros l c Hl Hc. apply lookup_lt_Some in Hc. cbn in Hc. lia.
  - cbn. lia.
Defined.

Lemma validate_is_a_dry_run_witness :
  take 2 (snd (validate ∅ [mkOp Op_replace (Some "/missing") None (VNum 1) None VUndef false]
                 (VRef 1%nat) None sample_map))
  = sample_map.
Proof.
  apply (validate_is_a_dry_run ∅ _ (VRef 1%nat) None sample_map).
  - intros id xc H. rewrite lookup_empty in H. discriminate.
  - discriminate.
  - intros o [<-|[]]. discriminate.
Defined.

Lemma applyPatch_loop_index apply' d patch v ban :
  (forall d o v m ban i j h, apply' d o v m ban i h = apply' d o v m ban j h) ->
  forall i j h, applyPatch_loop apply' d patch v ban i h
                = applyPatch_loop apply' d patch v ban j h.
Proof.
  intros Hi. revert d. induction patch as [|o rest IH]; intros d i j h; [done|].
  cbn [applyPatch_loop]. unfold bind at 1 3. rewrite (Hi _ _ _ _ _ i j).
  destruct (apply' d o v true ban j h) as [[r| |] h1]; [|done|done].
  unfold bind. by rewrite (IH (newDocument r) (S i) (S j) h1).
Qed.

Lemma applyPatch_loop_app reg v ban p2 : forall p1 d i h,
  applyPatch_loop (applyOperation reg) d (p1 ++ p2) v ban i h
  = (let* r1 := applyPatch_loop (applyOperation reg) d p1 v ban i in
     let* r2 := applyPatch_loop (applyOperation reg) (snd r1) p2 v ban 0%nat in
     ret (fst r1 ++ fst r2, snd r2)) h.
Proof.
  induction p1 as [|o p1 IH]; intros d i h.
  - cbn [app applyPatch_loop]. unfold bind at 1, ret at 1. cbn [fst snd app].
    rewrite (applyPatch_loop_index (applyOperation reg) d p2 v ban
               ltac:(reflexivity) i 0%nat h).
    unfold bind, ret. by destruct (applyPatch_loop _ _ _ _ _ _ _) as [[[rs d']| |] h'].
  - cbn [app applyPatch_loop]. unfold bind at 1 3 4.
    destruct (applyOperation reg d o v true ban i h) as [[r| |] h1]; [|done|done].
    unfold bind at 1. rewrite IH. unfold bind at 1 3.
    destruct (applyPatch_loop _ _ p1 _ _ _ h1) as [[[rs1 d1]| |] h2]; [|done|done].
    cbn [fst snd ret]. unfold bind, ret.
    by destruct (applyPatch_loop _ d1 p2 _ _ _ h2) as [[[rs2 d2]| |] h3].
Qed.

(** A patch applied in one call is its first part applied, and then its
    second part applied in place to the document the first part returned.
    When the first part throws, the second is not started. *)
Theorem applyPatch_app reg d p1 p2 v m ban h :
  applyPatch reg d (p1 ++ p2) v m ban h
  = (let* r1 := applyPatch reg d p1 v m ban in
     let* r2 := applyPatch reg (snd r1) p2 v true ban in
     ret (fst r1 ++ fst r2, snd r2)) h.
Proof.
  unfold applyPatch, applyPatch_with.
  destruct m; cbn [negb].
  - change (bind (ret d) ?k ?h) with (k d h). cbv beta.
    rewrite applyPatch_loop_app. unfold bind, ret.
    by destruct (applyPatch_loop _ d p1 _ _ _ h) as [[[rs1 d1]| |] h1].
  - unfold bind.
    destruct (_deepClone d h) as [[c| |] h0]; [|done|done].
    rewrite applyPatch_loop_app. unfold bind, ret.
    by destruct (applyPatch_loop _ c p1 _ _ _ h0) as [[[rs1 d1]| |] h1].
Qed.

Lemma call_operator_test o d table c k h r h' :
  call_operator o d table c k h = (Ok r, h') -> test r <> Some false.
Proof.
  unfold call_operator. destruct (table (op o)) as [f|]; [|discriminate].
  unfold bind. destruct (f o c k d h) as [[r0| |] h0]; try discriminate.
  unfold test_failed. destruct (test r0) as [[|]|] eqn:E;
    intros H; inversion H; subst; congruence.
Qed.

Lemma apply_root_test reg f d o m h r h' :
  is_x o = false ->
  apply_root reg f d o NoValidation m h = (Ok r, h') -> test r <> Some false.
Proof.
  unfold is_x, apply_root. intros Hx.
  destruct (op o); try discriminate; cbn [validating];
    try (intros H; inversion H; subst; discriminate).
  - unfold bind. destruct (getValueByPointer_with f d (from o) h) as [[x| |] h0];
      intros H; inversion H; subst; discriminate.
  - unfold bind. destruct (getValueByPointer_with f d (from o) h) as [[x| |] h0];
      intros H; inversion H; subst; discriminate.
  - unfold bind, read. destruct (_areEquals h d (value o)) as [[|]| |];
      intros H; inversion H; subst; discriminate.
Qed.

(** For a standard operation the check that follows [applyOperation] in
    [applyReducer] never fires: a failed test has already thrown, and
    [applyReducer] returns the new document of [applyOperation]. *)
Theorem applyReducer_standard reg d o i h :
  is_x o = false ->
  applyReducer reg d o i h
  = (let* r := applyOperation reg d o NoValidation true true 0%nat in
     ret (newDocument r)) h.
Proof.
  intros Hx. unfold applyReducer, bind.
  destruct (applyOperation reg d o NoValidation true true 0%nat h) as [[r| |] h'] eqn:E;
    [|done|done].
  assert (Ht : test r <> Some false).
  { destruct (decide (path o = Some "")) as [Hp|Hp].
    - unfold applyOperation, applyOperation_with in E. cbn [validate_first] in E.
      rewrite bool_decide_eq_true_2 in E by done.
      eapply apply_root_test; [done|]. exact E.
    - rewrite applyOperation_locate in E by done. unfold operate in E.
      destruct (locate_path _ _ _ _) as [[c k]| |]; try discriminate.
      by eapply call_operator_test. }
  destruct (test r) as [[|]|]; done.
Qed.

(** ** The registry *)

(** Registration succeeds exactly on a well-formed identifier; the
    configuration is then the one found under it, replacing an earlier
    one, the other identifiers are as they were, and after
    [unregisterAllExtendedOperations] none is registered. *)
Theorem registration_round_trip reg xid config :
  (well_formed_xid xid <->
   useExtendedOperation reg xid config = Ok (<[xid := config]> reg))
  /\ (~ well_formed_xid xid ->
      useExtendedOperation reg xid config = Throw (JsonPatchError OPERATION_X_ID_INVALID))
  /\ (forall reg', useExtendedOperation reg xid config = Ok reg' ->
        hasExtendedOperation reg' xid = Ok true
        /\ registry_get reg' (Some xid) = Some config
        /\ (forall y, y <> xid ->
              hasExtendedOperation reg' y = hasExtendedOperation reg y
              /\ registry_get reg' (Some y) = registry_get reg (Some y))
        /\ (forall y, well_formed_xid y ->
              hasExtendedOperation (unregisterAllExtendedOperations reg') y = Ok false)).
Proof.
  unfold useExtendedOperation, hasExtendedOperation, unregisterAllExtendedOperations.
  pose proof (isValidExtendedOpId_spec xid) as Hs.
  destruct (isValidExtendedOpId xid) eqn:E; cbn [negb].
  - assert (Hw : well_formed_xid xid) by by apply Hs.
    split; [tauto|]. split; [tauto|].
    intros reg' H. inversion H; subst. cbn [registry_get].
    rewrite lookup_insert_eq. split; [by rewrite bool_decide_eq_true_2|].
    split; [done|]. split.
    + intros y Hy. by rewrite lookup_insert_ne.
    + intros y Hy. apply isValidExtendedOpId_spec in Hy as ->. cbn [negb].
      rewrite lookup_empty. rewrite bool_decide_eq_false_2; [done|]. by intros [? ?].
  - assert (Hw : ~ well_formed_xid xid).
    { intros Hw. apply Hs in Hw. discriminate. }
    split; [split; [tauto|discriminate]|]. split; [done|]. discriminate.
Qed.

Lemma applyReducer_standard_witness :
  let o := mkOp Op_test (Some "/a/b") None (VNum 1) None VUndef false in
  applyReducer ∅ (VRef 1%nat) o 0%nat sample_map
  = (let* r := applyOperation ∅ (VRef 1%nat) o NoValidation true true 0%nat in
     ret (newDocument r)) sample_map.
Proof. intros o. apply applyReducer_standard. reflexivity. Defined.

Lemma any_res_spec {A} (f : A -> res bool) (P : A -> Prop) (l : list A) :
  (forall x, In x l -> exists r, f x = Ok r /\ (r = false <-> P x)) ->
  exists r, any_res f l = Ok r /\ (r = false <-> Forall P l).
Proof.
  induction l as [|x rest IH]; intros Hf; simpl.
  - exists false. split; [done|]. split; auto.
  - destruct (Hf x (or_introl eq_refl)) as (r & -> & Hr).
    destruct r.
    + exists true. split; [done|]. split; [done|].
      intros H. inversion H; subst. by apply Hr.
    + destruct IH as (r' & -> & Hr'); [intros; apply Hf; by right|].
      exists r'. split; [done|]. rewrite Hr'. split.
      * intros H. constructor; [by apply Hr|done].
      * intros H. by inversion H.
Qed.

Lemma hasUndefined_fuel_spec h n : forall v,
  data_upto n h v ->
  exists r, hasUndefined_fuel n h v = Ok r /\ (r = false <-> no_undefined_upto n h v).
Proof.
  assert (Hprim : forall n v, (forall l, v <> VRef l) ->
            exists r, hasUndefined_fuel n h v = Ok r
                      /\ (r = false <-> no_undefined_upto n h v)).
  { clear n. intros n v Hv. destruct v as [| |b|z| |s|l]; [| | | | | |by destruct (Hv l)];
      try (exists false; split; [by destruct n; cbn; try destruct (negb _)|by destruct n]).
    exists true. split; [by destruct n|]. destruct n; cbn; split; try discriminate; tauto. }
  induction n as [|n IH]; intros v Hd.
  - destruct v as [| |b|z| |s|l]; try (apply Hprim; discriminate). by destruct Hd.
  - destruct v as [| |b|z| |s|l]; try (apply Hprim; discriminate).
    cbn [hasUndefined_fuel strict_eq val_eqb falsy negb no_undefined_upto].
    cbn [data_upto] in Hd.
    destruct (h !! l) as [[es ps|ps]|]; [| |done].
    + apply any_res_spec. intros x Hx. apply IH.
      eapply List.Forall_forall; [exact Hd|done].
    + destruct Hd as [_ Hd]. apply any_res_spec. intros x Hx. apply IH.
      eapply List.Forall_forall; [exact Hd|done].
Qed.

(** On data, [hasUndefined] answers, and it answers [false] exactly when
    neither the value nor anything within it is [undefined]. *)
Theorem hasUndefined_finds_undefined h v :
  data h v ->
  exists r, hasUndefined h v = Ok r /\ (r = false <-> no_undefined h v).
Proof. apply hasUndefined_fuel_spec. Qed.

(** [_deepClone] of a JSON value returns a value that is deep-equal to it
    and is built of new objects only; every object that was there is left as
    it was.  [undefined] is cloned to [null]. *)
Theorem deepClone_round_trip h v :
  json_value h v ->
  exists c h1,
    _deepClone v h = (Ok c, h1)
    /\ take (length h) h1 = h
    /\ deep_equal h h1 v c
    /\ val_above (length h) c
    /\ above (length h) h1.
Proof.
  intros Hv. destruct (deepClone_correct h v Hv) as (c & h1 & E & [k ->] & He & Hc & Ha).
  exists c, (h ++ k). split; [done|]. split; [by rewrite take_app_length|]. done.
Qed.

Lemma hasUndefined_finds_undefined_witness :
  let h := [CArr [VNum 1; VUndef] []; CObj [("a", VRef 0%nat)]] in
  exists r, hasUndefined h (VRef 1%nat) = Ok r /\ (r = false <-> no_undefined h (VRef 1%nat)).
Proof.
  apply hasUndefined_finds_undefined. cbn. split.
  - repeat constructor. intros H. inversion H.
  - repeat constructor.
Defined.

Lemma deepClone_round_trip_witness :
  exists c h1,
    _deepClone (VRef 1%nat) sample_map = (Ok c, h1)
    /\ take (length sample_map) h1 = sample_map
    /\ deep_equal sample_map h1 (VRef 1%nat) c
    /\ val_above (length sample_map) c
    /\ above (length sample_map) h1.
Proof. apply deepClone_round_trip. cbn. repeat constructor. Defined.

Lemma validator_quiet reg g o i d e :
  op o <> Op_x -> op o <> Op_move -> op o <> Op_copy ->
  quiet (validator reg g o i d e).
Proof.
  intros Hx Hm Hc. unfold validator.
  assert (Hu : quiet (if needs_value (op o)
                      then read (fun h => hasUndefined h (value o)) else ret false)).
  { destruct (needs_value (op o)); [apply quiet_read|apply quiet_ret]. }
  destruct (op o) eqn:Eo; try done; cbn [in_objOps];
    try match goal with |- context [inherited_name ?x] => destruct (inherited_name x) end;
    try apply quiet_throw;
    (destruct (path o) as [p|]; [|apply quiet_throw]);
    (destruct (path_starts_badly p); [apply quiet_throw|]);
    cbn [opname_eqb orb andb];
    (destruct (_ && strict_eq (value o) VUndef); [apply quiet_throw|]);
    (apply quiet_bind; [exact Hu|]); intros u;
    (destruct u; [apply quiet_throw|]);
    (destruct (negb (falsy d)); [|apply quiet_ret]).
  - destruct e as [e|]; [|apply quiet_throw].
    destruct (_ && _); [apply quiet_throw|apply quiet_ret].
  - destruct (negb _); [apply quiet_throw|apply quiet_ret].
  - destruct (negb _); [apply quiet_throw|apply quiet_ret].
  - apply quiet_ret.
  - destruct (negb _); [apply quiet_throw|apply quiet_ret].
  - apply quiet_ret.
Qed.

Section Conservative.

Variable reg : gmap string XConfig.
Variable f : val -> Operation -> M Result.
Variable g : option string -> val -> M (option JsonPatchErrorName).
Variable operation : Operation.
Variable v : Validation.
Variable m ban : bool.
Variable d w : val.
Variable len : nat.
Hypothesis Hx : is_x operation = false.
Hypothesis Hq : forall i d e, quiet (validateFunction reg g v operation i d e).

Lemma existing_path_check_quiet keys t o k epf h :
  snd (existing_path_check reg g operation v d len keys t o k epf h) = h.
Proof.
  unfold existing_path_check. destruct (validating v); [|done].
  destruct epf as [e|]; [done|].
  unfold bind, read. destruct (get_prop h o k) as [x| |]; [|done|done].
  destruct (if strict_eq x VUndef then _ else _) as [frag|]; [|done].
  pose proof (Hq 0%nat d (Some frag) h) as Hv.
  destruct (validateFunction reg g v operation 0%nat d (Some frag) h) as [[u| |] h1];
    simpl in *; by subst.
Qed.

Lemma array_key_validated h o keys t k gp x :
  array_key operation v h o keys t k gp = Ok x ->
  array_key operation NoValidation h o keys t k gp = Ok x.
Proof.
  unfold array_key. rewrite Hx. cbn [andb validating].
  destruct (key_is k "-"); [done|].
  destruct k as [|s|z]; try done.
  destruct (validating v && negb (isInteger s)); [discriminate|done].
Qed.

Lemma walk_validated n : forall keys t o epf epf' gp h r h',
  walk reg f g operation v m ban d w None len n keys t o epf gp h = (Ok r, h') ->
  walk reg f g operation NoValidation m ban d w None len n keys t o epf' gp h
  = (Ok r, h').
Proof.
  induction n as [|n IH]; intros keys t o epf epf' gp h r h'; [discriminate|].
  intros H. cbn [walk] in H |- *. destruct (ban && _); [discriminate|].
  unfold bind at 1 in H.
  pose proof (existing_path_check_quiet keys t o (key_at keys t) epf h) as Hh.
  destruct (existing_path_check reg g operation v d len keys t o (key_at keys t) epf h)
    as [[e1| |] h1]; try discriminate.
  simpl in Hh. subst h1.
  unfold bind at 1, get_heap at 1 in H.
  unfold existing_path_check. cbn [validating].
  unfold bind at 1, ret at 1. unfold bind at 1, get_heap at 1.
  rewrite Hx in H |- *.
  assert (Hnext : forall k keys' gp',
    (let* graftPath := forced_resolution operation d None o k keys' (S t) gp' in
     let* o' := read (fun h => get_prop h o k) in
     if validating v && (S t <? len)%nat && not_an_object o'
     then throw (JsonPatchError OPERATION_PATH_UNRESOLVABLE)
     else walk reg f g operation v m ban d w None len n keys' (S t) o' e1 graftPath) h
    = (Ok r, h') ->
    (let* graftPath := forced_resolution operation d None o k keys' (S t) gp' in
     let* o' := read (fun h => get_prop h o k) in
     if false && (S t <? len)%nat && not_an_object o'
     then throw (JsonPatchError OPERATION_PATH_UNRESOLVABLE)
     else walk reg f g operation NoValidation m ban d w None len n keys' (S t) o' epf'
            graftPath) h
    = (Ok r, h')).
  { intros k keys' gp'. unfold forced_resolution, bind, ret, read.
    destruct (get_prop h o k) as [o'| |]; try discriminate.
    cbn [andb].
    destruct (validating v && (S t <? len)%nat && not_an_object o'); [discriminate|].
    apply IH. }
  destruct (is_array h o) eqn:Ha.
  - unfold bind at 1, read at 1 in H. unfold bind at 1, read at 1.
    destruct (array_key operation v h o keys (S t) (key_at keys t) gp)
      as [[[k keys'] gp']| |] eqn:Ek; try discriminate.
    rewrite (array_key_validated _ _ _ _ _ _ _ Ek).
    destruct (len <=? S t)%nat; [|by apply Hnext].
    cbn [andb].
    destruct (validating v && opname_eqb (op operation) Op_add && key_gt_length h o k);
      [discriminate|done].
  - destruct (len <=? S t)%nat; [done|by apply Hnext].
Qed.

End Conservative.

Lemma applyOperation_validated reg d o v ban i h r h' :
  is_x o = false ->
  (forall i d e, quiet (validateFunction reg (inner_validate_get reg) v o i d e)) ->
  quiet (validate_first reg (inner_validate_get reg) d o v) ->
  applyOperation reg d o v true ban i h = (Ok r, h') ->
  applyOperation reg d o NoValidation true ban i h = (Ok r, h').
Proof.
  intros Hx Hq Hvf. specialize (Hvf h).
  unfold applyOperation, applyOperation_with.
  unfold bind at 1.
  destruct (validate_first reg (inner_validate_get reg) d o v h) as [[u| |] h1];
    try discriminate.
  simpl in Hvf. subst h1. cbn [validate_first].
  unfold bind at 2. unfold ret at 1.
  destruct (bool_decide (path o = Some "")).
  - unfold apply_root. destruct (op o); try done.
    destruct (validating v); [discriminate|done].
  - cbn [negb]. unfold bind, ret. rewrite Hx.
    by apply walk_validated.
Qed.

(** Validation only rejects: when [applyOperation] with validation
    returns, it has done and it returns what it does without validation. *)
Theorem validation_only_rejects reg d o v ban i h r h' :
  op o <> Op_x -> validation_pure v ->
  (v = DefaultValidation -> op o <> Op_move /\ op o <> Op_copy) ->
  applyOperation reg d o v true ban i h = (Ok r, h') ->
  applyOperation reg d o NoValidation true ban i h = (Ok r, h').
Proof.
  intros Hop Hv Hd.
  assert (Hx : is_x o = false) by by apply is_x_false.
  destruct v as [| |fv]; [done| |].
  - destruct (Hd eq_refl) as [Hm Hc].
    apply applyOperation_validated; [done| |].
    + intros i' d' e. by apply validator_quiet.
    + by apply validator_quiet.
  - apply applyOperation_validated; [done| |].
    + intros i' d' e h0. apply Hv.
    + intros h0. apply Hv.
Qed.

Lemma validation_only_rejects_witness :
  let o := mkOp Op_add (Some "/a/c") None (VNum 2) None VUndef false in
  applyOperation ∅ (VRef 1%nat) o NoValidation true true 0%nat sample_map
  = (Ok (result_doc (VRef 1%nat)),
     [CObj [("b", VNum 1); ("c", VNum 2)]; CObj [("a", VRef 0%nat)]]).
Proof.
  intros o.
  apply (validation_only_rejects ∅ (VRef 1%nat) o DefaultValidation true 0%nat sample_map).
  - discriminate.
  - exact I.
  - intros _. split; discriminate.
  - vm_compute. reflexivity.
Defined.

Lemma resolves_prim n h v : (forall l, v <> VRef l) -> resolves_upto n h v.
Proof. intros H. destruct v as [| | | | | |x]; try (by destruct n). exfalso. by apply (H x). Qed.

Lemma get_prop_resolves n h root k v :
  resolves_upto n h root -> get_prop h root k = Ok v -> resolves_upto (pred n) h v.
Proof.
  intros Hr Hg.
  assert (Hd : forall o (xs : list val),
            (forall x, o = Some x -> In x xs) ->
            Forall (resolves_upto (pred n) h) xs ->
            resolves_upto (pred n) h (default VUndef o)).
  { intros [x|] xs Hin Hall; [|by apply resolves_prim].
    cbn. rewrite Forall_forall in Hall. apply Hall, list_elem_of_In. by apply Hin. }
  destruct root as [| |b|z| |s|l]; cbn [get_prop] in Hg; try discriminate;
    try (inversion Hg; subst; by apply resolves_prim).
  - destruct (key_index k) as [j|].
    + destruct (Str.chars s !! j); inversion Hg; subst; by apply resolves_prim.
    + destruct (String.eqb _ _); inversion Hg; subst; by apply resolves_prim.
  - destruct n as [|n]; [done|]. cbn [resolves_upto pred] in *.
    destruct (h !! l) as [[es ps|ps]|]; [| |done].
    + rewrite Forall_app in Hr. destruct Hr as [He Hp].
      destruct (key_index k) as [j|].
      * inversion Hg; subst. apply (Hd _ es); [|done].
        intros x Hx. by apply (lookup_In es j).
      * destruct (String.eqb _ _); inversion Hg; subst; [by apply resolves_prim|].
        apply (Hd _ (map snd ps)); [|done]. intros x Hx. by apply (plookup_In (key_name k) ps).
    + inversion Hg; subst.
      apply (Hd _ (map snd ps)); [|done]. intros x Hx. by apply (plookup_In (key_name k) ps).
Qed.

Lemma append_slash_nonempty s t : String.eqb (String.append s (String "/" t)) "" = false.
Proof. by destruct s. Qed.

Section GetPath.

Variable h : list cell.
Variable obj : val.

Lemma search_keys_spec rec root keys :
  own_keys h root = Ok keys ->
  (forall k, In k keys -> exists v, get_prop h root (KStr k) = Ok v
     /\ (typeof_object v = true -> search_result h obj v (rec v))) ->
  forall todo,
    (forall k, In k keys -> In k todo \/ forall rest, ~ reaches h root (k :: rest) obj) ->
    (forall k, In k todo -> In k keys) ->
    search_result h obj root (search_keys rec h obj root todo).
Proof.
  intros Hk Hv. induction todo as [|k todo IH]; intros Hdone Hsub.
  - exists "". split; [done|]. cbn [String.eqb]. intros k rest Hr.
    pose proof Hr as (keys' & v & Hk' & Hin & _). rewrite Hk in Hk'. inversion Hk'; subst.
    destruct (Hdone k Hin) as [[]|Hn]. by apply (Hn rest).
  - cbn [search_keys].
    destruct (Hv k (Hsub k (or_introl eq_refl))) as (v & Hg & Hrec). rewrite Hg.
    assert (Hskip : (forall rest, ~ reaches h root (k :: rest) obj) ->
              search_result h obj root (search_keys rec h obj root todo)).
    { intros Hno. apply IH.
      - intros k' Hin'. destruct (Hdone k' Hin') as [[<-|Ht]|Hn]; auto.
      - intros k' Hin'. apply Hsub. by right. }
    destruct (strict_eq v obj) eqn:Eq.
    { eexists. split; [done|]. rewrite append_slash_nonempty.
      exists k, []. split; [done|]. cbn [reaches].
      exists keys, v. split; [done|]. split; [apply Hsub; by left|]. done. }
    destruct (typeof_object v) eqn:Et.
    + destruct (Hrec eq_refl) as (found & -> & Hf).
      destruct (String.eqb found "") eqn:Ef; cbn [negb].
      * apply Hskip. intros rest (keys' & v' & _ & _ & Hg' & _ & Hr).
        rewrite Hg in Hg'. inversion Hg'; subst v'.
        destruct rest as [|k' rest']; cbn [reaches] in Hr; [congruence|].
        by apply (Hf k' rest').
      * destruct Hf as (k' & rest' & -> & Hr).
        eexists. split; [done|].
        change (String.append "/" ?x) with (String "/" x).
        rewrite append_slash_nonempty.
        exists k, (k' :: rest'). split; [done|]. cbn [reaches].
        exists keys, v. split; [done|]. split; [apply Hsub; by left|].
        split; [done|]. split; [done|]. exact Hr.
    + apply Hskip. intros rest (keys' & v' & _ & _ & Hg' & Hobj & Hr).
      rewrite Hg in Hg'. inversion Hg'; subst v'.
      destruct rest as [|k' rest']; cbn [reaches] in Hr; [congruence|].
      rewrite Hobj in Et; [discriminate|done].
Qed.

Lemma own_keys_readable root keys k :
  own_keys h root = Ok keys -> In k keys -> exists v, get_prop h root (KStr k) = Ok v.
Proof.
  intros Hk Hin. destruct root as [| |b|z| |s|l]; cbn [own_keys get_prop] in *.
  - inversion Hk; subst. destruct Hin.
  - inversion Hk; subst. destruct Hin.
  - by eexists.
  - by eexists.
  - by eexists.
  - destruct (key_index (KStr k)); [destruct (_ !! _)|destruct (String.eqb _ _)];
      by eexists.
  - destruct (h !! l) as [[es ps|ps]|]; [| |done].
    + destruct (key_index (KStr k)); [|destruct (String.eqb _ _)]; by eexists.
    + by eexists.
Qed.

Lemma get_prop_of_primitive root k v :
  (forall l, root <> VRef l) -> get_prop h root k = Ok v -> typeof_object v = false.
Proof.
  intros Hp Hg. destruct root as [| |b|z| |s|l]; cbn [get_prop] in Hg;
    try discriminate; try (inversion Hg; subst; done).
  - destruct (key_index k) as [j|].
    + destruct (Str.chars s !! j); inversion Hg; subst; done.
    + destruct (String.eqb _ _); inversion Hg; subst; done.
  - exfalso. by apply (Hp l).
Qed.

Lemma getPathRecursive_spec n : forall root,
  resolves_upto n h root -> search_result h obj root (_getPathRecursive (S n) h obj root).
Proof.
  assert (Hprim : forall n root, (forall l, root <> VRef l) ->
            search_result h obj root (_getPathRecursive (S n) h obj root)).
  { intros n' root Hp. cbn [_getPathRecursive].
    destruct (own_keys h root) as [keys| |] eqn:Hk.
    - apply (search_keys_spec _ root keys Hk); auto.
      intros k Hin. destruct (own_keys_readable root keys k Hk Hin) as [v Hg].
      exists v. split; [done|]. intros Ht.
      by rewrite (get_prop_of_primitive root _ v Hp Hg) in Ht.
    - destruct root as [| | | | | |l]; cbn in Hk; try discriminate.
      exfalso. by apply (Hp l).
    - destruct root as [| | | | | |l]; cbn in Hk; try discriminate.
      exfalso. by apply (Hp l). }
  induction n as [|n IH]; intros root Hr.
  - apply Hprim. intros l ->. done.
  - destruct root as [| |b|z| |s|l]; try (apply Hprim; discriminate).
    cbn [_getPathRecursive].
    destruct (own_keys h (VRef l)) as [keys| |] eqn:Hk.
    + apply (search_keys_spec _ (VRef l) keys Hk); auto.
      intros k Hin. destruct (own_keys_readable (VRef l) keys k Hk Hin) as [v Hg].
      exists v. split; [done|]. intros Ht. apply IH.
      apply (get_prop_resolves _ _ _ _ _ Hr Hg).
    + cbn in Hk. destruct (h !! l) as [[|]|]; discriminate.
    + cbn in Hk, Hr. destruct (h !! l) as [[|]|]; try discriminate. done.
Qed.

End GetPath.

(** [getPath] finds an object exactly when own properties lead to it from
    the root, and the path it returns names such properties: each one
    escaped and followed by a slash, after the slash the path starts
    with. *)
Theorem getPath_finds h root obj :
  resolves h root -> obj <> VUndef ->
  exists out,
    getPath h root obj = Ok out
    /\ match out with
       | PathFound p =>
           exists ks, p = String "/" (components ks) /\ reaches h root ks obj
       | ObjectNotFound => forall ks, ~ reaches h root ks obj
       end.
Proof.
  intros Hr Ho. unfold getPath. destruct (strict_eq root obj) eqn:Eq.
  - exists (PathFound "/"). split; [done|]. by exists [].
  - destruct (getPathRecursive_spec h obj (length h) root Hr) as (p & Hp & Hs).
    assert (E : match obj with
                | VUndef => Stuck
                | _ => match _getPathRecursive (S (length h)) h obj root with
                       | Ok p => if String.eqb p "" then Ok ObjectNotFound
                                 else Ok (PathFound (String.append "/" p))
                       | Throw e => Throw e
                       | Stuck => Stuck
                       end
                end
                = if String.eqb p "" then Ok ObjectNotFound
                  else Ok (PathFound (String.append "/" p))).
    { rewrite Hp. by destruct obj. }
    rewrite E. destruct (String.eqb p "").
    + exists ObjectNotFound. split; [done|]. intros [|k rest]; [cbn; congruence|apply Hs].
    + destruct Hs as (k & rest & -> & Hreach).
      eexists. split; [done|]. by exists (k :: rest).
Qed.

Lemma getPath_finds_witness :
  exists out,
    getPath sample_map (VRef 1%nat) (VRef 0%nat) = Ok out
    /\ match out with
       | PathFound p =>
           exists ks, p = String "/" (components ks)
                      /\ reaches sample_map (VRef 1%nat) ks (VRef 0%nat)
       | ObjectNotFound => forall ks, ~ reaches sample_map (VRef 1%nat) ks (VRef 0%nat)
       end.
Proof.
  apply getPath_finds.
  - cbn. repeat constructor.
  - discriminate.
Defined.

(** A [test], passed or failed, changes nothing. *)
Theorem test_is_read_only reg d p v ban i h :
  snd (applyOperation reg d (mkOp Op_test p None v None VUndef false)
         NoValidation true ban i h) = h.
Proof.
  revert h. change (quiet (applyOperation reg d (mkOp Op_test p None v None VUndef false)
                             NoValidation true ban i)).
  unfold applyOperation, applyOperation_with.
  apply quiet_bind; [apply quiet_ret|]. intros _.
  destruct (bool_decide _).
  - unfold apply_root. cbn [op]. apply quiet_bind; [apply quiet_read|].
    intros t. destruct (negb t); [apply quiet_throw|apply quiet_ret].
  - apply quiet_bind; [apply quiet_ret|]. intros d'.
    cbv zeta. change (is_x _) with false. cbv iota.
    apply walk_quiet. by right.
Qed.

Lemma split_without_slash p : Str.has_char "/" p = false -> Str.split "/" p = [p].
Proof.
  intros H. unfold Str.split. rewrite split_chars_one by done.
  cbn. unfold Str.of_chars, Str.chars. by rewrite string_of_list_ascii_of_string.
Qed.

Lemma starts_with_slash p :
  Str.has_char "/" p = false -> Str.starts_with "/" p = false.
Proof.
  destruct p as [|c p]; [done|]. unfold Str.has_char. cbn.
  intros H. apply orb_false_iff in H as [H _]. by rewrite H.
Qed.

(** A path with no slash in it names no member: without validation the
    operator is called with the key [undefined], so that [add] on a map
    sets the member of the name ["undefined"]; with validation the
    operation is refused with [OPERATION_PATH_INVALID] and nothing is
    written. *)
Theorem path_without_slash reg l ps p v ban i h :
  h !! l = Some (CObj ps) -> p <> "" -> Str.has_char "/" p = false ->
  applyOperation reg (VRef l) (mkOp Op_add (Some p) None v None VUndef false)
    NoValidation true ban i h
  = (Ok (result_doc (VRef l)), <[l := CObj (pset "undefined" v ps)]> h)
  /\ applyOperation reg (VRef l) (mkOp Op_add (Some p) None v None VUndef false)
       DefaultValidation true ban i h
     = (Throw (JsonPatchError OPERATION_PATH_INVALID), h).
Proof.
  intros Hl Hp Hs. split.
  - apply (add_to_map reg (VRef l) p ban i h l KUndef ps Hp); [|done].
    rewrite split_without_slash by done. cbn [locate_path is_array]. by rewrite Hl.
  - unfold applyOperation, applyOperation_with, validate_first, validator.
    cbn [op path in_objOps]. unfold path_starts_badly.
    rewrite starts_with_slash by done. cbn [negb andb].
    destruct p as [|c p]; [done|]. reflexivity.
Qed.

Lemma path_without_slash_witness :
  applyOperation ∅ (VRef 0%nat) (mkOp Op_add (Some "a") None (VNum 1) None VUndef false)
    NoValidation true true 0%nat [CObj []]
  = (Ok (result_doc (VRef 0%nat)), [CObj [("undefined", VNum 1)]])
  /\ applyOperation ∅ (VRef 0%nat) (mkOp Op_add (Some "a") None (VNum 1) None VUndef false)
       DefaultValidation true true 0%nat [CObj []]
     = (Throw (JsonPatchError OPERATION_PATH_INVALID), [CObj []]).
Proof.
  apply (path_without_slash ∅ 0%nat [] "a" (VNum 1) true 0%nat [CObj []]).
  - reflexivity.
  - discriminate.
  - reflexivity.
Defined.

Lemma banned_escaped s :
  s <> "__proto__" ->
  banned [""; escapePathComponent s] 1 (KStr s) = false.
Proof.
  intros Hs. unfold banned. cbn [key_is]. apply String.eqb_neq in Hs as ->.
  cbn [orb lookup list_lookup Nat.sub]. rewrite bool_decide_eq_false_2 by done.
  by rewrite andb_false_r.
Qed.

(** [validator] on a [remove] or a [replace] that is well formed: what is
    left is the comparison of the path with the fragment that exists. *)
Lemma validator_on_member reg g o q i d e h :
  op o = Op_remove \/ op o = Op_replace ->
  path o = Some (String "/" q) ->
  (op o = Op_replace -> strict_eq (value o) VUndef = false
                        /\ hasUndefined h (value o) = Ok false) ->
  validator reg g o i d e h
  = if negb (falsy d) && negb (bool_decide (Some (String "/" q) = e))
    then (Throw (JsonPatchError OPERATION_PATH_UNRESOLVABLE), h) else (Ok tt, h).
Proof.
  intros Hop Hp Hval. unfold validator. rewrite Hp.
  unfold path_starts_badly. cbn [Str.starts_with]. rewrite Ascii.eqb_refl.
  cbn [negb andb].
  destruct Hop as [E|E]; rewrite E in *; cbn [in_objOps opname_eqb orb andb needs_value].
  - unfold bind, ret. destruct (negb (falsy d)); [|done].
    by destruct (negb (bool_decide _)).
  - destruct (Hval eq_refl) as [H1 H2]. rewrite H1. unfold bind, read. rewrite H2.
    destruct (negb (falsy d)); [|done].
    by destruct (negb (bool_decide _)).
Qed.

(** With validation, [remove] and [replace] of a member that a map does
    not have are refused with [OPERATION_PATH_UNRESOLVABLE], and nothing is
    written. *)
Theorem missing_member_is_unresolvable reg l ps s o ban i h :
  h !! l = Some (CObj ps) -> inherited_name s = false -> plookup s ps = None ->
  op o = Op_remove \/ op o = Op_replace ->
  path o = Some (String "/" (escapePathComponent s)) ->
  (op o = Op_replace -> value o <> VUndef /\ hasUndefined h (value o) = Ok false) ->
  applyOperation reg (VRef l) o DefaultValidation true ban i h
  = (Throw (JsonPatchError OPERATION_PATH_UNRESOLVABLE), h).
Proof.
  intros Hl Hs Hnone Hop Hp Hval. apply inherited_name_proto in Hs.
  destruct (escaped_component s) as [Hsplit Hkey].
  assert (Hval' : op o = Op_replace -> strict_eq (value o) VUndef = false
                                       /\ hasUndefined h (value o) = Ok false).
  { intros E. destruct (Hval E) as [H1 H2]. split; [|done]. by destruct (value o). }
  destruct o as [oo opath ofrom ovalue oxid oargs oresolve].
  cbn [op path value] in *. subst opath.
  set (o := mkOp oo _ ofrom ovalue oxid oargs oresolve) in *.
  assert (Hx : is_x o = false).
  { unfold is_x, o. cbn [op]. by destruct Hop as [-> | ->]. }
  assert (Hv1 : forall i d e h0, h0 = h ->
            validator reg (inner_validate_get reg) o i d e h0
            = if negb (falsy d)
                 && negb (bool_decide (Some (String "/" (escapePathComponent s)) = e))
              then (Throw (JsonPatchError OPERATION_PATH_UNRESOLVABLE), h0)
              else (Ok tt, h0)).
  { intros i' d' e h0 ->. by apply validator_on_member. }
  unfold applyOperation, applyOperation_with, validate_first.
  unfold bind at 1. rewrite Hv1 by done.
  cbn [falsy negb andb]. change (path o) with (Some (String "/" (escapePathComponent s))).
  rewrite (bool_decide_eq_false_2 (Some (String "/" (escapePathComponent s)) = Some ""))
    by done.
  unfold bind at 1, ret at 1. rewrite Hx.
  change (default "" (Some ?x)) with x. rewrite Hsplit.
  rewrite Hsplit in Hkey. cbn [length walk]. rewrite Hkey.
  rewrite banned_escaped by done. rewrite andb_false_r.
  unfold existing_path_check. cbn [validating].
  unfold bind at 1. unfold bind at 1. unfold read at 1.
  cbn [get_prop key_name]. rewrite Hl, Hnone. cbn [default strict_eq val_eqb].
  unfold bind at 1. unfold validateFunction.
  rewrite Hv1 by done.
  cbn [falsy negb andb]. rewrite bool_decide_eq_false_2; [done|].
  unfold keys_prefix. cbn. discriminate.
Qed.

Lemma missing_member_is_unresolvable_witness :
  applyOperation ∅ (VRef 0%nat)
    (mkOp Op_replace (Some (String "/" (escapePathComponent "missing"))) None (VNum 1)
       None VUndef false)
    DefaultValidation true true 0%nat [CObj []]
  = (Throw (JsonPatchError OPERATION_PATH_UNRESOLVABLE), [CObj []]).
Proof.
  apply (missing_member_is_unresolvable ∅ 0%nat [] "missing").
  - reflexivity.
  - vm_compute. reflexivity.
  - reflexivity.
  - by right.
  - reflexivity.
  - intros _. split; [discriminate|reflexivity].
Defined.

Lemma digits_have_no c s :
  isInteger s = true -> (nat_of_ascii c < 48 \/ 57 < nat_of_ascii c)%nat ->
  Str.has_char c s = false.
Proof.
  unfold isInteger, Str.has_char, Str.codes. intros Hi Hc.
  induction (Str.chars s) as [|x r IH]; [done|].
  cbn [map isInteger_codes existsb] in *.
  destruct ((48 <=? nat_of_ascii x)%nat && (nat_of_ascii x <=? 57)%nat) eqn:E;
    [|discriminate].
  rewrite IH by done. rewrite orb_false_r. apply Ascii.eqb_neq. intros ->.
  apply andb_true_iff in E as [E1 E2].
  apply Nat.leb_le in E1, E2. lia.
Qed.

Lemma digits_differ s t c r :
  isInteger s = true -> t = String c r ->
  (nat_of_ascii c < 48 \/ 57 < nat_of_ascii c)%nat -> s <> t.
Proof.
  intros Hi -> Hc ->. apply (digits_have_no c) in Hi; [|done].
  unfold Str.has_char in Hi. cbn in Hi. by rewrite Ascii.eqb_refl in Hi.
Qed.

Lemma validator_on_add reg g o q i d e h :
  op o = Op_add -> path o = Some (String "/" q) ->
  strict_eq (value o) VUndef = false -> hasUndefined h (value o) = Ok false ->
  validator reg g o i d e h
  = if negb (falsy d) then
      match e with
      | None => (Throw (TypeError "Cannot read properties of undefined (reading 'split')"), h)
      | Some e =>
          if negb (split_length (String "/" q) =? split_length e + 1)%nat
             && negb (split_length (String "/" q) =? split_length e)%nat
          then (Throw (JsonPatchError OPERATION_PATH_CANNOT_ADD), h)
          else (Ok tt, h)
      end
    else (Ok tt, h).
Proof.
  intros Hop Hp H1 H2. unfold validator. rewrite Hp, Hop.
  unfold path_starts_badly. cbn [Str.starts_with]. rewrite Ascii.eqb_refl.
  cbn [negb andb in_objOps opname_eqb orb needs_value].
  rewrite H1. unfold bind, read. rewrite H2.
  destruct (negb (falsy d)); [|done]. destruct e as [e|]; [|done].
  by destruct (_ && _).
Qed.

(** With validation, [add] in a list at an index greater than its length
    is refused with [OPERATION_VALUE_OUT_OF_BOUNDS], and nothing is
    written. *)
Theorem add_beyond_end_is_rejected reg l es ps s v ban i h :
  h !! l = Some (CArr es ps) -> isInteger s = true -> s <> "" ->
  Z.of_nat (length es) < int32_of_digits (Str.codes s) ->
  v <> VUndef -> hasUndefined h v = Ok false ->
  applyOperation reg (VRef l) (mkOp Op_add (Some (String "/" s)) None v None VUndef false)
    DefaultValidation true ban i h
  = (Throw (JsonPatchError OPERATION_VALUE_OUT_OF_BOUNDS), h).
Proof.
  intros Hl Hi Hne Hn Hv Hu.
  set (o := mkOp Op_add _ None v None VUndef false).
  assert (Hve : strict_eq v VUndef = false) by by destruct v.
  assert (Hsplit : Str.split "/" (String "/" s) = [""; s]).
  { unfold Str.split. cbn [Str.chars list_ascii_of_string Str.split_chars].
    rewrite Ascii.eqb_refl. fold (Str.chars s).
    rewrite split_chars_one by (apply digits_have_no; [done|vm_compute; lia]).
    cbn. unfold Str.of_chars, Str.chars. by rewrite string_of_list_ascii_of_string. }
  assert (Hkey : key_at [""; s] 1 = KStr s).
  { unfold key_at. cbn [lookup list_lookup].
    rewrite (digits_have_no "~" s) by (try done; vm_compute; lia). by rewrite andb_false_r. }
  assert (Hban : banned [""; s] 1 (KStr s) = false).
  { unfold banned. cbn [key_is].
    rewrite (proj2 (String.eqb_neq s "__proto__"))
      by (eapply digits_differ; [done|done|vm_compute; lia]).
    rewrite (proj2 (String.eqb_neq s "prototype"))
      by (eapply digits_differ; [done|done|vm_compute; lia]).
    done. }
  assert (Hv1 : forall i d e h0, h0 = h ->
            validator reg (inner_validate_get reg) o i d e h0
            = if negb (falsy d) then
                match e with
                | None => (Throw (TypeError
                             "Cannot read properties of undefined (reading 'split')"), h0)
                | Some e =>
                    if negb (split_length (String "/" s) =? split_length e + 1)%nat
                       && negb (split_length (String "/" s) =? split_length e)%nat
                    then (Throw (JsonPatchError OPERATION_PATH_CANNOT_ADD), h0)
                    else (Ok tt, h0)
                end
              else (Ok tt, h0)).
  { intros i' d' e h0 ->. by apply validator_on_add. }
  unfold applyOperation, applyOperation_with, validate_first.
  unfold bind at 1. rewrite Hv1 by done.
  cbn [falsy negb]. change (path o) with (Some (String "/" s)).
  rewrite (bool_decide_eq_false_2 (Some (String "/" s) = Some "")) by done.
  unfold bind at 1, ret at 1. change (is_x o) with false. cbv iota.
  change (default "" (Some ?x)) with x. rewrite Hsplit.
  cbn [length walk]. rewrite Hkey, Hban, andb_false_r.
  unfold existing_path_check. cbn [validating].
  assert (Hsl : split_length (String "/" s) = 2%nat).
  { unfold split_length. by rewrite Hsplit. }
  unfold bind at 1. unfold bind at 1. unfold read at 1.
  assert (Eg : exists x, get_prop h (VRef l) (KStr s) = Ok x).
  { cbn [get_prop]. rewrite Hl.
    destruct (key_index (KStr s)); [|destruct (String.eqb _ _)]; eauto. }
  destruct Eg as [x ->].
  assert (Hepf : exists frag,
            (if strict_eq x VUndef then Some (keys_prefix [""; s] 1)
             else if (1 =? 2 - 1)%nat then path o else None) = Some frag
            /\ (frag = "" \/ frag = String "/" s)).
  { destruct (strict_eq x VUndef); eexists; split; try done; auto. }
  destruct Hepf as (frag & -> & Hfrag).
  unfold bind at 1. unfold validateFunction. rewrite Hv1 by done.
  cbn [falsy negb]. rewrite Hsl.
  assert (Hfl : negb (2 =? split_length frag + 1)%nat && negb (2 =? split_length frag)%nat
                = false).
  { destruct Hfrag as [-> | ->]; [done|]. rewrite Hsl. done. }
  rewrite Hfl. unfold ret at 1. unfold bind at 1, get_heap at 1.
  cbn [is_array]. rewrite Hl. unfold bind at 1, read at 1.
  unfold array_key. change (is_x o) with false. cbn [andb key_is validating].
  rewrite (proj2 (String.eqb_neq s "-"))
    by (eapply digits_differ; [done|done|vm_compute; lia]).
  rewrite Hi. cbn [negb andb]. cbn [Nat.leb op o opname_eqb key_gt_length array_length].
  rewrite Hl. by rewrite (proj2 (Z.ltb_lt _ _) Hn).
Qed.

Lemma add_beyond_end_is_rejected_witness :
  applyOperation ∅ (VRef 0%nat) (mkOp Op_add (Some "/5") None (VNum 9) None VUndef false)
    DefaultValidation true true 0%nat sample_list
  = (Throw (JsonPatchError OPERATION_VALUE_OUT_OF_BOUNDS), sample_list).
Proof.
  apply (add_beyond_end_is_rejected ∅ 0%nat [VNum 1; VNum 2; VNum 3] [] "5").
  - reflexivity.
  - reflexivity.
  - discriminate.
  - vm_compute. reflexivity.
  - discriminate.
  - reflexivity.
Defined.

Lemma bind_ok {A B} (m : M A) (k : A -> M B) h a h1 :
  m h = (Ok a, h1) -> bind m k h = k a h1.
Proof. intros E. unfold bind. by rewrite E. Qed.

Lemma inner_on_member reg l ps s o h :
  h !! l = Some (CObj ps) -> s <> "__proto__" ->
  is_x o = false -> path o = Some (String "/" (escapePathComponent s)) ->
  inner_default reg (VRef l) o h
  = call_operator o (VRef l) (objOps (fun _ _ => stuck)) (VRef l) (KStr s) h.
Proof.
  intros Hl Hs Hx Hp. unfold inner_default, applyOperation_inner.
  rewrite applyOperation_with_locate; [|done|rewrite Hp; congruence].
  rewrite Hp. change (default "" (Some ?x)) with x.
  rewrite (locate_member true h l ps s Hl Hs). unfold operate.
  cbn [is_array]. by rewrite Hl.
Qed.

(** [move] of a member of the root map to a name the map does not have:
    the member is taken out and set under the new name, nothing is reported
    as removed, and no other object is touched. *)
Theorem move_renames_member reg l ps a b ban i h :
  h !! l = Some (CObj ps) -> inherited_name a = false -> inherited_name b = false ->
  plookup b ps = None ->
  let p := String "/" (escapePathComponent b) in
  let out := applyOperation reg (VRef l)
               (mkOp Op_move (Some p) (Some (String "/" (escapePathComponent a)))
                  VUndef None VUndef false)
               NoValidation true ban i h in
  out = (Ok (mkResult (VRef l) VUndef None None VUndef),
         <[l := CObj (pset b (default VUndef (plookup a ps)) (pdel a ps))]> h)
  /\ fst (getValueByPointer reg (VRef l) (Some p) (snd out))
     = Ok (default VUndef (plookup a ps)).
Proof.
  intros Hl Ha Hb Hnone p out. subst out p.
  apply inherited_name_proto in Ha, Hb.
  set (p := String "/" (escapePathComponent b)).
  assert (Hin : forall c, <[l := c]> h !! l = Some c).
  { intros c. apply list_lookup_insert_eq. by apply lookup_lt_Some in Hl. }
  set (va := default VUndef (plookup a ps)).
  set (h1 := <[l := CObj (pdel a ps)]> h).
  assert (Hget : getValueByPointer_with (inner_default reg) (VRef l) (Some p) h
                 = (Ok VUndef, h)).
  { change (getValueByPointer reg (VRef l) (Some p) h = (Ok VUndef, h)).
    rewrite getValueByPointer_value. unfold p at 1. cbn [String.eqb]. unfold pointer_value, p.
    rewrite (locate_member true h l ps b Hl Hb). cbn [get_prop key_name].
    by rewrite Hl, Hnone. }
  assert (Hrm : inner_default reg (VRef l)
                  (mkOp Op_remove (Some (String "/" (escapePathComponent a))) None VUndef
                     None VUndef false) h
                = (Ok (mkResult (VRef l) va None None VUndef), h1)).
  { rewrite (inner_on_member reg l ps a) by done.
    unfold call_operator, objOps, objOps_remove, test_failed, bind, read, write,
      delete_prop, ret.
    cbn [op get_prop key_name]. by rewrite Hl. }
  assert (Hadd : inner_default reg (VRef l) (mkOp Op_add (Some p) None va None VUndef false) h1
                 = (Ok (result_doc (VRef l)),
                    <[l := CObj (pset b va (pdel a ps))]> h)).
  { rewrite (inner_on_member reg l (pdel a ps) b) by (done || apply Hin).
    unfold call_operator, objOps, objOps_add, test_failed, bind, write, set_prop, ret.
    cbn [op value key_name]. unfold h1. rewrite Hin. by rewrite list_insert_insert_eq. }
  assert (E : applyOperation reg (VRef l)
               (mkOp Op_move (Some p) (Some (String "/" (escapePathComponent a)))
                  VUndef None VUndef false)
               NoValidation true ban i h = (Ok (mkResult (VRef l) VUndef None None VUndef),
                     <[l := CObj (pset b va (pdel a ps))]> h)).
  { rewrite applyOperation_locate; [|done|done].
    cbn [path]. change (default "" (Some ?x)) with x. unfold p.
    rewrite (locate_member ban h l ps b Hl Hb). unfold operate.
    cbn [is_array]. rewrite Hl. unfold call_operator. cbn [op objOps].
    assert (HM : objOps_move (inner_default reg)
                   (mkOp Op_move (Some p) (Some (String "/" (escapePathComponent a)))
                      VUndef None VUndef false) (VRef l) (KStr b) (VRef l) h
                 = (Ok (mkResult (VRef l) VUndef None None VUndef),
                    <[l := CObj (pset b va (pdel a ps))]> h)).
    { unfold objOps_move. cbn [path from].
      rewrite (bind_ok _ _ _ _ _ Hget). cbn [falsy negb].
      rewrite (bind_ok (ret VUndef) _ h VUndef h eq_refl).
      rewrite (bind_ok _ _ _ _ _ Hrm). cbn [removed].
      rewrite (bind_ok _ _ _ _ _ Hadd). reflexivity. }
    rewrite (bind_ok _ _ _ _ _ HM). reflexivity. }
  split; [done|]. rewrite E. cbn [snd].
  rewrite getValueByPointer_value. unfold p at 1. cbn [String.eqb fst].
  unfold pointer_value, p.
  rewrite (locate_member true _ l _ b (Hin _) Hb). cbn [get_prop key_name].
  rewrite Hin. by rewrite plookup_pset_eq.
Qed.

Lemma move_renames_member_witness :
  let h := [CObj [("a", VNum 1)]] in
  let p := String "/" (escapePathComponent "b") in
  let out := applyOperation ∅ (VRef 0%nat)
               (mkOp Op_move (Some p) (Some (String "/" (escapePathComponent "a")))
                  VUndef None VUndef false)
               NoValidation true true 0%nat h in
  out = (Ok (mkResult (VRef 0%nat) VUndef None None VUndef), [CObj [("b", VNum 1)]])
  /\ fst (getValueByPointer ∅ (VRef 0%nat) (Some p) (snd out)) = Ok (VNum 1).
Proof.
  apply (move_renames_member ∅ 0%nat [("a", VNum 1)] "a" "b" true 0%nat
           [CObj [("a", VNum 1)]]).
  - reflexivity.
  - vm_compute. reflexivity.
  - vm_compute. reflexivity.
  - reflexivity.
Defined.

Section Stable.

Variable h h' : list cell.
Variable l : nat.
Variable ps ps' : list (string * val).
Hypothesis Hl : h !! l = Some (CObj ps).
Hypothesis Hl' : h' !! l = Some (CObj ps').
Hypothesis Hother : forall l', l' <> l -> h' !! l' = h !! l'.

Lemma same_cell o : o <> VRef l ->
  is_array h' o = is_array h o
  /\ array_length h' o = array_length h o
  /\ forall k, get_prop h' o k = get_prop h o k.
Proof.
  intros Ho. destruct o as [| |b|z| |s|x]; try done.
  assert (E : h' !! x = h !! x) by (apply Hother; congruence).
  cbn [is_array array_length get_prop]. by rewrite E.
Qed.

Lemma locate_stable ban : forall rest prev c o k,
  locate ban h prev c rest o = Ok (VRef l, k) ->
  ~ In (VRef l) (ancestors h c rest o) ->
  locate ban h' prev c rest o = Ok (VRef l, k).
Proof.
  induction rest as [|c' rest' IH]; intros prev c o k; cbn [locate ancestors].
  - destruct (ban && _); [discriminate|].
    destruct (is_array h o) eqn:Ha.
    + destruct (std_array_key h o (component_key c)); try discriminate.
      intros E. inversion E; subst. cbn in Ha. by rewrite Hl in Ha.
    + intros E _. inversion E; subst. cbn [is_array]. by rewrite Hl'.
  - destruct (ban && _); [discriminate|].
    intros E Hn.
    assert (Ho : o <> VRef l) by (intros ->; apply Hn; by left).
    destruct (same_cell o Ho) as (E1 & E2 & E3).
    rewrite E1.
    assert (E4 : std_array_key h' o (component_key c) = std_array_key h o (component_key c)).
    { unfold std_array_key. by rewrite E2. }
    rewrite E4.
    destruct (if is_array h o then std_array_key h o (component_key c)
              else Ok (component_key c)) as [k'| |]; try discriminate.
    rewrite E3. destruct (get_prop h o k') as [o'| |]; try discriminate.
    apply IH; [done|]. intros Hin. apply Hn. by right.
Qed.

End Stable.

(** A member set or removed at any depth is read back by
    [getValueByPointer] at the same path, when the map that holds it is not
    one of the containers the path passes through before (as in every
    document in which no object contains itself). *)
Theorem deep_member_round_trip reg d p v i h l k ps :
  p <> "" ->
  locate_path true h (Str.split "/" p) d = Ok (VRef l, k) ->
  h !! l = Some (CObj ps) ->
  ~ In (VRef l) (path_ancestors h (Str.split "/" p) d) ->
  inherited_name (key_name k) = false -> List.NoDup (map fst ps) ->
  let after o := snd (applyOperation reg d o NoValidation true true i h) in
  fst (getValueByPointer reg d (Some p)
         (after (mkOp Op_add (Some p) None v None VUndef false))) = Ok v
  /\ fst (getValueByPointer reg d (Some p)
            (after (mkOp Op_replace (Some p) None v None VUndef false))) = Ok v
  /\ fst (getValueByPointer reg d (Some p)
            (after (mkOp Op_remove (Some p) None VUndef None VUndef false))) = Ok VUndef.
Proof.
  intros Hp Hloc Hl Hanc Hk Hnd. cbv zeta.
  assert (Hin : forall c, <[l := c]> h !! l = Some c).
  { intros c. apply list_lookup_insert_eq. by apply lookup_lt_Some in Hl. }
  assert (Hget : forall ps', 
            fst (getValueByPointer reg d (Some p) (<[l := CObj ps']> h))
            = Ok (default VUndef (plookup (key_name k) ps'))).
  { intros ps'. rewrite getValueByPointer_value.
    apply String.eqb_neq in Hp as ->. cbn [fst]. unfold pointer_value.
    assert (E : locate_path true (<[l := CObj ps']> h) (Str.split "/" p) d
                = Ok (VRef l, k)).
    { unfold locate_path, path_ancestors in *.
      destruct (Str.split "/" p) as [|k0 [|c rest]]; [done| |].
      - destruct (is_array h d) eqn:Ha; [discriminate|].
        inversion Hloc; subst. cbn [is_array]. by rewrite Hin.
      - apply (locate_stable h _ l ps ps' Hl (Hin _)); [|done|done].
        intros l' Hne. by apply list_lookup_insert_ne. }
    rewrite E. cbn [get_prop]. by rewrite Hin. }
  split; [|split].
  - rewrite (add_to_map reg d p true i h l k ps Hp Hloc Hl). cbn [snd].
    by rewrite Hget, plookup_pset_eq.
  - rewrite (replace_in_map reg d p true i h l k ps Hp Hloc Hl). cbn [snd].
    by rewrite Hget, plookup_pset_eq.
  - rewrite (remove_from_map reg d p true i h l k ps Hp Hloc Hl). cbn [snd].
    by rewrite Hget, plookup_pdel_eq.
Qed.

Lemma deep_member_round_trip_witness :
  let h := [CObj [("b", VNum 1)]; CObj [("a", VRef 0%nat)]] in
  let after o := snd (applyOperation ∅ (VRef 1%nat) o NoValidation true true 0%nat h) in
  fst (getValueByPointer ∅ (VRef 1%nat) (Some "/a/c")
         (after (mkOp Op_add (Some "/a/c") None (VNum 2) None VUndef false)))
  = Ok (VNum 2)
  /\ fst (getValueByPointer ∅ (VRef 1%nat) (Some "/a/c")
            (after (mkOp Op_replace (Some "/a/c") None (VNum 2) None VUndef false)))
     = Ok (VNum 2)
  /\ fst (getValueByPointer ∅ (VRef 1%nat) (Some "/a/c")
            (after (mkOp Op_remove (Some "/a/c") None VUndef None VUndef false)))
     = Ok VUndef.
Proof.
  apply (deep_member_round_trip ∅ (VRef 1%nat) "/a/c" (VNum 2) 0%nat
           [CObj [("b", VNum 1)]; CObj [("a", VRef 0%nat)]] 0%nat (KStr "c")
           [("b", VNum 1)]).
  - discriminate.
  - vm_compute. reflexivity.
  - reflexivity.
  - vm_compute. intros [H|[]]. discriminate.
  - vm_compute. reflexivity.
  - repeat constructor. cbn. tauto.
Defined.

Lemma split_plain s :
  Str.has_char "/" s = false -> Str.split "/" (String "/" s) = [""; s].
Proof.
  intros Hs. unfold Str.split. cbn [Str.chars list_ascii_of_string Str.split_chars].
  rewrite Ascii.eqb_refl. fold (Str.chars s). rewrite split_chars_one by done.
  cbn. unfold Str.of_chars, Str.chars. by rewrite string_of_list_ascii_of_string.
Qed.

Lemma clone_of_map h l ps :
  h !! l = Some (CObj ps) -> json_value h (VRef l) ->
  exists lc psc k,
    _deepClone (VRef l) h = (Ok (VRef lc), h ++ k)
    /\ (length h <= lc)%nat /\ (h ++ k) !! lc = Some (CObj psc).
Proof.
  intros Hl Hj. destruct (deepClone_correct h (VRef l) Hj)
    as (c & h1 & E & [k ->] & [n He] & Hc & _).
  destruct n as [|n]; cbn [deep_equal_upto] in He; destruct c as [| | | | | |lc]; try done.
  rewrite Hl in He. destruct ((h ++ k) !! lc) as [[|psc]|] eqn:Ec; try done.
  exists lc, psc, k. done.
Qed.

(** An extended operation whose handler adds a member to its working copy
    makes the document have that member: the handler runs on a deep clone,
    and the member is grafted from the clone into the document, which is
    returned.  The objects that were there, the document's map apart, are
    left as they were. *)
Theorem extended_add_is_grafted reg x xc l ps s v ban i h :
  reg !! x = Some xc -> obj xc = adding_handler ->
  h !! l = Some (CObj ps) -> json_value h (VRef l) ->
  s <> "" -> Str.has_char "/" s = false -> Str.has_char "~" s = false ->
  s <> "__proto__" ->
  exists h',
    applyOperation reg (VRef l)
      (mkOp Op_x (Some (String "/" s)) None v (Some x) VUndef false)
      NoValidation true ban i h
    = (Ok (result_doc (VRef l)), h')
    /\ h' !! l = Some (CObj (pset s v ps))
    /\ forall l', (l' < length h)%nat -> l' <> l -> h' !! l' = h !! l'.
Proof.
  intros Hreg Hobj Hl Hj Hne Hslash Htilde Hinh.
  destruct (clone_of_map h l ps Hl Hj) as (lc & psc & k & Hclone & Hlc & Hcell).
  set (o := mkOp Op_x _ None v (Some x) VUndef false).
  set (h1 := h ++ k) in *.
  set (h2 := <[lc := CObj (pset s v psc)]> h1).
  set (h3 := <[l := CObj (pset s v ps)]> h2).
  assert (Hll : (l < length h)%nat) by by apply lookup_lt_Some in Hl.
  assert (Hl1 : h1 !! l = Some (CObj ps)).
  { unfold h1. by rewrite lookup_app_l. }
  assert (Hl2 : h2 !! l = Some (CObj ps)).
  { unfold h2. rewrite list_lookup_insert_ne by lia. done. }
  assert (Hc2 : h2 !! lc = Some (CObj (pset s v psc))).
  { unfold h2. apply list_lookup_insert_eq. by apply lookup_lt_Some in Hcell. }
  exists h3. split; [|split].
  - assert (Hkey : key_at [""; s] 1 = KStr s).
    { unfold key_at. cbn [lookup list_lookup]. by rewrite Htilde, andb_false_r. }
    assert (Hban : banned [""; s] 1 (KStr s) = false).
    { unfold banned. cbn [key_is]. apply String.eqb_neq in Hinh as ->.
      cbn [orb lookup list_lookup Nat.sub]. rewrite bool_decide_eq_false_2 by done.
      by rewrite andb_false_r. }
    assert (Hhandler : adding_handler o (VRef lc) (KStr s) (VRef lc) h1
                       = (Ok (Some (result_doc (VRef lc))), h2)).
    { unfold adding_handler, bind, write, ret. cbn [set_prop key_name value o].
      by rewrite Hcell. }
    assert (Hgraft : _graftTree (VRef lc) (VRef l) (mkPC graft [KStr s]) h2 = (Ok tt, h3)).
    { unfold _graftTree. cbn [comps modType].
      unfold bind, read, write. cbn [get_prop set_prop key_name].
      by rewrite Hc2, plookup_pset_eq, Hl2. }
    unfold applyOperation, applyOperation_with. cbn [validate_first].
    rewrite (bind_ok (ret tt) _ h tt h eq_refl).
    change (path o) with (Some (String "/" s)).
    rewrite (bool_decide_eq_false_2 (Some (String "/" s) = Some "")) by done.
    cbn [negb]. rewrite (bind_ok (ret (VRef l)) _ h (VRef l) h eq_refl).
    change (is_x o) with true. cbv iota.
    change (xid o) with (Some x). cbn [registry_get]. rewrite Hreg.
    rewrite (bind_ok _ _ _ _ _ Hclone).
    change (default "" (Some ?x)) with x. rewrite split_plain by done.
    cbn [length walk]. rewrite Hkey, Hban, andb_false_r.
    unfold existing_path_check. cbn [validating].
    rewrite (bind_ok (ret None) _ h1 None h1 eq_refl).
    rewrite (bind_ok get_heap _ h1 h1 h1 eq_refl).
    cbn [is_array]. rewrite Hcell. cbn [Nat.leb]. change (is_x o) with true. cbv iota.
    unfold extended_obj.
    rewrite (bind_ok (read (fun _ => key_length_is_zero (KStr s))) _ h1
               (String.eqb s "") h1 eq_refl).
    rewrite (proj2 (String.eqb_neq s "")) by done. cbn [andb].
    rewrite Hobj. rewrite (bind_ok _ _ _ _ _ Hhandler).
    unfold graft_back. cbn [removed result_doc strict_eq val_eqb negb newDocument].
    unfold keys_slice1. cbn [drop take map Nat.sub].
    rewrite (bind_ok _ _ _ _ _ Hgraft). reflexivity.
  - unfold h3. apply list_lookup_insert_eq. by apply lookup_lt_Some in Hl2.
  - intros l' Hl' Hdiff. unfold h3, h2, h1.
    rewrite !list_lookup_insert_ne by lia. by rewrite lookup_app_l.
Qed.

Lemma extended_add_is_grafted_witness :
  exists h',
    applyOperation adding_registry (VRef 0%nat)
      (mkOp Op_x (Some "/b") None (VNum 2) (Some "x-add") VUndef false)
      NoValidation true true 0%nat [CObj [("a", VNum 1)]]
    = (Ok (result_doc (VRef 0%nat)), h')
    /\ h' !! 0%nat = Some (CObj [("a", VNum 1); ("b", VNum 2)])
    /\ forall l', (l' < 1)%nat -> l' <> 0%nat -> h' !! l' = [CObj [("a", VNum 1)]] !! l'.
Proof.
  apply (extended_add_is_grafted adding_registry "x-add"
           (mkXConfig adding_handler adding_handler accepting_validator)
           0%nat [("a", VNum 1)] "b" (VNum 2) true 0%nat [CObj [("a", VNum 1)]]).
  - reflexivity.
  - reflexivity.
  - reflexivity.
  - cbn. repeat constructor.
  - discriminate.
  - reflexivity.
  - reflexivity.
  - discriminate.
Defined.

(** * The dispatcher as a whole, with and without validation *)

(** ** What a simple operation makes of the container its path ends in *)

Lemma traversal_locate reg f g o m ban d keys h :
  is_x o = false ->
  walk reg f g o NoValidation m ban d d None (length keys) (length keys) keys 1 d
    None None h
  = operate f o d (locate_path ban h keys d) h.
Proof.
  intros Hx. destruct keys as [|k0 [|c rest]] eqn:Hk.
  - done.
  - cbn [length walk locate_path]. unfold key_at. cbn [lookup list_lookup].
    rewrite andb_false_r. unfold existing_path_check. cbn [validating].
    unfold bind at 1, ret at 1. unfold bind at 1, get_heap at 1.
    destruct (is_array h d) eqn:Ha.
    + unfold bind at 1, read at 1. by rewrite array_key_std.
    + rewrite Hx. cbn. unfold operate. by rewrite Ha.
  - rewrite (walk_locate reg f g o m ban d d Hx (length (k0 :: c :: rest))
               (k0 :: c :: rest) 1%nat d k0 c None None h); try done.
    cbn [length]. lia.
Qed.

Lemma validate_first_standard_quiet reg g d o v :
  op o <> Op_x -> validation_pure v -> quiet (validate_first reg g d o v).
Proof.
  intros Hop Hv. destruct v as [| |f]; cbn [validate_first].
  - apply quiet_ret.
  - unfold validator.
    assert (Hu : quiet (if needs_value (op o)
                        then read (fun h => hasUndefined h (value o)) else ret false)).
    { destruct (needs_value (op o)); [apply quiet_read|apply quiet_ret]. }
    destruct (op o) eqn:Eo; try done; cbn [in_objOps];
      try match goal with |- context [inherited_name ?x] => destruct (inherited_name x) end;
      try apply quiet_throw;
      (destruct (path o) as [p|]; [|apply quiet_throw]);
      (destruct (path_starts_badly p); [apply quiet_throw|]);
      (destruct (_ && negb _); [apply quiet_throw|]);
      (destruct (_ && strict_eq (value o) VUndef); [apply quiet_throw|]);
      (apply quiet_bind; [exact Hu|]); intros u;
      (destruct u; [apply quiet_throw|]); cbn [falsy negb]; apply quiet_ret.
  - intros h. apply Hv.
Qed.

Section ReturnsDocument.

Variable reg : gmap string XConfig.
Variable f : val -> Operation -> M Result.
Variable g : option string -> val -> M (option JsonPatchErrorName).
Variable operation : Operation.
Variable v : Validation.
Variable m ban : bool.
Variable d w : val.
Variable len : nat.
Hypothesis Hx : is_x operation = false.

Lemma call_operator_returns_document table o k :
  table = objOps f \/ table = arrOps f ->
  returns (call_operator operation d table o k) (fun r => newDocument r = d).
Proof.
  intros Htab. unfold call_operator.
  assert (Hop : forall fn, table (op operation) = Some fn ->
            returns (fn operation o k d) (fun r => newDocument r = d)).
  { intros fn Hfn.
    destruct Htab as [-> | ->]; destruct (op operation); cbn [objOps arrOps] in Hfn;
      try discriminate;
      try (apply other_operator_stuck in Hfn as ->; apply returns_stuck);
      injection Hfn as <-;
      unfold objOps_add, objOps_remove, objOps_replace, objOps_move, objOps_copy,
        objOps_test, objOps__get, arrOps_add, arrOps_remove, arrOps_replace;
      repeat (apply returns_bind_any; intros ?);
      by apply returns_ret. }
  destruct (table (op operation)) as [fn|]; [|apply returns_throw].
  eapply returns_bind; [by apply Hop|]. intros r Hr. unfold test_failed.
  destruct (test r) as [[|]|]; try (by apply returns_ret). apply returns_throw.
Qed.

Lemma walk_returns_document n : forall keys t o epf gp,
  returns (walk reg f g operation v m ban d w None len n keys t o epf gp)
    (fun r => newDocument r = d).
Proof.
  induction n as [|n IH]; intros keys t o epf gp; [apply returns_stuck|].
  cbn [walk].
  destruct (ban && _); [apply returns_throw|].
  apply returns_bind_any. intros epf'.
  apply returns_bind_any. intros h. rewrite Hx.
  assert (Hnext : forall k keys' gp',
    returns
      (let* graftPath := forced_resolution operation d None o k keys' (S t) gp' in
       let* o' := read (fun h => get_prop h o k) in
       if validating v && (S t <? len)%nat && not_an_object o'
       then throw (JsonPatchError OPERATION_PATH_UNRESOLVABLE)
       else walk reg f g operation v m ban d w None len n keys' (S t) o' epf' graftPath)
      (fun r => newDocument r = d)).
  { intros k keys' gp'. apply returns_bind_any. intros gp''.
    apply returns_bind_any. intros o'.
    destruct (validating v && (S t <? len)%nat && not_an_object o');
      [apply returns_throw|apply IH]. }
  destruct (is_array h o).
  - apply returns_bind_any. intros [[k keys'] gp'].
    destruct (len <=? S t)%nat; [|apply Hnext].
    destruct (validating v && opname_eqb (op operation) Op_add && key_gt_length h o k);
      [apply returns_throw|].
    apply call_operator_returns_document. by right.
  - destruct (len <=? S t)%nat; [|apply Hnext].
    apply call_operator_returns_document. by left.
Qed.

End ReturnsDocument.

Lemma splice_at_index es n del ins :
  0 <= n ->
  splice es n del ins
  = let j := Z.to_nat (Z.min n (Z.of_nat (length es))) in
    (take j es ++ ins ++ drop (j + del) es, take del (drop j es)).
Proof.
  intros Hn. unfold splice. replace (n <? 0) with false; [done|].
  symmetry. apply Z.ltb_ge. lia.
Qed.

(** The operator that a simple operation ends in does to the container
    what [patched] says, and touches no other cell. *)
Lemma operator_patched f operation d l k cl h r h' :
  h !! l = Some cl -> simple_op (op operation) -> plain_key cl k ->
  call_operator operation d (if is_array h (VRef l) then arrOps f else objOps f)
    (VRef l) k h = (Ok r, h') ->
  h' = <[l := patched (op operation) k (value operation) cl]> h.
Proof.
  intros Hl Hop Hk. unfold call_operator. cbn [is_array]. rewrite Hl.
  assert (Hid : <[l := cl]> h = h) by by apply list_insert_id.
  destruct cl as [es ps|ps]; cbn [plain_key] in Hk.
  - destruct Hk as (n & -> & Hn).
    destruct Hop as [Ho|[Ho|[Ho|[Ho|Ho]]]]; rewrite Ho; cbn [arrOps patched].
    + unfold arrOps_add. cbn [key_name int32_of_key].
      rewrite isInteger_pretty, ToInt32_small by lia.
      unfold bind, ret, splice_at. rewrite Hl, splice_at_index by lia.
      cbn [test_failed test]. rewrite Nat.add_0_r. by intros [= _ <-].
    + unfold arrOps_remove. cbn [int32_of_key]. rewrite ToInt32_small by lia.
      unfold bind, ret, splice_at. rewrite Hl, splice_at_index by lia.
      cbn [test_failed test app]. rewrite Nat.add_1_r. by intros [= _ <-].
    + unfold arrOps_replace, bind, read, write, ret, get_prop, set_prop, key_index.
      cbn [key_name]. rewrite Hl, array_index_pretty by lia.
      cbn [test_failed test]. unfold pad_to. rewrite <- app_assoc. by intros [= _ <-].
    + unfold objOps_test, bind, read, ret. rewrite Hid.
      destruct (get_prop h (VRef l) (KNum n)); try discriminate.
      destruct (_areEquals h _ _) as [[|]| |]; cbn; try discriminate.
      by intros [= _ <-].
    + unfold objOps__get, bind, read, ret. rewrite Hid.
      destruct (get_prop h (VRef l) (KNum n)); cbn; try discriminate.
      by intros [= _ <-].
  - destruct Hop as [Ho|[Ho|[Ho|[Ho|Ho]]]]; rewrite Ho; cbn [objOps patched].
    + unfold objOps_add, bind, write, ret, set_prop. rewrite Hl.
      cbn. by intros [= _ <-].
    + unfold objOps_remove, bind, read, write, ret, get_prop, delete_prop. rewrite Hl.
      cbn. by intros [= _ <-].
    + unfold objOps_replace, bind, read, write, ret, get_prop, set_prop. rewrite Hl.
      cbn. by intros [= _ <-].
    + unfold objOps_test, bind, read, ret. rewrite Hid.
      destruct (get_prop h (VRef l) k); try discriminate.
      destruct (_areEquals h _ _) as [[|]| |]; cbn; try discriminate.
      by intros [= _ <-].
    + unfold objOps__get, bind, read, ret. rewrite Hid.
      destruct (get_prop h (VRef l) k); cbn; try discriminate.
      by intros [= _ <-].
Qed.

(** C2, as stated, fails at the root path: there the dispatcher returns
    before any clone is taken.  With [mutate = false] a [test] or a [_get]
    of the root answer with the caller's own document, an [add] with
    [operation.value] itself and a [copy] with the caller's own object at
    [from]; the store is as it was, no cell having been made. *)
Lemma root_operation_takes_no_clone :
  let h := [CObj [("b", VNum 1)]; CObj [("a", VRef 0%nat)]; CObj [("a", VRef 0%nat)]] in
  applyOperation ∅ (VRef 1%nat)
    (mkOp Op_test (Some "") None (VRef 2%nat) None VUndef false)
    NoValidation false true 0%nat h
  = (Ok (mkResult (VRef 1%nat) VUndef (Some true) None VUndef), h)
  /\ applyOperation ∅ (VRef 1%nat)
       (mkOp Op_get (Some "") None VUndef None VUndef false)
       NoValidation false true 0%nat h
     = (Ok (mkResult (VRef 1%nat) VUndef None None (VRef 1%nat)), h)
  /\ applyOperation ∅ (VRef 1%nat)
       (mkOp Op_add (Some "") None (VRef 2%nat) None VUndef false)
       NoValidation false true 0%nat h
     = (Ok (result_doc (VRef 2%nat)), h)
  /\ applyOperation ∅ (VRef 1%nat)
       (mkOp Op_copy (Some "") (Some "/a") VUndef None VUndef false)
       NoValidation false true 0%nat h
     = (Ok (result_doc (VRef 0%nat)), h).
Proof. vm_compute. auto. Qed.

(** C2 (as amended).  With [mutate = false], whatever the operation, the
    validation and the outcome, every cell that existed before the call is
    as it was: the caller's document is untouched.  (User code is taken to
    behave: validators do not write, and handlers write only into what they
    are handed.)  When a standard operation on a path other than the root
    returns, one deep clone of the document has been made before the
    traversal, out of new cells only and deep-equal to the document when
    that is a value of the JSON data model; the [newDocument] that is
    returned is that clone; the result and the store are those of the same
    operation applied in place and without validation to the clone ([move]
    and [copy] under the default validator apart, whose validation makes
    clones of its own); and for [add], [remove], [replace], [test] and
    [_get] the one cell that may differ from the store as the clone left it
    is the container in the clone that the path ends in, which is then what
    [patched] says.  On [{"a":{"b":1}}] the operation
    [{op: "add", path: "/a/c", value: 2}] leaves both cells of the document
    as they were and returns a new document, [{"a":{"b":1,"c":2}}]. *)
Theorem mutate_false_leaves_document (reg : gmap string XConfig) (document : val)
    (operation : Operation) (v : Validation) (ban : bool) (i : nat) (h : list cell) :
  registry_local reg ->
  registry_pure_validators reg ->
  validation_pure v ->
  take (length h) (snd (applyOperation reg document operation v false ban i h)) = h
  /\ (op operation <> Op_x -> path operation <> Some "" ->
      forall r h',
        applyOperation reg document operation v false ban i h = (Ok r, h') ->
        exists c h1,
          _deepClone document h = (Ok c, h1)
          /\ take (length h) h1 = h
          /\ val_above (length h) c
          /\ above (length h) h1
          /\ (json_value h document -> deep_equal h h1 document c)
          /\ newDocument r = c
          /\ ((v = DefaultValidation ->
               op operation <> Op_move /\ op operation <> Op_copy) ->
              applyOperation reg c operation NoValidation true ban i h1 = (Ok r, h'))
          /\ (forall l k cl,
                locate_path ban h1 (Str.split "/" (default "" (path operation))) c
                = Ok (VRef l, k) ->
                h1 !! l = Some cl ->
                simple_op (op operation) -> plain_key cl k ->
                h' = <[l := patched (op operation) k (value operation) cl]> h1))
  /\ applyOperation ∅ (VRef 1%nat)
       (mkOp Op_add (Some "/a/c") None (VNum 2) None VUndef false)
       NoValidation false true 0%nat
       [CObj [("b", VNum 1)]; CObj [("a", VRef 0%nat)]]
     = (Ok (result_doc (VRef 3%nat)),
        [CObj [("b", VNum 1)]; CObj [("a", VRef 0%nat)];
         CObj [("b", VNum 1); ("c", VNum 2)]; CObj [("a", VRef 2%nat)]]).
Proof.
  intros Hl Hp Hv. split; [|split; [|reflexivity]].
  { apply frame_prefix.
    apply (applyOperation_copy_on_write (length h) reg v Hl Hp Hv document operation ban i h).
    - intros l c Hlc Hc. apply lookup_lt_Some in Hc. lia.
    - lia. }
  intros Hop Hpath r h' E.
  assert (Hx : is_x operation = false) by by apply is_x_false.
  unfold applyOperation, applyOperation_with in E.
  unfold bind at 1 in E.
  pose proof (validate_first_standard_quiet reg (inner_validate_get reg) document
                operation v Hop Hv h) as Hq.
  destruct (validate_first reg (inner_validate_get reg) document operation v h)
    as [[[]|e|] h0]; simpl in Hq; subst h0; try discriminate.
  rewrite bool_decide_eq_false_2 in E by done.
  cbn [negb] in E. unfold bind at 1 in E.
  destruct (_deepClone document h) as [[c|e|] h1] eqn:Ec; try discriminate.
  rewrite Hx in E.
  set (keys := Str.split "/" (default "" (path operation))) in *.
  exists c, h1.
  destruct (deepClone_fresh document h) as (Fr & Ha & Hc). rewrite Ec in Fr, Ha, Hc.
  simpl in Fr, Ha, Hc.
  assert (Hnew : newDocument r = c).
  { by apply (walk_returns_document _ _ _ _ _ _ _ _ _ _ Hx _ _ _ _ _ _ _ _ _ E). }
  assert (Hdone : (v = DefaultValidation ->
                   op operation <> Op_move /\ op operation <> Op_copy) ->
                  operate (inner_default reg) operation c (locate_path ban h1 keys c) h1
                  = (Ok r, h')).
  { intros Hd. rewrite <- (traversal_locate reg (inner_default reg)
                             (inner_validate_get reg) operation false ban c keys h1 Hx).
    destruct v as [| |fv]; [exact E| |].
    - destruct (Hd eq_refl).
      apply (walk_validated reg _ _ operation DefaultValidation false ban c c _ Hx)
        with (epf := None); [|exact E].
      intros i' d' e. by apply validator_quiet.
    - apply (walk_validated reg _ _ operation (CustomValidation fv) false ban c c _ Hx)
        with (epf := None); [|exact E].
      intros i' d' e h2. apply Hv. }
  repeat split; auto.
  - by apply frame_prefix.
  - intros Hj. destruct (deepClone_equal _ _ _ _ _ Hj Ec) as [_ He]. by eexists.
  - intros Hd. rewrite applyOperation_locate by done. by apply Hdone.
  - intros l k cl Hloc Hcl Hs Hk.
    assert (Hd : v = DefaultValidation ->
                 op operation <> Op_move /\ op operation <> Op_copy).
    { intros _. destruct Hs as [Ho|[Ho|[Ho|[Ho|Ho]]]]; rewrite Ho; by split. }
    specialize (Hdone Hd). rewrite Hloc in Hdone. unfold operate in Hdone.
    by apply (operator_patched _ _ _ _ _ _ _ _ _ Hcl Hs Hk Hdone).
Qed.

Lemma mutate_false_leaves_document_witness :
  let o := mkOp Op_add (Some "/a/c") None (VNum 2) None VUndef false in
  let out := applyOperation sample_registry (VRef 1%nat) o DefaultValidation false true
               0%nat sample_map in
  take 2 (snd out) = sample_map
  /\ exists c h1,
       _deepClone (VRef 1%nat) sample_map = (Ok c, h1)
       /\ newDocument (result_doc (VRef 3%nat)) = c
       /\ snd out = <[2%nat := patched Op_add (KStr "c") (VNum 2) (CObj [("b", VNum 1)])]> h1.
Proof.
  cbv zeta.
  pose proof (mutate_false_leaves_document sample_registry (VRef 1%nat)
                (mkOp Op_add (Some "/a/c") None (VNum 2) None VUndef false)
                DefaultValidation true 0%nat sample_map
                sample_registry_local sample_registry_pure I) as (Hframe & Hclone & _).
  split; [exact Hframe|].
  destruct (Hclone ltac:(discriminate) ltac:(discriminate)
              (result_doc (VRef 3%nat))
              [CObj [("b", VNum 1)]; CObj [("a", VRef 0%nat)];
               CObj [("b", VNum 1); ("c", VNum 2)]; CObj [("a", VRef 2%nat)]]
              ltac:(vm_compute; reflexivity))
    as (c & h1 & Ec & _ & _ & _ & _ & Hn & _ & Hpat).
  exists c, h1. split; [exact Ec|]. split; [exact Hn|].
  assert (E := Ec). vm_compute in E. injection E as <- <-.
  change (snd (applyOperation sample_registry (VRef 1%nat)
                 (mkOp Op_add (Some "/a/c") None (VNum 2) None VUndef false)
                 DefaultValidation false true 0%nat sample_map))
    with [CObj [("b", VNum 1)]; CObj [("a", VRef 0%nat)];
          CObj [("b", VNum 1); ("c", VNum 2)]; CObj [("a", VRef 2%nat)]].
  apply (Hpat 2%nat (KStr "c") (CObj [("b", VNum 1)])).
  - vm_compute. reflexivity.
  - reflexivity.
  - by left.
  - discriminate.
Defined.

(** ** The copy is put where its path ends *)

Lemma above_length (h : list cell) : above (length h) h.
Proof. intros l c Hlc Hc. apply lookup_lt_Some in Hc. lia. Qed.

(** What the validation of a standard operation leaves of the store: the
    cells that were there, and cells of its own after them. *)
Lemma validateFunction_extends reg v o i d e h :
  op o <> Op_x -> validation_pure v ->
  frame (length h) h (snd (validateFunction reg (inner_validate_get reg) v o i d e h)).
Proof.
  intros Hop Hv.
  assert (S : safe_if True (length h)
                (validateFunction reg (inner_validate_get reg) v o i d e) (fun _ => True)).
  { assert (H : safe_if True (length h) (validator reg (inner_validate_get reg) o i d e)
                  (fun _ => True)).
    { apply validator_safe.
      - intros. apply inner_validate_get_safe.
      - intros xc Hx. congruence. }
    unfold validateFunction. destruct v; auto. by apply pure_validator_safe. }
  apply (S h); [apply above_length|lia].
Qed.

Lemma frame_step h h1 h2 :
  frame (length h) h h1 -> frame (length h1) h1 h2 -> frame (length h) h h2.
Proof.
  intros F1 F2. eapply frame_trans; [exact F1|].
  eapply frame_weaken; [|exact F2]. by destruct F1.
Qed.

Section WalkReaches.

Variable reg : gmap string XConfig.
Variable f : val -> Operation -> M Result.
Variable g : option string -> val -> M (option JsonPatchErrorName).
Variable operation : Operation.
Variable v : Validation.
Variable m ban : bool.
Variable d w : val.
Variable len : nat.
Hypothesis Hx : is_x operation = false.
Hypothesis Hvf : forall i d e h,
  frame (length h) h (snd (validateFunction reg g v operation i d e h)).

Lemma existing_path_check_extends keys t o k epf h :
  frame (length h) h (snd (existing_path_check reg g operation v d len keys t o k epf h)).
Proof.
  unfold existing_path_check. destruct (validating v); [|apply frame_refl].
  destruct epf as [e|]; [apply frame_refl|].
  unfold bind, read. destruct (get_prop h o k) as [x| |]; try apply frame_refl.
  destruct (if strict_eq x VUndef then _ else _) as [frag|]; [|apply frame_refl].
  pose proof (Hvf 0%nat d (Some frag) h) as Hv.
  destruct (validateFunction reg g v operation 0%nat d (Some frag) h) as [[u| |] h1];
    simpl in *; exact Hv.
Qed.

(** A standard operation that returns has reached its operator, on a
    store that holds the cells there were and, after them, those the
    validation made. *)
Lemma walk_reaches_operator n : forall keys t o epf gp h r h',
  walk reg f g operation v m ban d w None len n keys t o epf gp h = (Ok r, h') ->
  exists table o' k' h0,
    frame (length h) h h0
    /\ (table = objOps f \/ table = arrOps f)
    /\ call_operator operation d table o' k' h0 = (Ok r, h').
Proof.
  induction n as [|n IH]; intros keys t o epf gp h r h'; [discriminate|].
  cbn [walk]. destruct (ban && _); [discriminate|].
  unfold bind at 1.
  pose proof (existing_path_check_extends keys t o (key_at keys t) epf h) as Hh.
  destruct (existing_path_check reg g operation v d len keys t o (key_at keys t) epf h)
    as [[e1| |] h1]; try discriminate.
  simpl in Hh. unfold bind at 1, get_heap at 1. rewrite Hx.
  assert (Hnext : forall k keys' gp',
    (let* graftPath := forced_resolution operation d None o k keys' (S t) gp' in
     let* o' := read (fun h => get_prop h o k) in
     if validating v && (S t <? len)%nat && not_an_object o'
     then throw (JsonPatchError OPERATION_PATH_UNRESOLVABLE)
     else walk reg f g operation v m ban d w None len n keys' (S t) o' e1 graftPath) h1
    = (Ok r, h') ->
    exists table o' k' h0,
      frame (length h) h h0
      /\ (table = objOps f \/ table = arrOps f)
      /\ call_operator operation d table o' k' h0 = (Ok r, h')).
  { intros k keys' gp'. unfold forced_resolution, bind, ret, read.
    destruct (get_prop h1 o k) as [o'| |]; try discriminate.
    destruct (validating v && (S t <? len)%nat && not_an_object o'); [discriminate|].
    intros Hw. apply IH in Hw as (table & o'' & k'' & h0 & F & Ht & Hc).
    exists table, o'', k'', h0. split; [|done]. by eapply frame_step. }
  destruct (is_array h1 o) eqn:Ha.
  - unfold bind at 1, read at 1.
    destruct (array_key operation v h1 o keys (S t) (key_at keys t) gp)
      as [[[k keys'] gp']| |] eqn:Ek; try discriminate.
    destruct (len <=? S t)%nat; [|by apply Hnext].
    destruct (validating v && opname_eqb (op operation) Op_add && key_gt_length h1 o k);
      [discriminate|].
    intros Hc. exists (arrOps f), o, k, h1. auto.
  - destruct (len <=? S t)%nat; [|by apply Hnext].
    intros Hc. exists (objOps f), o, (key_at keys t), h1. auto.
Qed.

End WalkReaches.

Lemma set_prop_at h o k v h' :
  set_prop h o k v = Ok h' ->
  exists l cl cl', o = VRef l /\ h !! l = Some cl /\ h' = <[l := cl']> h.
Proof.
  unfold set_prop. destruct o as [| | | | | |l]; try discriminate.
  destruct (h !! l) as [[es ps|ps]|] eqn:Hl; try discriminate.
  - destruct (key_index k).
    + intros [= <-]. eauto 10.
    + destruct (String.eqb _ _).
      * destruct v; try discriminate. destruct (_ && _); [|discriminate].
        intros [= <-]. eauto 10.
      * intros [= <-]. eauto 10.
  - intros [= <-]. eauto 10.
Qed.

(** An [add] without validation that returns has written one cell: the
    container its path ends in. *)
Lemma add_writes_container f d p c ban h ra h2 :
  operate f (mkOp Op_add (Some p) None c None VUndef false) d
    (locate_path ban h (Str.split "/" p) d) h = (Ok ra, h2) ->
  exists l k cl,
    locate_path ban h (Str.split "/" p) d = Ok (VRef l, k)
    /\ h !! l = Some cl
    /\ (exists cl', h2 = <[l := cl']> h)
    /\ (plain_key cl k -> h2 = <[l := patched Op_add k c cl]> h).
Proof.
  destruct (locate_path ban h (Str.split "/" p) d) as [[o k]| |] eqn:Hloc;
    try discriminate.
  unfold operate. intros Hcall.
  assert (Hone : exists l cl cl', o = VRef l /\ h !! l = Some cl /\ h2 = <[l := cl']> h).
  { revert Hcall. unfold call_operator. destruct (is_array h o) eqn:Ha; cbn [arrOps objOps op].
    - unfold arrOps_add. cbn [value]. unfold bind at 1 2.
      destruct (isInteger (key_name k)).
      + unfold bind at 1. unfold splice_at.
        destruct o as [| | | | | |l]; try discriminate.
        destruct (h !! l) as [[es ps|ps]|] eqn:Hl; try discriminate.
        destruct (splice es (int32_of_key k) 0 [c]) as [es' removed]. cbn.
        intros [= _ <-]. eauto 10.
      + unfold write.
        destruct (set_prop h o k c) as [hh| |] eqn:E; try discriminate.
        cbn. intros [= _ <-]. by apply set_prop_at in E.
    - unfold objOps_add, bind, write. cbn [value].
      destruct (set_prop h o k c) as [hh| |] eqn:E; try discriminate.
      cbn. intros [= _ <-]. by apply set_prop_at in E. }
  destruct Hone as (l & cl & cl' & -> & Hl & Hh2).
  exists l, k, cl. split; [done|]. split; [done|]. split; [eauto|].
  intros Hk.
  apply (operator_patched f _ d l k cl h ra h2 Hl) in Hcall; [done| |done]. by left.
Qed.

(** The value that [patched] has put at the key is read back there. *)
Lemma patched_add_reads h l k cl c :
  h !! l = Some cl -> plain_key cl k ->
  (forall es ps n, cl = CArr es ps -> k = KNum n -> n <= Z.of_nat (length es)) ->
  get_prop (<[l := patched Op_add k c cl]> h) (VRef l) k = Ok c.
Proof.
  intros Hl Hk Hle. cbn [get_prop].
  rewrite list_lookup_insert_eq by by apply lookup_lt_Some in Hl.
  destruct cl as [es ps|ps]; cbn [patched plain_key] in *.
  - destruct Hk as (n & -> & Hn). specialize (Hle es ps n eq_refl eq_refl).
    unfold key_index. cbn [key_name]. rewrite array_index_pretty by lia.
    replace (Z.to_nat (Z.min n (Z.of_nat (length es)))) with (Z.to_nat n) by lia.
    rewrite lookup_app_r by (rewrite length_take; lia).
    rewrite length_take. replace (Z.to_nat n - Z.to_nat n `min` length es)%nat with 0%nat by lia.
    done.
  - by rewrite plookup_pset_eq.
Qed.



(** ** The components under which a list is looked in *)

Lemma frame_lookup h h1 l c :
  frame (length h) h h1 -> h !! l = Some c -> h1 !! l = Some c.
Proof.
  intros [_ F] Hl. rewrite F; [done|]. by apply lookup_lt_Some in Hl.
Qed.

Lemma get_prop_extends h h1 o k x :
  frame (length h) h h1 -> get_prop h o k = Ok x ->
  get_prop h1 o k = Ok x /\ is_array h1 o = is_array h o
  /\ array_length h1 o = array_length h o.
Proof.
  intros F. destruct o as [| | | | | |l]; cbn [get_prop is_array array_length]; try done.
  destruct (h !! l) as [c|] eqn:Hl; [|discriminate].
  by rewrite (frame_lookup _ _ _ _ F Hl).
Qed.

Lemma is_array_extends h h1 o :
  frame (length h) h h1 -> is_array h o = true ->
  is_array h1 o = true /\ array_length h1 o = array_length h o.
Proof.
  intros F. destruct o as [| | | | | |l]; cbn [is_array array_length]; try done.
  destruct (h !! l) as [c|] eqn:Hl; [|discriminate].
  by rewrite (frame_lookup _ _ _ _ F Hl).
Qed.

Lemma std_array_key_extends h h1 o k :
  array_length h1 o = array_length h o -> std_array_key h1 o k = std_array_key h o k.
Proof. intros E. unfold std_array_key. by rewrite E. Qed.

Lemma list_components_extends (P : string -> Prop) h h1 :
  frame (length h) h h1 ->
  forall rest c o,
    Forall P (list_components h1 c rest o) -> Forall P (list_components h c rest o).
Proof.
  intros F. induction rest as [|c' rest' IH]; intros c o; cbn [list_components].
  - rewrite !app_nil_r. destruct (is_array h o) eqn:Ha; [|constructor].
    by destruct (is_array_extends _ _ _ F Ha) as [-> _].
  - rewrite !Forall_app. intros [H1 H2].
    destruct (is_array h o) eqn:Ha.
    + destruct (is_array_extends _ _ _ F Ha) as [Ha1 Hlen]. rewrite Ha1 in H1, H2.
      split; [done|]. rewrite (std_array_key_extends _ _ _ _ Hlen) in H2.
      destruct (std_array_key h o (component_key c)) as [k'| |]; try constructor.
      destruct (get_prop h o k') as [o'| |] eqn:Eg; try constructor.
      destruct (get_prop_extends _ _ _ _ _ F Eg) as (Eg1 & _). rewrite Eg1 in H2.
      by apply IH.
    + split; [constructor|].
      destruct (get_prop h o (component_key c)) as [o'| |] eqn:Eg; try constructor.
      destruct (get_prop_extends _ _ _ _ _ F Eg) as (Eg1 & Ha1 & _).
      rewrite Ha1, Ha, Eg1 in H2. by apply IH.
Qed.

Section WalkIndexed.

Variable reg : gmap string XConfig.
Variable f : val -> Operation -> M Result.
Variable g : option string -> val -> M (option JsonPatchErrorName).
Variable operation : Operation.
Variable v : Validation.
Variable m ban : bool.
Variable d w : val.
Hypothesis Hx : is_x operation = false.
Hypothesis Hv : validating v = true.
Hypothesis Hvf : forall i d e h,
  frame (length h) h (snd (validateFunction reg g v operation i d e h)).

(** Under validation the conversion in a list lets only digits and the
    sentinel through, and converts as it does without validation. *)
Lemma array_key_index h o keys t s gp k keys' gp' :
  array_key operation v h o keys t (KStr s) gp = Ok (k, keys', gp') ->
  index_component s /\ keys' = keys /\ std_array_key h o (KStr s) = Ok k.
Proof.
  unfold array_key, std_array_key. rewrite Hx, Hv. cbn [andb].
  destruct (key_is (KStr s) "-") eqn:Ed.
  - intros [= <- <- _]. split; [|done]. right. by apply key_is_spec.
  - destruct (isInteger s) eqn:Ei; cbn [negb]; [|discriminate].
    intros [= <- <- _]. split; [|done]. left. by apply isInteger_spec.
Qed.

Lemma walk_list_components n : forall keys t o c epf gp h r h',
  keys !! t = Some c ->
  walk reg f g operation v m ban d w None (length keys) n keys t o epf gp h = (Ok r, h') ->
  Forall index_component (list_components h c (drop (S t) keys) o).
Proof.
  induction n as [|n IH]; intros keys t o c epf gp h r h' Hc; [discriminate|].
  cbn [walk]. destruct (ban && _); [discriminate|].
  unfold bind at 1.
  pose proof (existing_path_check_extends reg g operation v d (length keys) Hvf
                keys t o (key_at keys t) epf h) as F.
  destruct (existing_path_check reg g operation v d (length keys) keys t o
              (key_at keys t) epf h) as [[e1| |] h1]; try discriminate.
  simpl in F. unfold bind at 1, get_heap at 1. rewrite Hx.
  rewrite (key_at_component _ _ _ Hc).
  intros Hw. apply (list_components_extends _ h h1 F).
  assert (Hk : exists s, component_key c = KStr s).
  { unfold component_key. destruct (negb _ && _); by eexists. }
  destruct Hk as [s Hs]. rewrite Hs in Hw.
  destruct (drop (S t) keys) as [|c' rest'] eqn:Hdrop; cbn [list_components].
  - rewrite app_nil_r. destruct (is_array h1 o) eqn:Ha; [|constructor].
    unfold bind at 1, read at 1 in Hw.
    destruct (array_key operation v h1 o keys (S t) (KStr s) gp)
      as [[[k keys'] gp']| |] eqn:Ek; try discriminate.
    apply array_key_index in Ek as (Hi & _). rewrite Hs. cbn [key_name].
    constructor; [exact Hi|constructor].
  - assert (Hc' : keys !! S t = Some c').
    { pose proof (lookup_drop keys (S t) 0) as E. rewrite Hdrop, Nat.add_0_r in E.
      by rewrite <- E. }
    assert (Hlen : (length keys <=? S t)%nat = false).
    { apply Nat.leb_gt. by apply lookup_lt_Some in Hc'. }
    assert (Hrest : drop (S (S t)) keys = rest').
    { replace (S (S t)) with (S t + 1)%nat by lia. rewrite <- drop_drop, Hdrop. done. }
    rewrite Hlen in Hw.
    assert (Hnext : forall k gp,
      (let* graftPath := forced_resolution operation d None o k keys (S t) gp in
       let* o' := read (fun h => get_prop h o k) in
       if validating v && (S t <? length keys)%nat && not_an_object o'
       then throw (JsonPatchError OPERATION_PATH_UNRESOLVABLE)
       else walk reg f g operation v m ban d w None (length keys) n keys (S t) o' e1
              graftPath) h1 = (Ok r, h') ->
      Forall index_component
        match get_prop h1 o k with
        | Ok o' => list_components h1 c' rest' o'
        | _ => []
        end).
    { intros k gp0. unfold forced_resolution, bind, ret, read.
      destruct (get_prop h1 o k) as [o'| |]; try discriminate.
      destruct (validating v && (S t <? length keys)%nat && not_an_object o');
        [discriminate|].
      intros Hw'. rewrite <- Hrest. by apply (IH _ _ _ _ _ _ _ _ _ Hc' Hw'). }
    rewrite Forall_app. destruct (is_array h1 o) eqn:Ha.
    + unfold bind at 1, read at 1 in Hw.
      destruct (array_key operation v h1 o keys (S t) (KStr s) gp)
        as [[[k keys'] gp']| |] eqn:Ek; try discriminate.
      apply array_key_index in Ek as (Hi & -> & Hstd).
      rewrite Hs, Hstd. cbn [key_name]. split; [constructor; [exact Hi|constructor]|].
      by apply (Hnext k gp').
    + split; [constructor|]. rewrite Hs. by apply (Hnext (KStr s) gp).
Qed.

End WalkIndexed.

(** The key a standard operation without validation ends on in a list
    is a name only when the component is neither all digits nor the
    sentinel. *)
Lemma locate_list_name ban h : forall rest prev c o l s,
  locate ban h prev c rest o = Ok (VRef l, KStr s) ->
  is_array h (VRef l) = true ->
  isInteger s = false /\ s <> "-".
Proof.
  induction rest as [|c' rest' IH]; intros prev c o l s; cbn [locate];
    (destruct (ban && _); [discriminate|]).
  - destruct (is_array h o) eqn:Ha.
    + destruct (std_array_key h o (component_key c)) as [k'| |] eqn:Ek; try discriminate.
      intros [= -> ->] _. revert Ek. unfold std_array_key.
      destruct (key_is (component_key c) "-") eqn:Ed; [discriminate|].
      destruct (component_key c) as [|s0|]; try discriminate.
      destruct (isInteger s0) eqn:Ei; [discriminate|].
      intros [= <-]. split; [done|]. intros ->. vm_compute in Ed. discriminate.
    + intros [= -> _] Hl. congruence.
  - destruct (if is_array h o then std_array_key h o (component_key c)
              else Ok (component_key c)) as [k'| |]; try discriminate.
    destruct (get_prop h o k') as [o'| |]; try discriminate.
    apply IH.
Qed.

Lemma locate_path_list_name ban h keys d l s :
  locate_path ban h keys d = Ok (VRef l, KStr s) ->
  is_array h (VRef l) = true ->
  isInteger s = false /\ s <> "-".
Proof.
  destruct keys as [|k0 [|c rest]]; cbn [locate_path]; try discriminate.
  - destruct (is_array h d); discriminate.
  - apply locate_list_name.
Qed.

Section ListName.

Variable reg : gmap string XConfig.
Variable d : val.
Variable o : Operation.
Variable p : string.
Variable ban : bool.
Variable i : nat.
Variable h : list cell.
Variable l : nat.
Variable s : string.
Variable es : list val.
Variable ps : list (string * val).
Hypothesis Hpath : path o = Some p.
Hypothesis Hp : p <> "".
Hypothesis Hloc : locate_path ban h (Str.split "/" p) d = Ok (VRef l, KStr s).
Hypothesis Hl : h !! l = Some (CArr es ps).

Lemma list_name_not_index : ~ index_component s.
Proof.
  destruct (locate_path_list_name _ _ _ _ _ _ Hloc) as [Hi Hd].
  { cbn [is_array]. by rewrite Hl. }
  intros [H|H]; [|done]. apply isInteger_spec in H. congruence.
Qed.

Lemma list_name_operator :
  is_x o = false ->
  applyOperation reg d o NoValidation true ban i h
  = call_operator o d (arrOps (inner_default reg)) (VRef l) (KStr s) h.
Proof.
  intros Hx. rewrite applyOperation_locate; [|done|rewrite Hpath; congruence].
  rewrite Hpath. change (default "" (Some p)) with p. rewrite Hloc.
  unfold operate. cbn [is_array]. by rewrite Hl.
Qed.

Lemma list_name_key_index : key_index (KStr s) = None.
Proof.
  destruct (key_index (KStr s)) as [n|] eqn:E; [|done].
  apply array_index_digits in E. destruct list_name_not_index. by left.
Qed.

(** [add] and [replace] at a name set a property of the list. *)
Lemma list_name_set :
  op o = Op_add \/ op o = Op_replace -> s <> "length" ->
  exists r,
    applyOperation reg d o NoValidation true ban i h
    = (Ok r, <[l := CArr es (pset s (value o) ps)]> h).
Proof.
  intros Hop Hlen.
  assert (Hx : is_x o = false).
  { apply is_x_false. destruct Hop as [-> | ->]; discriminate. }
  rewrite list_name_operator by done.
  destruct (locate_path_list_name _ _ _ _ _ _ Hloc) as [Hi _].
  { cbn [is_array]. by rewrite Hl. }
  assert (Hset : set_prop h (VRef l) (KStr s) (value o)
                 = Ok (<[l := CArr es (pset s (value o) ps)]> h)).
  { unfold set_prop. rewrite Hl, list_name_key_index. cbn [key_name].
    by apply String.eqb_neq in Hlen as ->. }
  unfold call_operator. destruct Hop as [Ho | Ho]; rewrite Ho; cbn [arrOps].
  - unfold arrOps_add. cbn [key_name]. rewrite Hi.
    unfold bind, write, ret. rewrite Hset. cbn. eauto.
  - unfold arrOps_replace, bind, read, write, ret. rewrite Hset.
    destruct (get_prop h (VRef l) (KStr s)) eqn:Eg; cbn; eauto.
    + revert Eg. unfold get_prop. rewrite Hl, list_name_key_index. cbn [key_name].
      by apply String.eqb_neq in Hlen as ->.
    + revert Eg. unfold get_prop. rewrite Hl, list_name_key_index. cbn [key_name].
      by apply String.eqb_neq in Hlen as ->.
Qed.

(** [remove] at a name coerces the name to a number and takes out the
    element at that index. *)
Lemma list_name_remove :
  op o = Op_remove ->
  let n := int32_of_string s in
  applyOperation reg d o NoValidation true ban i h
  = (Ok (mkResult d (default VUndef (snd (splice es n 1 []) !! 0%nat)) None None VUndef),
     <[l := CArr (fst (splice es n 1 [])) ps]> h).
Proof.
  intros Hop n.
  assert (Hx : is_x o = false) by (apply is_x_false; congruence).
  rewrite list_name_operator by done.
  unfold call_operator. rewrite Hop. cbn [arrOps].
  unfold arrOps_remove. cbn [int32_of_key]. fold n.
  unfold bind, ret, splice_at. rewrite Hl.
  by destruct (splice es n 1 []) as [es' removed].
Qed.

End ListName.



